(** * videogrep: transcript search and interval normalisation

    A shallow embedding of [videogrep/videogrep.py]: [remove_overlaps],
    [pad_and_sync], [content_aware_segments] and [search], followed by the
    properties of these functions.

    Modelling conventions.
    - Timestamps are Python floats in the source.  They are modelled by exact
      rationals ([Q]); comparisons are the boolean comparisons of [Q], and
      [+] / [-] are exact.  Rounding, infinities and NaN are outside the model.
    - Strings are [string]s of 8-bit characters; [lower] and [strip] act on
      the ASCII range.
    - A segment, a transcript line and a word are dicts with fixed keys in
      the source; they are records here, optional keys are [option] fields.
    - Python exceptions are the [Raise] results of the [result] type.
    - [search] runs in a state: the random source, and the lines it prints.
      The loader ([parse_transcript], which reads the file system and calls
      the subtitle parsers) and [re.search] are parameters.
    - [remove_overlaps] and [pad_and_sync] are functions on lists of
      values; [pad_and_sync] is given a second time on a store of dicts,
      where it changes the dicts in place. *)

From Stdlib Require Import QArith Lqa Ascii String.
From stdpp Require Import base list strings gmap sorting pretty.

(** ** Exceptions and results *)

Inductive exn : Type :=
| IndexError
| KeyError
| ReError.

Inductive result (A : Type) : Type :=
| Ok (a : A)
| Raise (e : exn).
Arguments Ok {A} a.
Arguments Raise {A} e.

#[global] Instance result_ret : MRet result := fun A a => Ok a.

#[global] Instance result_bind : MBind result := fun A B k m =>
  match m with
  | Ok a => k a
  | Raise e => Raise e
  end.

(** ** Data model *)

(** A word of a transcript line: [{"word", "start", "end"}]. *)
Record word : Type := Word {
  w_word : string;
  w_start : Q;
  w_end : Q
}.

(** A transcript line: [{"start", "end", "content"}] and, when the
    transcript carries word-level timing, the key ["words"]. *)
Record line : Type := Line {
  l_start : Q;
  l_end : Q;
  l_content : string;
  l_words : option (list word)
}.

Definition transcript : Type := list line.

Inductive position_t : Type := before | after.

(** A segment: [{"file", "start", "end", "content"}], and for the segments
    added by [content_aware_segments] the keys ["content_aware"] and
    ["position"]. *)
Record segment : Type := Segment {
  file : string;
  start : Q;
  end_ : Q;
  content : string;
  content_aware : option bool;
  position : option position_t
}.

Definition set_start (q : Q) (s : segment) : segment :=
  Segment (file s) q (end_ s) (content s) (content_aware s) (position s).

Definition set_end (q : Q) (s : segment) : segment :=
  Segment (file s) (start s) q (content s) (content_aware s) (position s).

(** The four-key segment that [search] appends. *)
Definition plain_segment (f : string) (st en : Q) (c : string) : segment :=
  Segment f st en c None None.

(** The six-key segment that [content_aware_segments] inserts. *)
Definition context_segment (f : string) (l : line) (p : position_t) : segment :=
  Segment f (l_start l) (l_end l) (l_content l) (Some true) (Some p).

(** ** Python list primitives *)

(** [l[i]] for a Python integer [i]: negative indices count from the end,
    an index outside [-len, len) raises [IndexError]. *)
Definition py_index {A : Type} (l : list A) (i : Z) : result A :=
  let n := Z.of_nat (length l) in
  let j := if (i <? 0)%Z then (i + n)%Z else i in
  if ((0 <=? j)%Z && (j <? n)%Z)%bool then
    match l !! Z.to_nat j with
    | Some x => Ok x
    | None => Raise IndexError
    end
  else Raise IndexError.

(** [l.insert(i, x)] for [i >= 0]: a position past the end appends. *)
Definition py_insert {A : Type} (i : nat) (x : A) (l : list A) : list A :=
  take i l ++ x :: drop i l.

(** [sorted(segments, key=lambda k: k["start"])]: Python's sort is stable, so
    the result is the one of a stable insertion sort. *)
Fixpoint insert_by_start (x : segment) (l : list segment) : list segment :=
  match l with
  | [] => [x]
  | y :: r =>
      if Qle_bool (start x) (start y) then x :: y :: r
      else y :: insert_by_start x r
  end.

Fixpoint sorted_by_start (l : list segment) : list segment :=
  match l with
  | [] => []
  | x :: r => insert_by_start x (sorted_by_start r)
  end.

(** ** remove_overlaps and pad_and_sync (videogrep.py, lines 117-185)

    The list [out] of the source is never empty: it is kept as the pair of
    [out[:-1]] and [out[-1]]. *)

Definition out_list : Type := (list segment * segment)%type.

Definition out_to_list (o : out_list) : list segment := o.1 ++ [o.2].

(** One iteration of the loop of [remove_overlaps]. *)
Definition overlap_step (out : out_list) (seg : segment) : out_list :=
  let prev_end := end_ out.2 in
  if Qle_bool (start seg) prev_end then (out.1, set_end (end_ seg) out.2)
  else (out.1 ++ [out.2], seg).

Definition remove_overlaps (segments : list segment) : list segment :=
  match sorted_by_start segments with
  | [] => []
  | s0 :: rest => out_to_list (foldl overlap_step ([], s0) rest)
  end.

(** The body of the first loop of [pad_and_sync], on one segment. *)
Definition pad_one (padding resync : Q) (s : segment) : segment :=
  let s := if negb (Qeq_bool padding 0) then
             set_end (end_ s + padding) (set_start (start s - padding) s)
           else s in
  let s := if negb (Qeq_bool resync 0) then
             set_end (end_ s + resync) (set_start (start s + resync) s)
           else s in
  let s := if negb (Qle_bool 0 (start s)) then set_start 0 s else s in
  let s := if negb (Qle_bool 0 (end_ s)) then set_end 0 s else s in
  s.

(** One iteration of the second loop of [pad_and_sync]. *)
Definition sync_step (out : out_list) (seg : segment) : out_list :=
  let prev_file := file out.2 in
  let current_file := file seg in
  if negb (String.eqb current_file prev_file) then (out.1 ++ [out.2], seg)
  else
    let prev_end := end_ out.2 in
    if Qle_bool (start seg) prev_end then (out.1, set_end (end_ seg) out.2)
    else (out.1 ++ [out.2], seg).

(** The second loop of [pad_and_sync] on its own: the file-aware merge. *)
Definition file_aware_merge (segments : list segment) : list segment :=
  match segments with
  | [] => []
  | s0 :: rest => out_to_list (foldl sync_step ([], s0) rest)
  end.

Definition pad_and_sync (segments : list segment) (padding resync : Q)
  : list segment :=
  file_aware_merge (map (pad_one padding resync) segments).

(** ** pad_and_sync on the dicts as objects

    [pad_and_sync] changes the dicts of its argument in place, and [out]
    holds the same dicts.  Here a dict is an address in a store of segments,
    a list of segments is a list of addresses, and one address may occur
    several times in a list.  On a list without repeated dicts (the lists
    [search] builds) the values returned are those of [pad_and_sync]
    above. *)

#[global] Instance segment_inhabited : Inhabited segment :=
  populate (Segment EmptyString 0 0 EmptyString None None).

(** The values of the dicts of a list. *)
Definition values (σ : gmap nat segment) (refs : list nat) : list segment :=
  map (fun r => σ !!! r) refs.

(** An in-place change of the dict at [r]. *)
Definition update (r : nat) (change : segment -> segment)
    (σ : gmap nat segment) : gmap nat segment :=
  <[r := change (σ !!! r)]> σ.

(** The first loop: [for s in segments]. *)
Definition pad_loop (padding resync : Q) (σ : gmap nat segment)
    (refs : list nat) : gmap nat segment :=
  foldl (fun σ r => update r (pad_one padding resync) σ) σ refs.

(** One iteration of the second loop; [out] is [(out[:-1], out[-1])]. *)
Definition sync_step_obj (st : gmap nat segment * (list nat * nat)) (r : nat)
  : gmap nat segment * (list nat * nat) :=
  let σ := st.1 in
  let out := st.2 in
  let prev_file := file (σ !!! out.2) in
  let current_file := file (σ !!! r) in
  if negb (String.eqb current_file prev_file) then (σ, (out.1 ++ [out.2], r))
  else
    let prev_end := end_ (σ !!! out.2) in
    if Qle_bool (start (σ !!! r)) prev_end then
      (update out.2 (set_end (end_ (σ !!! r))) σ, out)
    else (σ, (out.1 ++ [out.2], r)).

(** The store after the call, and the list returned. *)
Definition pad_and_sync_obj (σ : gmap nat segment) (refs : list nat)
    (padding resync : Q) : gmap nat segment * list nat :=
  match refs with
  | [] => (σ, [])
  | r0 :: rest =>
      let σ := pad_loop padding resync σ refs in
      let st := foldl sync_step_obj (σ, ([], r0)) rest in
      (st.1, st.2.1 ++ [st.2.2])
  end.

(** ** content_aware_segments (videogrep.py, lines 187-221) *)

(** [any([s["start"] == <neighbour>["start"] for s in segments])]: the list
    comprehension evaluates the subscript [transcript[i]] once per segment, so
    with no segment nothing is read and the result is [False]. *)
Definition any_start_eq (segments : list segment) (neighbour : result line)
  : result bool :=
  match segments with
  | [] => Ok false
  | _ :: _ =>
      n ← neighbour;
      Ok (existsb (fun s => Qeq_bool (start s) (l_start n)) segments)
  end.

Definition content_aware_segments (segments : list segment) (t : transcript)
    (f : string) (idx : nat) : result (list segment) :=
  present ← any_start_eq segments (py_index t (Z.of_nat idx - 1));
  segments ←
    (if negb present then
       let insert_idx := if Nat.eqb idx 0 then 0 else idx - 1 in
       cur ← py_index t (Z.of_nat idx);
       Ok (py_insert insert_idx (context_segment f cur before) segments)
     else Ok segments);
  present ← any_start_eq segments (py_index t (Z.of_nat idx + 1));
  if negb present then
    nxt ← py_index t (Z.of_nat idx + 1);
    Ok (py_insert (idx + 1) (context_segment f nxt after) segments)
  else Ok segments.

(** ** Python string primitives used by [search] *)

Definition is_space (c : ascii) : bool :=
  let n := nat_of_ascii c in
  ((9 <=? n) && (n <=? 13) || (28 <=? n) && (n <=? 32))%nat.

Definition lower_ascii (c : ascii) : ascii :=
  let n := nat_of_ascii c in
  if ((65 <=? n) && (n <=? 90))%nat then ascii_of_nat (n + 32) else c.

(** [s.lower()] *)
Fixpoint lower (s : string) : string :=
  match s with
  | EmptyString => EmptyString
  | String c r => String (lower_ascii c) (lower r)
  end.

Fixpoint lstrip (s : string) : string :=
  match s with
  | EmptyString => EmptyString
  | String c r => if is_space c then lstrip r else s
  end.

Fixpoint rstrip (s : string) : string :=
  match s with
  | EmptyString => EmptyString
  | String c r =>
      match rstrip r with
      | EmptyString => if is_space c then EmptyString else String c EmptyString
      | r' => String c r'
      end
  end.

(** [s.strip()] *)
Definition strip (s : string) : string := rstrip (lstrip s).

(** [s.split(" ")]: splits at every single space, keeping empty pieces. *)
Fixpoint split_space (s : string) : list string :=
  match s with
  | EmptyString => [EmptyString]
  | String c r =>
      if Ascii.eqb c " " then EmptyString :: split_space r
      else match split_space r with
           | [] => [String c EmptyString]
           | h :: t => String c h :: t
           end
  end.

(** [" ".join(l)] *)
Fixpoint join_space (l : list string) : string :=
  match l with
  | [] => EmptyString
  | [x] => x
  | x :: r => x +:+ " " +:+ join_space r
  end.

(** ** The random source

    [random.shuffle] is the Fisher-Yates shuffle of the Python library: for
    [i] from [len - 1] down to [1] it draws [j] below [i + 1] and swaps
    [x[i]] and [x[j]].  The generator is a tape of raw draws consumed from
    the front; an exhausted tape keeps answering [0]. *)

Definition rng : Type := list nat.

Definition randbelow (n : nat) (g : rng) : nat * rng :=
  match g with
  | [] => (0, [])
  | d :: g' => (d mod n, g')
  end.

Definition swap {A : Type} (i j : nat) (x : list A) : list A :=
  match x !! i, x !! j with
  | Some a, Some b => <[i := b]> (<[j := a]> x)
  | _, _ => x
  end.

(** The iterations [i, i - 1, ..., 1] of the loop of [random.shuffle]. *)
Fixpoint shuffle_from {A : Type} (i : nat) (x : list A) (g : rng)
  : list A * rng :=
  match i with
  | O => (x, g)
  | S i' =>
      let '(j, g) := randbelow (i + 1) g in
      shuffle_from i' (swap i j x) g
  end.

Definition shuffle {A : Type} (x : list A) (g : rng) : list A * rng :=
  shuffle_from (length x - 1) x g.

(** ** The state [search] runs in

    The random source, and the lines [search] has printed so far.  (What the
    loader prints is not part of the model.) *)
Record world : Type := World {
  random : rng;
  stdout : list string
}.

(** [print(a, b, ...)] of one line, the arguments joined by spaces. *)
Definition print (msg : string) (w : world) : world :=
  World (random w) (stdout w ++ [msg]).

(** [random.shuffle(x)] *)
Definition random_shuffle {A : Type} (x : list A) (w : world)
  : list A * world :=
  let '(x, g) := shuffle x (random w) in (x, World g (stdout w)).

(** ** search (videogrep.py, lines 223-355) *)

(** How the body of the loop over the files ends: it falls through to the
    next file with the segments gathered for this one, it leaves [search]
    through [return []], or an exception escapes. *)
Inductive flow (A : Type) : Type :=
| Next (a : A)
| Return_ (v : list segment)
| Throw (e : exn).
Arguments Next {A} a.
Arguments Return_ {A} v.
Arguments Throw {A} e.

(** A [for] loop whose body may raise. *)
Fixpoint for_each {A S : Type} (body : S -> A -> result S) (l : list A) (s : S)
  : result S :=
  match l with
  | [] => Ok s
  | x :: r => s' ← body s x; for_each body r s'
  end.

(** [words = []; for line in transcript: words += line["words"]] *)
Fixpoint collect_words (t : transcript) : result (list word) :=
  match t with
  | [] => Ok []
  | l :: r =>
      match l_words l with
      | None => Raise KeyError
      | Some ws => rest ← collect_words r; Ok (ws ++ rest)
      end
  end.

(** The [zip] of the suffixes [words[0:]], ..., [words[k-1:]] (line 307):
    the windows of [k] consecutive words; with [k = 0] the call is [zip()],
    which yields nothing. *)
Fixpoint windows_from (k : nat) (ws : list word) : list (list word) :=
  match ws with
  | [] => []
  | _ :: r =>
      if (k <=? length ws)%nat then take k ws :: windows_from k r else []
  end.

Definition windows (k : nat) (ws : list word) : list (list word) :=
  match k with
  | O => []
  | S _ => windows_from k ws
  end.

(** [[w for w in words if w["word"].lower() == q.lower()]] *)
Definition mash_matches (words : list word) (q : string) : list word :=
  List.filter (fun w => String.eqb (lower (w_word w)) (lower q)) words.

Section Search.

(** [parse_transcript videoname prefer]: the transcript the loader finds
    and parses for a media path, [None] when there is no subtitle file.
    The loader reads the file system and calls the subtitle parsers. *)
Variable parse_transcript : string -> option string -> option transcript.

(** [re.search pattern text] of the Python library, as a truth value;
    [Raise ReError] when the pattern does not compile. *)
Variable re_search : string -> string -> result bool.

Section File.

Variables (query word_content : list string) (context_aware : bool).
Variables (f : string) (t : transcript).

(** The body shared by the two inner loops of sentence mode. *)
Definition sentence_hit (idx : nat) (l : line)
    (segments : list segment) (_query : string) : result (list segment) :=
  hit ← re_search (strip (lower _query)) (l_content l);
  if hit : bool then
    let segments :=
      segments ++ [plain_segment f (l_start l) (l_end l) (l_content l)] in
    if context_aware then content_aware_segments segments t f idx
    else Ok segments
  else Ok segments.

(** [for idx, line in enumerate(transcript)], from index [idx] on. *)
Fixpoint sentence_lines (lines : list line) (idx : nat)
    (segments : list segment) : result (list segment) :=
  match lines with
  | [] => Ok segments
  | l :: r =>
      segments ← for_each (sentence_hit idx l) query segments;
      segments ← for_each (sentence_hit idx l) word_content segments;
      sentence_lines r (S idx) segments
  end.

Definition search_sentence : result (list segment) :=
  sentence_lines t 0 [].

(** [all(re.search(q, w["word"]) for q, w in zip(queries, fragment))]:
    a generator, so the scan stops at the first miss. *)
Fixpoint all_match (queries : list string) (fragment : list word)
  : result bool :=
  match queries, fragment with
  | q :: qs, w :: ws =>
      hit ← re_search q (w_word w);
      if hit : bool then all_match qs ws else Ok false
  | _, _ => Ok true
  end.

Definition fragment_hit (queries : list string)
    (segments : list segment) (fragment : list word)
  : result (list segment) :=
  found ← all_match queries fragment;
  if found : bool then
    let phrase := join_space (map w_word fragment) in
    first ← py_index fragment 0;
    last_ ← py_index fragment (-1);
    Ok (segments ++ [plain_segment f (w_start first) (w_end last_) phrase])
  else Ok segments.

Definition fragment_query (words : list word)
    (segments : list segment) (_query : string) : result (list segment) :=
  let queries :=
    map strip
      (List.filter (fun q => negb (String.eqb (strip q) EmptyString))
         (split_space _query)) in
  for_each (fragment_hit queries) (windows (length queries) words) segments.

(** The branch [search_type == "fragment"]; [None] stands for the
    [continue] taken when the first line has no ["words"]. *)
Definition search_fragment : result (option (list segment)) :=
  first ← py_index t 0;
  match l_words first with
  | None => Ok None
  | Some _ =>
      words ← collect_words t;
      segments ← for_each (fragment_query words) query [];
      Ok (Some segments)
  end.

(** The loop [for q in queries] of mash mode. *)
Fixpoint mash_terms (words : list word) (queries : list string)
    (segments : list segment) (w : world) : flow (list segment) * world :=
  match queries with
  | [] => (Next segments, w)
  | q :: r =>
      let matches := mash_matches words q in
      if (length matches =? 0)%nat then
        (Return_ [], print ("Could not find " +:+ q +:+ " in transcript") w)
      else
        let '(matches, w) := random_shuffle matches w in
        match py_index matches 0 with
        | Raise e => (Throw e, w)
        | Ok word =>
            mash_terms words r
              (segments ++
                 [plain_segment f (w_start word) (w_end word) (w_word word)])
              w
        end
  end.

(** The loop [for _query in query] of mash mode. *)
Fixpoint mash_queries (words : list word) (qs : list string)
    (segments : list segment) (w : world) : flow (list segment) * world :=
  match qs with
  | [] => (Next segments, w)
  | _query :: r =>
      match mash_terms words (split_space _query) segments w with
      | (Next segments, w) => mash_queries words r segments w
      | stop => stop
      end
  end.

(** The branch [search_type == "mash"]; [None] stands for the
    [continue] taken when the first line has no ["words"]. *)
Definition search_mash (w : world)
  : flow (option (list segment)) * world :=
  match py_index t 0 with
  | Raise e => (Throw e, w)
  | Ok first =>
      match l_words first with
      | None => (Next None, w)
      | Some _ =>
          match collect_words t with
          | Raise e => (Throw e, w)
          | Ok words =>
              match mash_queries words query [] w with
              | (Next segments, w) => (Next (Some segments), w)
              | (Return_ v, w) => (Return_ v, w)
              | (Throw e, w) => (Throw e, w)
              end
          end
      end
  end.

End File.

(** The line printed before the [continue] of lines 297 and 325. *)
Definition no_word_timestamps (f : string) : string :=
  "Could not find word-level timestamps for " +:+ f.

Section Files.

Variables (query : list string) (search_type : string).
Variable prefer : option string.
Variables (word_content : list string) (context_aware : bool).

(** The end of the loop body: [segments] is sorted and appended; on
    [continue] ([None]) the line is printed and nothing is appended. *)
Definition finish_file (f : string) (r : option (list segment)) (w : world)
  : flow (list segment) * world :=
  match r with
  | Some segments => (Next (sorted_by_start segments), w)
  | None => (Next [], print (no_word_timestamps f) w)
  end.

(** The body of [for file in files]: the segments this file adds to
    [all_segments] (none on a [continue]). *)
Definition search_file (f : string) (w : world)
  : flow (list segment) * world :=
  match parse_transcript f prefer with
  | None => (Next [], w)
  | Some t =>
      if String.eqb search_type "sentence" then
        match search_sentence query word_content context_aware f t with
        | Ok segments => (Next (sorted_by_start segments), w)
        | Raise e => (Throw e, w)
        end
      else if String.eqb search_type "fragment" then
        match search_fragment query f t with
        | Ok r => finish_file f r w
        | Raise e => (Throw e, w)
        end
      else if String.eqb search_type "mash" then
        match search_mash query f t w with
        | (Next r, w) => finish_file f r w
        | (Return_ v, w) => (Return_ v, w)
        | (Throw e, w) => (Throw e, w)
        end
      else (Next (sorted_by_start []), w)
  end.

Fixpoint search_files (files : list string) (all_segments : list segment)
    (w : world) : flow (list segment) * world :=
  match files with
  | [] => (Next all_segments, w)
  | f :: r =>
      match search_file f w with
      | (Next segments, w) => search_files r (all_segments ++ segments) w
      | stop => stop
      end
  end.

(** [search]: the value returned or the exception raised, and the state
    afterwards. *)
Definition search (files : list string) (w : world)
  : result (list segment) * world :=
  match search_files files [] w with
  | (Next all_segments, w) => (Ok all_segments, w)
  | (Return_ v, w) => (Ok v, w)
  | (Throw e, w) => (Raise e, w)
  end.

End Files.

End Search.

(** * Properties *)

(** ** Boolean comparisons of [Q] *)

Lemma Qle_bool_true (a b : Q) : Qle_bool a b = true <-> (a <= b)%Q.
Proof. apply Qle_bool_iff. Qed.

Lemma Qle_bool_false (a b : Q) : Qle_bool a b = false <-> (b < a)%Q.
Proof.
  split; intros H.
  - apply Qnot_le_lt. intros Hle. apply Qle_bool_iff in Hle. congruence.
  - destruct (Qle_bool a b) eqn:E; [|done].
    apply Qle_bool_iff in E. lra.
Qed.

(** ** The two merge loops as recursions on the input

    [out] only ever changes at its end, so each loop is a recursion that
    carries the running segment [out[-1]] and emits the closed ones. *)

Definition linkedb (prev seg : segment) : bool :=
  String.eqb (file seg) (file prev) && Qle_bool (start seg) (end_ prev).

Fixpoint sync_run (cur : segment) (l : list segment) : list segment :=
  match l with
  | [] => [cur]
  | s :: r =>
      if linkedb cur s then sync_run (set_end (end_ s) cur) r
      else cur :: sync_run s r
  end.

Fixpoint overlap_run (cur : segment) (l : list segment) : list segment :=
  match l with
  | [] => [cur]
  | s :: r =>
      if Qle_bool (start s) (end_ cur) then overlap_run (set_end (end_ s) cur) r
      else cur :: overlap_run s r
  end.

Lemma sync_step_linkedb (out : out_list) (s : segment) :
  sync_step out s =
    if linkedb out.2 s then (out.1, set_end (end_ s) out.2)
    else (out.1 ++ [out.2], s).
Proof.
  unfold sync_step, linkedb.
  destruct (String.eqb (file s) (file out.2)); simpl; [|done].
  by destruct (Qle_bool (start s) (end_ out.2)).
Qed.

Lemma foldl_sync_step (l : list segment) (init : list segment) (cur : segment) :
  out_to_list (foldl sync_step (init, cur) l) = init ++ sync_run cur l.
Proof.
  revert init cur. induction l as [|s r IH]; intros init cur; [done|].
  cbn [foldl sync_run]. rewrite sync_step_linkedb. cbn [fst snd].
  destruct (linkedb cur s).
  - apply IH.
  - rewrite IH, <- app_assoc. done.
Qed.

Lemma foldl_overlap_step (l : list segment) (init : list segment) (cur : segment) :
  out_to_list (foldl overlap_step (init, cur) l) = init ++ overlap_run cur l.
Proof.
  revert init cur. induction l as [|s r IH]; intros init cur; [done|].
  cbn [foldl overlap_run]. unfold overlap_step at 2. cbn [fst snd].
  destruct (Qle_bool (start s) (end_ cur)).
  - apply IH.
  - rewrite IH, <- app_assoc. done.
Qed.

Lemma file_aware_merge_cons (s0 : segment) (rest : list segment) :
  file_aware_merge (s0 :: rest) = sync_run s0 rest.
Proof. unfold file_aware_merge. by rewrite foldl_sync_step. Qed.

Lemma remove_overlaps_sorted (segments : list segment) :
  remove_overlaps segments =
    match sorted_by_start segments with
    | [] => []
    | s0 :: rest => overlap_run s0 rest
    end.
Proof.
  unfold remove_overlaps. destruct (sorted_by_start segments); [done|].
  by rewrite foldl_overlap_step.
Qed.

(** ** pad_and_sync: clamping *)

Definition nonneg (s : segment) : Prop := (0 <= start s)%Q /\ (0 <= end_ s)%Q.

Definition nonnegb (s : segment) : bool :=
  Qle_bool 0 (start s) && Qle_bool 0 (end_ s).

Lemma nonnegb_nonneg (s : segment) : nonnegb s = true <-> nonneg s.
Proof.
  unfold nonnegb, nonneg.
  rewrite andb_true_iff, !Qle_bool_true. done.
Qed.

Lemma pad_one_nonneg (padding resync : Q) (s : segment) :
  nonneg (pad_one padding resync s).
Proof.
  unfold pad_one.
  set (s1 := if negb (Qeq_bool padding 0) then _ else s).
  set (s2 := if negb (Qeq_bool resync 0) then _ else s1).
  clearbody s2. clear s1.
  destruct (Qle_bool 0 (start s2)) eqn:Es; cbn [negb].
  - apply Qle_bool_true in Es.
    destruct (Qle_bool 0 (end_ s2)) eqn:Ee; cbn [negb].
    + apply Qle_bool_true in Ee. done.
    + split; cbn; [done | lra].
  - destruct (Qle_bool 0 (end_ (set_start 0 s2))) eqn:Ee; cbn [negb].
    + apply Qle_bool_true in Ee. split; cbn in *; [lra | done].
    + split; cbn; lra.
Qed.

Lemma sync_run_nonneg (l : list segment) (cur : segment) :
  nonneg cur -> Forall nonneg l -> Forall nonneg (sync_run cur l).
Proof.
  revert cur. induction l as [|s r IH]; intros cur Hcur Hl; cbn [sync_run].
  - by constructor.
  - apply Forall_cons in Hl as [Hs Hr].
    destruct (linkedb cur s).
    + apply IH; [|done]. destruct Hcur, Hs. by split.
    + constructor; [done|]. by apply IH.
Qed.

Lemma map_pad_one_nonneg (padding resync : Q) (l : list segment) :
  Forall nonneg (map (pad_one padding resync) l).
Proof. apply Forall_map, Forall_forall. intros x _. apply pad_one_nonneg. Qed.

Lemma file_aware_merge_nonneg (l : list segment) :
  Forall nonneg l -> Forall nonneg (file_aware_merge l).
Proof.
  destruct l as [|s0 rest]; [done|]. rewrite file_aware_merge_cons.
  intros [H0 Hr]%Forall_cons. by apply sync_run_nonneg.
Qed.

(** C8.  Whatever the padding and the resync shift, every segment that
    [pad_and_sync] returns has [start >= 0] and [end >= 0]. *)
Theorem pad_and_sync_nonneg (segments : list segment) (padding resync : Q) :
  Forall (fun s => (0 <= start s)%Q /\ (0 <= end_ s)%Q)
    (pad_and_sync segments padding resync).
Proof.
  unfold pad_and_sync.
  apply (file_aware_merge_nonneg (map (pad_one padding resync) segments)).
  apply map_pad_one_nonneg.
Qed.

(** ** pad_and_sync with [padding = 0] and [resync = 0] *)

(** No segment continues its predecessor: has its file, and starts at or
    before its end. *)
Fixpoint unlinkedb (l : list segment) : bool :=
  match l with
  | a :: (b :: _) as r => negb (linkedb a b) && unlinkedb r
  | _ => true
  end.

(** The lists [pad_and_sync] has nothing to do on. *)
Definition normalized (l : list segment) : bool :=
  forallb nonnegb l && unlinkedb l.

Lemma pad_one_0_nonneg (s : segment) : nonnegb s = true -> pad_one 0 0 s = s.
Proof.
  unfold nonnegb, pad_one. intros [Hs He]%andb_true_iff.
  change (Qeq_bool 0 0) with true. cbn [negb].
  rewrite Hs. cbn [negb]. by rewrite He.
Qed.

Lemma pad_one_0_fixed (s : segment) : pad_one 0 0 s = s -> nonnegb s = true.
Proof.
  intros H. apply nonnegb_nonneg. rewrite <- H. apply pad_one_nonneg.
Qed.

Lemma map_pad_one_0 (l : list segment) :
  forallb nonnegb l = true -> map (pad_one 0 0) l = l.
Proof.
  induction l as [|s r IH]; [done|]. cbn.
  intros [Hs Hr]%andb_true_iff. by rewrite pad_one_0_nonneg, IH.
Qed.

Lemma sync_run_unlinked (l : list segment) (cur : segment) :
  unlinkedb (cur :: l) = true -> sync_run cur l = cur :: l.
Proof.
  revert cur. induction l as [|s r IH]; intros cur; [done|].
  cbn [unlinkedb sync_run]. intros [Hc Hr]%andb_true_iff.
  apply negb_true_iff in Hc. rewrite Hc. by rewrite IH.
Qed.

Lemma sync_run_length (l : list segment) (cur : segment) :
  length (sync_run cur l) <= S (length l).
Proof.
  revert cur. induction l as [|s r IH]; intros cur; cbn [sync_run length]; [done|].
  destruct (linkedb cur s).
  - specialize (IH (set_end (end_ s) cur)). lia.
  - specialize (IH s). cbn [length]. lia.
Qed.

Lemma sync_run_full_length (l : list segment) (cur : segment) :
  length (sync_run cur l) = S (length l) -> unlinkedb (cur :: l) = true.
Proof.
  revert cur. induction l as [|s r IH]; intros cur; [done|].
  cbn [sync_run unlinkedb length].
  destruct (linkedb cur s); cbn [negb andb].
  - pose proof (sync_run_length r (set_end (end_ s) cur)). lia.
  - cbn [length]. intros H. apply IH. lia.
Qed.

Lemma file_aware_merge_fixed (l : list segment) :
  file_aware_merge l = l <-> unlinkedb l = true.
Proof.
  destruct l as [|s0 rest]; [done|].
  rewrite file_aware_merge_cons. split.
  - intros H. apply sync_run_full_length. by rewrite H.
  - apply sync_run_unlinked.
Qed.

Lemma file_aware_merge_length (l : list segment) :
  length (file_aware_merge l) <= length l.
Proof.
  destruct l as [|s0 rest]; [done|].
  rewrite file_aware_merge_cons. apply sync_run_length.
Qed.

Lemma file_aware_merge_same_length (l : list segment) :
  length (file_aware_merge l) = length l -> file_aware_merge l = l.
Proof.
  destruct l as [|s0 rest]; [done|].
  rewrite file_aware_merge_cons. intros H.
  by apply sync_run_unlinked, sync_run_full_length.
Qed.

Lemma map_fixed_forallb (l : list segment) :
  map (pad_one 0 0) l = l -> forallb nonnegb l = true.
Proof.
  induction l as [|s r IH]; [done|]. cbn [map forallb].
  intros H. injection H as Hs Hr.
  by rewrite (pad_one_0_fixed s Hs), IH.
Qed.

(** C2, as the code has it.  With [padding = 0] and [resync = 0],
    [pad_and_sync] returns a list equal to its input when the input is
    normalised already: every segment has [start >= 0] and [end >= 0], and
    no segment has the file of its predecessor while starting at or before
    the predecessor's end. *)
Theorem pad_and_sync_0_0_identity (segments : list segment) :
  normalized segments = true -> pad_and_sync segments 0 0 = segments.
Proof.
  unfold pad_and_sync, normalized. intros [Hn Hu]%andb_true_iff.
  rewrite map_pad_one_0 by done. by apply file_aware_merge_fixed.
Qed.

(** On the values, these are the only lists returned as they are: on any
    other list a time is clamped or two segments are merged. *)
Lemma pad_and_sync_0_0_fixed (segments : list segment) :
  pad_and_sync segments 0 0 = segments <-> normalized segments = true.
Proof.
  unfold pad_and_sync, normalized. rewrite andb_true_iff. split.
  - intros H.
    assert (Hlen : length (file_aware_merge (map (pad_one 0 0) segments))
                   = length (map (pad_one 0 0) segments)).
    { rewrite H at 1. by rewrite length_map. }
    apply file_aware_merge_same_length in Hlen.
    rewrite Hlen in H. split.
    + by apply map_fixed_forallb.
    + apply file_aware_merge_fixed. by rewrite <- H at 1 2.
  - intros [Hn Hu]. rewrite map_pad_one_0 by done.
    by apply file_aware_merge_fixed.
Qed.

Definition overlapping_pair : list segment :=
  [plain_segment "a.mp4" 0 3 "hello"; plain_segment "a.mp4" 2 5 "world"].

Lemma pad_and_sync_0_0_identity_example :
  pad_and_sync [plain_segment "a.mp4" 0 2 "hello";
                plain_segment "a.mp4" 3 5 "world";
                plain_segment "b.mp4" 1 4 "again"] 0 0
  = [plain_segment "a.mp4" 0 2 "hello";
     plain_segment "a.mp4" 3 5 "world";
     plain_segment "b.mp4" 1 4 "again"].
Proof. apply pad_and_sync_0_0_identity. reflexivity. Defined.

(** C2 as stated fails: two overlapping segments of one file are merged,
    although the padding and the shift are 0. *)
Lemma pad_and_sync_0_0_not_identity :
  pad_and_sync overlapping_pair 0 0 = [plain_segment "a.mp4" 0 5 "hello"]
  /\ pad_and_sync overlapping_pair 0 0 <> overlapping_pair.
Proof. split; [reflexivity | discriminate]. Qed.

(** A negative start is clamped although the padding and the shift are 0. *)
Lemma pad_and_sync_0_0_clamps :
  pad_and_sync [plain_segment "a.mp4" (-1) 3 "hello"] 0 0
  = [plain_segment "a.mp4" 0 3 "hello"].
Proof. reflexivity. Qed.

Lemma set_end_same (s : segment) : set_end (end_ s) s = s.
Proof. by destruct s. Qed.

Lemma set_end_set_end (a b : Q) (s : segment) :
  set_end a (set_end b s) = set_end a s.
Proof. done. Qed.

Lemma linkedb_set_end_r (e : Q) (a b : segment) :
  linkedb a (set_end e b) = linkedb a b.
Proof. done. Qed.

(** The first segment returned is the running one, up to its end. *)
Lemma sync_run_head (l : list segment) (cur : segment) :
  exists e rest, sync_run cur l = set_end e cur :: rest.
Proof.
  revert cur. induction l as [|s r IH]; intros cur; cbn [sync_run].
  - exists (end_ cur), []. by rewrite set_end_same.
  - destruct (linkedb cur s).
    + destruct (IH (set_end (end_ s) cur)) as (e & rest & ->).
      by exists e, rest.
    + exists (end_ cur), (sync_run s r). by rewrite set_end_same.
Qed.

Lemma sync_run_separated (l : list segment) (cur : segment) :
  unlinkedb (sync_run cur l) = true.
Proof.
  revert cur. induction l as [|s r IH]; intros cur; cbn [sync_run]; [done|].
  destruct (linkedb cur s) eqn:E; [apply IH|].
  specialize (IH s).
  destruct (sync_run_head r s) as (e & rest & Hrun).
  rewrite Hrun in *.
  change (negb (linkedb cur (set_end e s))
          && unlinkedb (set_end e s :: rest) = true).
  by rewrite linkedb_set_end_r, E, IH.
Qed.

(** X1.  A second pass of [pad_and_sync], with no padding and no shift,
    changes nothing: with [padding = 0] and [resync = 0] the function is
    idempotent. *)
Theorem pad_and_sync_idempotent (segments : list segment) (padding resync : Q) :
  pad_and_sync (pad_and_sync segments padding resync) 0 0
  = pad_and_sync segments padding resync.
Proof.
  apply pad_and_sync_0_0_fixed. unfold normalized.
  apply andb_true_iff. split.
  - apply forallb_forall. intros s Hs%list_elem_of_In. apply nonnegb_nonneg.
    revert s Hs. apply Forall_forall. unfold pad_and_sync.
    apply file_aware_merge_nonneg, map_pad_one_nonneg.
  - unfold pad_and_sync. destruct segments as [|s0 rest]; [done|].
    cbn [map]. rewrite file_aware_merge_cons. apply sync_run_separated.
Qed.

(** ** pad_and_sync: the file-aware merge

    The input of the merge is cut into groups of consecutive segments; each
    group gives one segment of the output. *)

(** [seg] continues [prev]: same file, and it starts at or before the end
    of [prev]. *)
Definition linked (prev seg : segment) : Prop :=
  file seg = file prev /\ (start seg <= end_ prev)%Q.

(** A group: its first segment and the segments merged into it, in order. *)
Definition group : Type := (segment * list segment)%type.

Definition members (g : group) : list segment := g.1 :: g.2.

(** The last segment merged into the group. *)
Definition final (g : group) : segment := default g.1 (last g.2).

(** The output segment of a group: its first segment, with the end of the
    last one merged. *)
Definition collapse (g : group) : segment := set_end (end_ (final g)) g.1.

(** Every member of the group continues the member before it. *)
Fixpoint chain (prev : segment) (l : list segment) : Prop :=
  match l with
  | [] => True
  | s :: r => linked prev s /\ chain s r
  end.

(** The first segment of a group does not continue the group before. *)
Fixpoint separated (gs : list group) : Prop :=
  match gs with
  | g1 :: ((g2 :: _) as r) => ~ linked (final g1) g2.1 /\ separated r
  | _ => True
  end.

Lemma linkedb_linked (a b : segment) : linkedb a b = true <-> linked a b.
Proof.
  unfold linkedb, linked.
  rewrite andb_true_iff, String.eqb_eq, Qle_bool_true. done.
Qed.

Lemma final_snoc (h : segment) (l : list segment) (s : segment) :
  final (h, l ++ [s]) = s.
Proof. unfold final. cbn [fst snd]. by rewrite last_snoc. Qed.

Lemma final_cons (h x : segment) (r : list segment) :
  final (h, x :: r) = final (x, r).
Proof.
  unfold final. cbn [fst snd].
  destruct r as [|y r']; [done|]. rewrite last_cons_cons.
  destruct (last (y :: r')) eqn:E; [done|].
  by apply last_None in E.
Qed.

Lemma chain_snoc (h : segment) (l : list segment) (s : segment) :
  chain h l -> linked (final (h, l)) s -> chain h (l ++ [s]).
Proof.
  revert h. induction l as [|x r IH]; intros h; cbn [chain app].
  - intros _ H. done.
  - intros [Hx Hr] H. split; [done|]. apply IH; [done|].
    by rewrite final_cons in H.
Qed.

Lemma chain_same_file (h : segment) (l : list segment) :
  chain h l -> Forall (fun s => file s = file h) l.
Proof.
  revert h. induction l as [|x r IH]; intros h; cbn [chain]; [by constructor|].
  intros [[Hf _] Hr]. constructor; [done|].
  eapply Forall_impl; [by apply IH|]. cbn. intros s Hs. congruence.
Qed.

Lemma chain_final_file (h : segment) (l : list segment) :
  chain h l -> file (final (h, l)) = file h.
Proof.
  intros Hc. apply chain_same_file in Hc.
  unfold final. cbn [fst snd].
  destruct (last l) as [x|] eqn:E; [|done]. cbn.
  apply last_Some_elem_of in E. rewrite Forall_forall in Hc. by apply Hc.
Qed.

(** The running segment of the loop is the collapse of the open group. *)
Lemma linkedb_collapse (h : segment) (l : list segment) (s : segment) :
  chain h l -> linkedb (collapse (h, l)) s = linkedb (final (h, l)) s.
Proof.
  intros Hc. unfold linkedb, collapse. cbn [fst snd set_end file end_].
  by rewrite (chain_final_file h l Hc).
Qed.

Lemma collapse_snoc (h : segment) (l : list segment) (s : segment) :
  collapse (h, l ++ [s]) = set_end (end_ s) (collapse (h, l)).
Proof. unfold collapse. by rewrite final_snoc. Qed.

Lemma sync_run_groups (l : list segment) (h : segment) (open : list segment) :
  chain h open ->
  exists (more : list segment) (gs : list group),
    sync_run (collapse (h, open)) l = map collapse ((h, open ++ more) :: gs)
    /\ more ++ concat (map members gs) = l
    /\ Forall (fun g => chain g.1 g.2) ((h, open ++ more) :: gs)
    /\ separated ((h, open ++ more) :: gs).
Proof.
  revert h open. induction l as [|s r IH]; intros h open Hc; cbn [sync_run].
  - exists [], []. rewrite app_nil_r. split_and!; try done.
    by constructor.
  - rewrite (linkedb_collapse h open s Hc).
    destruct (linkedb (final (h, open)) s) eqn:E.
    + apply linkedb_linked in E.
      destruct (IH h (open ++ [s])) as (more & gs & Hrun & Hcat & Hch & Hsep).
      { by apply chain_snoc. }
      exists (s :: more), gs.
      rewrite <- collapse_snoc, Hrun.
      replace (open ++ s :: more) with ((open ++ [s]) ++ more)
        by (by rewrite <- app_assoc).
      cbn [app]. by rewrite Hcat.
    + destruct (IH s []) as (more & gs & Hrun & Hcat & Hch & Hsep); [done|].
      exists [], ((s, more) :: gs). rewrite app_nil_r.
      assert (Hs : collapse (s, []) = s) by apply set_end_same.
      rewrite Hs in Hrun. cbn [app] in *. rewrite Hrun.
      split_and!.
      * done.
      * cbn [map concat members fst snd app]. by rewrite Hcat.
      * by constructor.
      * cbn [separated fst]. split; [|done].
        intros Hl%linkedb_linked. congruence.
Qed.

(** C6.  The merge of [pad_and_sync] cuts its input (the padded, shifted and
    clamped segments, in input order) into groups of consecutive segments, one
    group per output segment: the output segment is the first segment of
    its group with the end of the last one.  A segment joins the group of its
    predecessor only when it has the predecessor's file and starts at or
    before the predecessor's (that is the running segment's) end; a change of
    file, or a later start, opens a new group.  So all the segments merged
    into one output segment have that segment's file. *)
Theorem pad_and_sync_file_aware (segments : list segment) (padding resync : Q) :
  exists gs : list group,
    concat (map members gs) = map (pad_one padding resync) segments
    /\ pad_and_sync segments padding resync = map collapse gs
    /\ Forall (fun g => chain g.1 g.2) gs
    /\ separated gs
    /\ Forall (fun g => Forall (fun s => file s = file (collapse g)) (members g))
         gs.
Proof.
  unfold pad_and_sync.
  destruct segments as [|s0 rest].
  { exists []. split_and!; by constructor. }
  cbn [map]. rewrite file_aware_merge_cons.
  set (h := pad_one padding resync s0).
  set (l := map (pad_one padding resync) rest).
  destruct (sync_run_groups l h []) as (more & gs & Hrun & Hcat & Hch & Hsep);
    [done|].
  assert (Hh : collapse (h, []) = h) by apply set_end_same.
  rewrite Hh in Hrun. cbn [app] in *.
  exists ((h, more) :: gs). split_and!; try done.
  - cbn [map concat members fst snd app]. by rewrite Hcat.
  - eapply Forall_impl; [exact Hch|]. intros [g1 g2] Hg. cbn [fst snd] in Hg.
    unfold members, collapse. cbn [fst snd file set_end].
    constructor; [done|]. by apply chain_same_file.
Qed.

(** ** remove_overlaps: the time covered *)

(** The time [t] lies in the range of some segment of [l]. *)
Definition coversb (t : Q) (l : list segment) : bool :=
  existsb (fun s => Qle_bool (start s) t && Qle_bool t (end_ s)) l.

Definition nested_pair : list segment :=
  [plain_segment "a.mp4" 0 10 "long"; plain_segment "a.mp4" 2 5 "short"].

(** C1 fails on the code.  A merge sets the end of the running segment to
    the end of the merged one (line 135) and not to the larger of the two
    ends: a segment nested in the running one shortens it, and the time
    between the two ends is covered by the input and not by the output. *)
Theorem remove_overlaps_nested_loses_time :
  remove_overlaps nested_pair = [plain_segment "a.mp4" 0 5 "long"]
  /\ coversb 7 nested_pair = true
  /\ coversb 7 (remove_overlaps nested_pair) = false.
Proof. split_and!; reflexivity. Qed.

(** ** Concrete collaborators for the examples *)

(** [re.search] on a pattern without metacharacters: substring search. *)
Fixpoint prefixb (p s : string) : bool :=
  match p, s with
  | EmptyString, _ => true
  | String a p', String b s' => Ascii.eqb a b && prefixb p' s'
  | String _ _, EmptyString => false
  end.

Fixpoint containsb (p s : string) : bool :=
  prefixb p s ||
  match s with
  | EmptyString => false
  | String _ s' => containsb p s'
  end.

Definition literal_search (p s : string) : result bool := Ok (containsb p s).

(** A loader that knows one media file. *)
Definition one_file (name : string) (t : transcript)
  : string -> option string -> option transcript :=
  fun f _ => if String.eqb f name then Some t else None.

Definition line0 : line := Line 0 2 "hello world" None.
Definition line1 : line := Line 2 4 "goodbye now" None.
Definition line2 : line := Line 4 6 "see you" None.

Definition three_lines : transcript := [line0; line1; line2].

Definition hit (l : line) : segment :=
  plain_segment "a.mp4" (l_start l) (l_end l) (l_content l).

(** ** content_aware_segments at the ends of the transcript *)

Lemma py_index_past_end {A : Type} (l : list A) (i : Z) :
  (Z.of_nat (length l) <= i)%Z -> py_index l i = Raise IndexError.
Proof.
  intros H. unfold py_index.
  destruct (i <? 0)%Z eqn:E; [lia|].
  destruct (0 <=? i)%Z; cbn [andb]; [|done].
  destruct (i <? Z.of_nat (length l))%Z eqn:E'; [lia|done].
Qed.

Lemma py_index_raises {A : Type} (l : list A) (i : Z) (e : exn) :
  py_index l i = Raise e -> e = IndexError.
Proof.
  unfold py_index.
  destruct (_ && _)%bool; [|congruence].
  destruct (l !! _); congruence.
Qed.

(** A hit on the last line always ends in [IndexError]: the subscript
    [transcript[idx + 1]] of line 209 is not guarded. *)
Lemma content_aware_segments_last_line
    (segments : list segment) (t : transcript) (f : string) (idx : nat) :
  segments <> [] -> length t <= idx + 1 ->
  content_aware_segments segments t f idx = Raise IndexError.
Proof.
  intros Hne Hlast. unfold content_aware_segments.
  assert (Hnext : py_index t (Z.of_nat idx + 1) = Raise IndexError)
    by (apply py_index_past_end; lia).
  destruct segments as [|s0 rest]; [done|]. cbn [any_start_eq].
  destruct (py_index t (Z.of_nat idx - 1)) as [prev|e] eqn:Ep; cbn.
  2: { by rewrite (py_index_raises _ _ _ Ep). }
  destruct (negb _); cbn.
  - destruct (py_index t (Z.of_nat idx)) as [cur|e] eqn:Ec; cbn.
    2: { by rewrite (py_index_raises _ _ _ Ec). }
    unfold py_insert.
    destruct (take _ (s0 :: rest) ++ _ :: drop _ (s0 :: rest)) eqn:E.
    { by destruct (take _ _). }
    cbn. by rewrite Hnext.
  - by rewrite Hnext.
Qed.

(** C3 fails on the code.  A sentence-mode hit on the last line of the
    transcript, with [context_aware] set, raises [IndexError]: the neighbour
    after it is read without a guard. *)
Theorem search_context_aware_last_line_raises :
  search (one_file "a.mp4" three_lines) literal_search
    ["see"] "sentence" None [] true ["a.mp4"] (World [] [])
  = (Raise IndexError, World [] []).
Proof. reflexivity. Qed.

(** On the first line the subscript [transcript[idx - 1]] is
    [transcript[-1]], the last line: nothing is skipped, and a segment tagged
    ["before"] is inserted. *)
Lemma search_context_aware_first_line :
  search (one_file "a.mp4" three_lines) literal_search
    ["hello"] "sentence" None [] true ["a.mp4"] (World [] [])
  = (Ok [context_segment "a.mp4" line0 before; hit line0;
         context_segment "a.mp4" line1 after], World [] []).
Proof. reflexivity. Qed.

(** ** content_aware_segments: what is inserted *)

(** C4 fails on the code for the insertion tagged ["before"]: the test of
    line 190 reads the line before the matched one, but the segment
    inserted (lines 201-203) is built from [transcript[idx]], the matched line
    itself.  The insertion tagged ["after"] is the line after it. *)
Theorem content_aware_segments_before_is_matched_line :
  content_aware_segments [hit line1] three_lines "a.mp4" 1
  = Ok [context_segment "a.mp4" line1 before; hit line1;
        context_segment "a.mp4" line2 after]
  /\ context_segment "a.mp4" line1 before <> context_segment "a.mp4" line0 before.
Proof. split; [reflexivity | discriminate]. Qed.

(** C5 fails on the code, by the same slip: the segment inserted as
    ["before"] starts where the hit, already in the list, starts. *)
Theorem search_context_aware_repeats_start :
  search (one_file "a.mp4" three_lines) literal_search
    ["goodbye"] "sentence" None [] true ["a.mp4"] (World [] [])
  = (Ok [context_segment "a.mp4" line1 before; hit line1;
         context_segment "a.mp4" line2 after], World [] [])
  /\ start (context_segment "a.mp4" line1 before) = start (hit line1)
  /\ file (context_segment "a.mp4" line1 before) = file (hit line1).
Proof. split_and!; reflexivity. Qed.

(** ** search: the random source and the printed lines *)

(** From the tape [g], whatever was printed before, the computation [m]
    gives [r], leaves the tape [g'] and prints the lines [o]. *)
Definition emits {X : Type} (m : world -> X * world)
    (g : rng) (r : X) (g' : rng) (o : list string) : Prop :=
  forall out, m (World g out) = (r, World g' (out ++ o)).

(** [m] does not read what was printed. *)
Definition steady {X : Type} (m : world -> X * world) : Prop :=
  forall g, exists r g' o, emits m g r g' o.

(** [m] does not touch the random source either: result and printed lines
    are the same from every tape, and the tape is left as it was. *)
Definition rng_free {X : Type} (m : world -> X * world) : Prop :=
  exists r o, forall g, emits m g r g o.

Lemma rng_free_steady {X : Type} (m : world -> X * world) :
  rng_free m -> steady m.
Proof. intros (r & o & H) g. exists r, g, o. apply H. Qed.

Lemma emits_pure {X : Type} (r : X) (g : rng) :
  emits (fun w => (r, w)) g r g [].
Proof. intros out. by rewrite app_nil_r. Qed.

Lemma emits_print {X : Type} (r : X) (msg : string) (g : rng) :
  emits (fun w => (r, print msg w)) g r g [msg].
Proof. done. Qed.

Lemma shuffle_from_length {A : Type} (i : nat) (x : list A) (g : rng) :
  length (shuffle_from i x g).1 = length x.
Proof.
  revert x g. induction i as [|i IH]; intros x g; [done|].
  cbn [shuffle_from]. destruct (randbelow (S i + 1) g) as [j g'].
  rewrite IH. unfold swap.
  destruct (x !! S i), (x !! j); by rewrite ?length_insert.
Qed.

Lemma shuffle_length {A : Type} (x : list A) (g : rng) :
  length (shuffle x g).1 = length x.
Proof. apply shuffle_from_length. Qed.

Lemma py_index_cons_0 {A : Type} (x : A) (r : list A) :
  py_index (x :: r) 0 = Ok x.
Proof.
  unfold py_index. cbn [length Z.ltb Z.compare].
  replace (0 <? Z.of_nat (S (length r)))%Z with true; [done|].
  symmetry. apply Z.ltb_lt. lia.
Qed.

Lemma py_index_0 {A : Type} (l : list A) :
  l <> [] -> exists x, py_index l 0 = Ok x.
Proof.
  destruct l as [|x r]; [done|]. intros _. exists x. apply py_index_cons_0.
Qed.

Section SearchProperties.

Variable parse_transcript : string -> option string -> option transcript.
Variable re_search : string -> string -> result bool.
Variables (query : list string) (search_type : string).
Variable prefer : option string.
Variables (word_content : list string) (context_aware : bool).

Local Abbreviation the_search_file :=
  (search_file parse_transcript re_search query search_type prefer
     word_content context_aware).
Local Abbreviation the_search_files :=
  (search_files parse_transcript re_search query search_type prefer
     word_content context_aware).
Local Abbreviation the_search :=
  (search parse_transcript re_search query search_type prefer
     word_content context_aware).

Lemma mash_terms_steady (f : string) (words : list word)
    (queries : list string) (segments : list segment) :
  steady (mash_terms f words queries segments).
Proof.
  revert segments. induction queries as [|q r IH]; intros segments g.
  - exists (Next segments), g, []. apply emits_pure.
  - cbn [mash_terms].
    destruct (length (mash_matches words q) =? 0)%nat.
    { eexists _, g, _. apply emits_print. }
    destruct (shuffle (mash_matches words q) g) as [matches g1] eqn:Es.
    destruct (py_index matches 0) as [wd|e] eqn:Ei.
    + destruct (IH (segments ++
          [plain_segment f (w_start wd) (w_end wd) (w_word wd)]) g1)
        as (r0 & g' & o & H).
      exists r0, g', o. intros out.
      unfold random_shuffle. cbn [random stdout]. rewrite Es, Ei. apply H.
    + exists (Throw e), g1, []. intros out.
      unfold random_shuffle. cbn [random stdout].
      by rewrite Es, Ei, app_nil_r.
Qed.

Lemma mash_queries_steady (f : string) (words : list word)
    (qs : list string) (segments : list segment) :
  steady (mash_queries f words qs segments).
Proof.
  revert segments. induction qs as [|q r IH]; intros segments g.
  - exists (Next segments), g, []. apply emits_pure.
  - cbn [mash_queries].
    destruct (mash_terms_steady f words (split_space q) segments g)
      as (r0 & g1 & o1 & H1).
    destruct r0 as [segs|v|e].
    + destruct (IH segs g1) as (r2 & g2 & o2 & H2).
      exists r2, g2, (o1 ++ o2). intros out.
      rewrite H1, H2. by rewrite app_assoc.
    + exists (Return_ v), g1, o1. intros out. by rewrite H1.
    + exists (Throw e), g1, o1. intros out. by rewrite H1.
Qed.

Lemma search_mash_steady (f : string) (t : transcript) :
  steady (search_mash query f t).
Proof.
  intros g. unfold search_mash.
  destruct (py_index t 0) as [first|e].
  2: { eexists _, g, _. apply emits_pure. }
  destruct (l_words first).
  2: { eexists _, g, _. apply emits_pure. }
  destruct (collect_words t) as [words|e].
  2: { eexists _, g, _. apply emits_pure. }
  destruct (mash_queries_steady f words query [] g) as (r0 & g1 & o1 & H1).
  destruct r0 as [segs|v|e].
  - exists (Next (Some segs)), g1, o1. intros out. by rewrite H1.
  - exists (Return_ v), g1, o1. intros out. by rewrite H1.
  - exists (Throw e), g1, o1. intros out. by rewrite H1.
Qed.

Lemma finish_file_rng_free (f : string) (r : option (list segment)) :
  rng_free (finish_file f r).
Proof.
  destruct r as [segs|]; eexists _, _; intros g.
  - apply emits_pure.
  - apply emits_print.
Qed.

Lemma search_file_steady (f : string) : steady (the_search_file f).
Proof.
  intros g. unfold search_file.
  destruct (parse_transcript f prefer) as [t|].
  2: { eexists _, g, _. apply emits_pure. }
  destruct (String.eqb search_type "sentence").
  { destruct (search_sentence _ _ _ _ _ _); eexists _, g, _; apply emits_pure. }
  destruct (String.eqb search_type "fragment").
  { destruct (search_fragment _ _ _ _) as [r|e].
    - apply rng_free_steady, finish_file_rng_free.
    - eexists _, g, _. apply emits_pure. }
  destruct (String.eqb search_type "mash").
  2: { eexists _, g, _. apply emits_pure. }
  destruct (search_mash_steady f t g) as (r0 & g1 & o1 & H1).
  destruct r0 as [r|v|e].
  - destruct (finish_file_rng_free f r) as (r2 & o2 & H2).
    exists r2, g1, (o1 ++ o2). intros out.
    rewrite H1, H2. by rewrite app_assoc.
  - exists (Return_ v), g1, o1. intros out. by rewrite H1.
  - exists (Throw e), g1, o1. intros out. by rewrite H1.
Qed.

Lemma search_files_steady (files : list string) (acc : list segment) :
  steady (the_search_files files acc).
Proof.
  revert acc. induction files as [|f r IH]; intros acc g.
  - exists (Next acc), g, []. apply emits_pure.
  - cbn [search_files].
    destruct (search_file_steady f g) as (r0 & g1 & o1 & H1).
    destruct r0 as [segs|v|e].
    + destruct (IH (acc ++ segs) g1) as (r2 & g2 & o2 & H2).
      exists r2, g2, (o1 ++ o2). intros out.
      rewrite H1, H2. by rewrite app_assoc.
    + exists (Return_ v), g1, o1. intros out. by rewrite H1.
    + exists (Throw e), g1, o1. intros out. by rewrite H1.
Qed.

(** What was printed before has no influence on the loop. *)
Lemma search_files_stdout (files : list string) (acc : list segment)
    (w1 w2 : world) :
  random w1 = random w2 ->
  (the_search_files files acc w1).1 = (the_search_files files acc w2).1
  /\ random (the_search_files files acc w1).2
     = random (the_search_files files acc w2).2.
Proof.
  destruct w1 as [g out1], w2 as [g2 out2]. cbn [random]. intros <-.
  destruct (search_files_steady files acc g) as (r & g' & o & H).
  by rewrite !H.
Qed.

Lemma search_files_app (pre post : list string) (acc : list segment)
    (w : world) :
  the_search_files (pre ++ post) acc w =
    match the_search_files pre acc w with
    | (Next acc', w') => the_search_files post acc' w'
    | stop => stop
    end.
Proof.
  revert acc w. induction pre as [|f r IH]; intros acc w.
  - cbn [app search_files]. by destruct (the_search_files post acc w).
  - cbn [app search_files].
    destruct (the_search_file f w) as [[segs|v|e] w']; [apply IH|done|done].
Qed.

Lemma search_result (files : list string) (w : world) :
  (the_search files w).1 =
    match (the_search_files files [] w).1 with
    | Next v | Return_ v => Ok v
    | Throw e => Raise e
    end.
Proof.
  unfold search.
  by destruct (the_search_files files [] w) as [[v|v|e] w'].
Qed.

Lemma search_world (files : list string) (w : world) :
  (the_search files w).2 = (the_search_files files [] w).2.
Proof.
  unfold search.
  by destruct (the_search_files files [] w) as [[v|v|e] w'].
Qed.

(** *** A file without word-level timing *)

Lemma search_file_no_words (f : string) (l0 : line) (rest : transcript)
    (w : world) :
  search_type = "fragment" \/ search_type = "mash" ->
  parse_transcript f prefer = Some (l0 :: rest) ->
  l_words l0 = None ->
  the_search_file f w = (Next [], print (no_word_timestamps f) w).
Proof.
  intros Hmode Hparse Hwords. unfold search_file.
  rewrite Hparse. destruct Hmode as [-> | ->]; cbn [String.eqb].
  - change (String.eqb "fragment" "sentence") with false.
    change (String.eqb "fragment" "fragment") with true. cbv iota.
    unfold search_fragment. rewrite py_index_cons_0. cbn [mbind result_bind].
    by rewrite Hwords.
  - change (String.eqb "mash" "sentence") with false.
    change (String.eqb "mash" "fragment") with false.
    change (String.eqb "mash" "mash") with true. cbv iota.
    unfold search_mash. rewrite py_index_cons_0. by rewrite Hwords.
Qed.

(** Where the guard of lines 296 and 324 works.  In fragment and in mash
    mode a file whose transcript has a first line without word-level timing
    is skipped: alone it gives no segment and no exception, and the
    diagnostic line is printed; in a list of files the call goes on with the
    other files, and returns (or raises) what it does without that file,
    with the random source left in the same state. *)
Theorem search_skips_file_without_words
    (f : string) (l0 : line) (rest : transcript) :
  search_type = "fragment" \/ search_type = "mash" ->
  parse_transcript f prefer = Some (l0 :: rest) ->
  l_words l0 = None ->
  (forall w, the_search [f] w = (Ok [], print (no_word_timestamps f) w))
  /\ (forall (pre post : list string) (w : world),
        (the_search (pre ++ f :: post) w).1 = (the_search (pre ++ post) w).1
        /\ random (the_search (pre ++ f :: post) w).2
           = random (the_search (pre ++ post) w).2).
Proof.
  intros Hmode Hparse Hwords.
  pose proof (fun w => search_file_no_words f l0 rest w Hmode Hparse Hwords)
    as Hf.
  split.
  - intros w. unfold search. cbn [search_files].
    by rewrite Hf.
  - intros pre post w.
    rewrite !search_result, !search_world, !search_files_app.
    destruct (the_search_files pre [] w) as [[acc|v|e] w']; [|done|done].
    cbn [search_files]. rewrite Hf, app_nil_r.
    destruct (search_files_stdout post acc
                (print (no_word_timestamps f) w') w') as [-> ->]; done.
Qed.

(** *** Mash mode: a term without a match *)

Lemma mash_terms_flow (f : string) (words : list word)
    (terms : list string) (segments : list segment) (w : world) :
  (exists segs, (mash_terms f words terms segments w).1 = Next segs)
  \/ (mash_terms f words terms segments w).1 = Return_ [].
Proof.
  revert segments w. induction terms as [|q r IH]; intros segments w.
  - left. by exists segments.
  - cbn [mash_terms].
    destruct (length (mash_matches words q) =? 0)%nat eqn:E; [by right|].
    apply Nat.eqb_neq in E.
    unfold random_shuffle.
    pose proof (shuffle_length (mash_matches words q) (random w)) as Hlen.
    destruct (shuffle (mash_matches words q) (random w)) as [matches g].
    cbn [fst] in Hlen.
    destruct (py_index_0 matches) as [wd ->].
    { intros ->. cbn [length] in Hlen. lia. }
    apply IH.
Qed.

Lemma mash_terms_missing (f : string) (words : list word)
    (terms : list string) (term : string) (segments : list segment)
    (w : world) :
  In term terms -> mash_matches words term = [] ->
  (mash_terms f words terms segments w).1 = Return_ [].
Proof.
  intros Hin Hnone. revert segments w.
  induction terms as [|q r IH]; intros segments w; [done|].
  cbn [mash_terms].
  destruct (length (mash_matches words q) =? 0)%nat eqn:E; [done|].
  apply Nat.eqb_neq in E.
  destruct Hin as [-> | Hin]; [by rewrite Hnone in E|].
  unfold random_shuffle.
  pose proof (shuffle_length (mash_matches words q) (random w)) as Hlen.
  destruct (shuffle (mash_matches words q) (random w)) as [matches g].
  cbn [fst] in Hlen.
  destruct (py_index_0 matches) as [wd ->].
  { intros ->. cbn [length] in Hlen. lia. }
  by apply IH.
Qed.

Lemma mash_queries_flow (f : string) (words : list word)
    (qs : list string) (segments : list segment) (w : world) :
  (exists segs, (mash_queries f words qs segments w).1 = Next segs)
  \/ (mash_queries f words qs segments w).1 = Return_ [].
Proof.
  revert segments w. induction qs as [|q r IH]; intros segments w.
  - left. by exists segments.
  - cbn [mash_queries].
    pose proof (mash_terms_flow f words (split_space q) segments w) as H.
    destruct (mash_terms f words (split_space q) segments w)
      as [[segs'|v|e] w']; cbn [fst] in H.
    + apply IH.
    + right. by destruct H as [[segs H] | H].
    + by destruct H as [[segs H] | H].
Qed.

Lemma mash_queries_missing (f : string) (words : list word)
    (qs : list string) (q term : string) (segments : list segment)
    (w : world) :
  In q qs -> In term (split_space q) -> mash_matches words term = [] ->
  (mash_queries f words qs segments w).1 = Return_ [].
Proof.
  intros Hq Hterm Hnone. revert segments w.
  induction qs as [|q' r IH]; intros segments w; [done|].
  cbn [mash_queries].
  destruct Hq as [-> | Hq].
  - pose proof (mash_terms_missing f words (split_space q) term segments w
                  Hterm Hnone) as H.
    by destruct (mash_terms f words (split_space q) segments w)
      as [[segs'|v|e] w'].
  - pose proof (mash_terms_flow f words (split_space q') segments w) as H.
    destruct (mash_terms f words (split_space q') segments w)
      as [[segs'|v|e] w']; cbn [fst] in H.
    + by apply IH.
    + by destruct H as [[segs H] | H].
    + by destruct H as [[segs H] | H].
Qed.

(** [search] leaves its loop early only through the [return []] of
    line 339. *)
Lemma search_file_return (f : string) (w : world) (v : list segment) :
  (the_search_file f w).1 = Return_ v -> v = [].
Proof.
  unfold search_file.
  destruct (parse_transcript f prefer) as [t|]; [|done].
  destruct (String.eqb search_type "sentence").
  { by destruct (search_sentence _ _ _ _ _ _). }
  destruct (String.eqb search_type "fragment").
  { by destruct (search_fragment _ _ _ _) as [[r|]|e]. }
  destruct (String.eqb search_type "mash"); [|done].
  unfold search_mash.
  destruct (py_index t 0) as [first|e]; [|done].
  destruct (l_words first); [|done].
  destruct (collect_words t) as [words|e]; [|done].
  pose proof (mash_queries_flow f words query [] w) as H.
  destruct (mash_queries f words query [] w) as [[segs|v'|e] w'];
    cbn [fst] in H; cbn [finish_file fst]; [done| |done].
  destruct H as [[segs H] | H]; congruence.
Qed.

Lemma search_files_return (files : list string) (acc : list segment)
    (w : world) (v : list segment) :
  (the_search_files files acc w).1 = Return_ v -> v = [].
Proof.
  revert acc w. induction files as [|f r IH]; intros acc w; [done|].
  cbn [search_files].
  pose proof (search_file_return f w) as Hf.
  destruct (the_search_file f w) as [[segs|v'|e] w']; cbn [fst] in *.
  - apply IH.
  - intros [= <-]. by apply Hf.
  - done.
Qed.

Lemma collect_words_first (l0 : line) (rest : transcript) (words : list word) :
  collect_words (l0 :: rest) = Ok words -> exists ws, l_words l0 = Some ws.
Proof. cbn [collect_words]. destruct (l_words l0) as [ws|]; [eauto|done]. Qed.

Lemma mash_matches_none (words : list word) (term : string) :
  Forall (fun wd => lower (w_word wd) <> lower term) words ->
  mash_matches words term = [].
Proof.
  unfold mash_matches. induction 1 as [|wd r Hwd Hr IH]; [done|].
  cbn [List.filter].
  destruct (String.eqb (lower (w_word wd)) (lower term)) eqn:E; [|done].
  by apply String.eqb_eq in E.
Qed.

(** C7.  In mash mode, when some sub-term (a piece of a query between
    single spaces, as [split(" ")] cuts it) of some query matches no word of
    the word stream of a file that the call processes, the call returns the
    empty list: the segments of the files before are dropped, the files
    after are not looked at. *)
Theorem search_mash_missing_term
    (pre post : list string) (f : string) (t : transcript)
    (words : list word) (q term : string) (w : world) :
  search_type = "mash" ->
  (forall e, (the_search pre w).1 <> Raise e) ->
  parse_transcript f prefer = Some t -> t <> [] ->
  collect_words t = Ok words ->
  In q query -> In term (split_space q) ->
  Forall (fun wd => lower (w_word wd) <> lower term) words ->
  (the_search (pre ++ f :: post) w).1 = Ok [].
Proof.
  intros Hmode Hpre Hparse Hne Hwords Hq Hterm Hnone%mash_matches_none.
  assert (Hf : forall w', (the_search_file f w').1 = Return_ []).
  { intros w'. unfold search_file. rewrite Hparse, Hmode.
    change (String.eqb "mash" "sentence") with false.
    change (String.eqb "mash" "fragment") with false.
    change (String.eqb "mash" "mash") with true. cbv iota.
    unfold search_mash. destruct t as [|l0 rest]; [done|].
    rewrite py_index_cons_0.
    destruct (collect_words_first l0 rest words Hwords) as [ws ->].
    rewrite Hwords.
    pose proof (mash_queries_missing f words query q term [] w'
                  Hq Hterm Hnone) as H.
    destruct (mash_queries f words query [] w') as [[segs|v|e] w''].
    all: cbn [fst] in H. all: done. }
  specialize (Hpre) as Hpre'. revert Hpre'.
  rewrite !search_result, search_files_app.
  pose proof (search_files_return pre [] w) as Hret.
  destruct (the_search_files pre [] w) as [[acc|v|e] w']; cbn [fst] in *.
  - intros _. cbn [search_files].
    specialize (Hf w').
    destruct (the_search_file f w') as [[segs|v|e] w'']; cbn [fst] in *.
    all: congruence.
  - intros _. by rewrite (Hret v).
  - intros H. by destruct (H e).
Qed.

(** *** Sentence and fragment mode: no random source *)

Lemma search_file_rng_free (f : string) :
  search_type = "sentence" \/ search_type = "fragment" ->
  rng_free (the_search_file f).
Proof.
  intros Hmode. unfold search_file.
  destruct (parse_transcript f prefer) as [t|].
  2: { eexists _, _. intros g. apply emits_pure. }
  destruct Hmode as [-> | ->].
  - change (String.eqb "sentence" "sentence") with true. cbv iota.
    destruct (search_sentence _ _ _ _ _ _);
      eexists _, _; intros g; apply emits_pure.
  - change (String.eqb "fragment" "sentence") with false.
    change (String.eqb "fragment" "fragment") with true. cbv iota.
    destruct (search_fragment _ _ _ _) as [r|e].
    + apply finish_file_rng_free.
    + eexists _, _. intros g. apply emits_pure.
Qed.

Lemma search_files_rng_free (files : list string) (acc : list segment) :
  (forall f, rng_free (the_search_file f)) ->
  rng_free (the_search_files files acc).
Proof.
  intros Hfile. revert acc. induction files as [|f r IH]; intros acc.
  - exists (Next acc), []. intros g. apply emits_pure.
  - cbn [search_files].
    destruct (Hfile f) as (r0 & o1 & H1).
    destruct r0 as [segs|v|e].
    + destruct (IH (acc ++ segs)) as (r2 & o2 & H2).
      exists r2, (o1 ++ o2). intros g out.
      rewrite H1, H2. by rewrite app_assoc.
    + exists (Return_ v), o1. intros g out. by rewrite H1.
    + exists (Throw e), o1. intros g out. by rewrite H1.
Qed.

Lemma search_rng_free (files : list string) :
  search_type = "sentence" \/ search_type = "fragment" ->
  exists r o, forall w,
    the_search files w = (r, World (random w) (stdout w ++ o)).
Proof.
  intros Hmode.
  destruct (search_files_rng_free files [])
    as (r & o & H).
  { intros f. by apply search_file_rng_free. }
  exists (match r with
          | Next v | Return_ v => Ok v
          | Throw e => Raise e
          end), o.
  intros [g out]. unfold search. rewrite H.
  by destruct r.
Qed.

End SearchProperties.

Definition two_cats : transcript :=
  [Line 0 6 "cat dog cat"
     (Some [Word "cat" 0 1; Word "dog" 2 3; Word "cat" 5 6])].

(** C10.  In sentence mode and in fragment mode the value [search] returns
    (or the exception it raises) and the lines it prints are fixed by the
    files, their transcripts, the queries, the word list and the
    [context_aware] flag: they are the same from every state of the random
    source, and the random source is left as it was.  In mash mode the
    result depends on the random source. *)
Theorem search_random_only_in_mash :
  (forall parse_transcript re_search query prefer word_content context_aware
          files,
      exists r o, forall w,
        search parse_transcript re_search query "sentence" prefer
          word_content context_aware files w
        = (r, World (random w) (stdout w ++ o)))
  /\ (forall parse_transcript re_search query prefer word_content
             context_aware files,
        exists r o, forall w,
          search parse_transcript re_search query "fragment" prefer
            word_content context_aware files w
          = (r, World (random w) (stdout w ++ o)))
  /\ (search (one_file "a.mp4" two_cats) literal_search
        ["cat"] "mash" None [] false ["a.mp4"] (World [0] [])).1
     = Ok [plain_segment "a.mp4" 5 6 "cat"]
  /\ (search (one_file "a.mp4" two_cats) literal_search
        ["cat"] "mash" None [] false ["a.mp4"] (World [1] [])).1
     = Ok [plain_segment "a.mp4" 0 1 "cat"].
Proof.
  split_and!.
  - intros. apply search_rng_free. by left.
  - intros. apply search_rng_free. by right.
  - reflexivity.
  - reflexivity.
Qed.

(** ** Examples of the search properties *)

Definition word_lines : transcript :=
  [Line 0 3 "a cat sat" (Some [Word "a" 0 1; Word "cat" 1 2; Word "sat" 2 3]);
   Line 3 6 "cat and cat" (Some [Word "cat" 3 4; Word "and" 4 5; Word "cat" 5 6])].

Definition cat_dog_lines : transcript :=
  [Line 0 2 "cat dog" (Some [Word "Cat" 0 1; Word "dog" 1 2])].

(** A loader that knows two media files. *)
Definition two_files (n1 : string) (t1 : transcript) (n2 : string)
    (t2 : transcript) : string -> option string -> option transcript :=
  fun f _ =>
    if String.eqb f n1 then Some t1
    else if String.eqb f n2 then Some t2 else None.

(** The mash query ["cat dog"]: the first file has both words, the second
    has "cat" three times and no "dog"; nothing is returned. *)
Lemma search_mash_missing_term_example :
  (search (two_files "b.mp4" cat_dog_lines "a.mp4" word_lines) literal_search
     ["cat dog"] "mash" None [] false (["b.mp4"] ++ "a.mp4" :: ["c.mp4"])
     (World [] [])).1
  = Ok [].
Proof.
  apply (search_mash_missing_term
           (two_files "b.mp4" cat_dog_lines "a.mp4" word_lines) literal_search
           ["cat dog"] "mash" None [] false
           ["b.mp4"] ["c.mp4"] "a.mp4" word_lines
           [Word "a" 0 1; Word "cat" 1 2; Word "sat" 2 3;
            Word "cat" 3 4; Word "and" 4 5; Word "cat" 5 6]
           "cat dog" "dog" (World [] [])).
  - reflexivity.
  - intros e. vm_compute. discriminate.
  - reflexivity.
  - discriminate.
  - reflexivity.
  - left. reflexivity.
  - right. left. reflexivity.
  - repeat constructor; vm_compute; discriminate.
Defined.

(** A file with subtitle lines only is skipped in fragment mode. *)
Lemma search_skips_file_without_words_example :
  (forall w,
     search (one_file "a.mp4" three_lines) literal_search
       ["hello"] "fragment" None [] false ["a.mp4"] w
     = (Ok [], print (no_word_timestamps "a.mp4") w))
  /\ (forall (pre post : list string) (w : world),
        (search (one_file "a.mp4" three_lines) literal_search
           ["hello"] "fragment" None [] false (pre ++ "a.mp4" :: post) w).1
        = (search (one_file "a.mp4" three_lines) literal_search
             ["hello"] "fragment" None [] false (pre ++ post) w).1
        /\ random
             (search (one_file "a.mp4" three_lines) literal_search
                ["hello"] "fragment" None [] false
                (pre ++ "a.mp4" :: post) w).2
           = random
               (search (one_file "a.mp4" three_lines) literal_search
                  ["hello"] "fragment" None [] false (pre ++ post) w).2).
Proof.
  apply (search_skips_file_without_words
           (one_file "a.mp4" three_lines) literal_search
           ["hello"] "fragment" None [] false "a.mp4" line0 [line1; line2]).
  - left. reflexivity.
  - reflexivity.
  - reflexivity.
Defined.

Definition mixed_lines : transcript :=
  [Line 0 2 "hello world" (Some [Word "hello" 0 1; Word "world" 1 2]);
   Line 2 4 "goodbye now" None].

(** C9.  The soft skip is missed on two kinds of transcripts without
    word-level timing.  When the first line has word-level timing and a
    later line has none, the guard passes and the subscript [line["words"]]
    raises [KeyError]; on a transcript without lines the guard itself,
    [transcript[0]], raises [IndexError].  In fragment and in mash mode the
    call of [search] ends there with the exception: no diagnostic is
    printed for the file, and the other files are not looked at. *)
Lemma search_without_words_raises :
  (search (one_file "a.mp4" mixed_lines) literal_search
     ["hello"] "fragment" None [] false ["a.mp4"; "b.mp4"] (World [] [])).1
  = Raise KeyError
  /\ (search (one_file "a.mp4" mixed_lines) literal_search
        ["hello"] "mash" None [] false ["a.mp4"; "b.mp4"] (World [] [])).1
     = Raise KeyError
  /\ (search (one_file "a.mp4" []) literal_search
        ["hello"] "fragment" None [] false ["a.mp4"; "b.mp4"] (World [] [])).1
     = Raise IndexError
  /\ (search (one_file "a.mp4" []) literal_search
        ["hello"] "mash" None [] false ["a.mp4"; "b.mp4"] (World [] [])).1
     = Raise IndexError.
Proof. split_and!; reflexivity. Qed.

(** ** pad_and_sync on the dicts as objects *)

Lemma update_lookup (r : nat) (change : segment -> segment)
    (σ : gmap nat segment) :
  update r change σ !!! r = change (σ !!! r).
Proof. unfold update. apply lookup_total_insert_eq. Qed.

Lemma update_lookup_ne (r x : nat) (change : segment -> segment)
    (σ : gmap nat segment) :
  r <> x -> update r change σ !!! x = σ !!! x.
Proof. intros H. unfold update. by apply lookup_total_insert_ne. Qed.

Lemma values_update (r : nat) (change : segment -> segment)
    (σ : gmap nat segment) (refs : list nat) :
  r ∉ refs -> values (update r change σ) refs = values σ refs.
Proof.
  intros Hr. unfold values. apply map_ext_in. intros x Hx.
  apply update_lookup_ne. intros ->. by apply Hr, list_elem_of_In.
Qed.

Lemma values_app (σ : gmap nat segment) (l k : list nat) :
  values σ (l ++ k) = values σ l ++ values σ k.
Proof. apply map_app. Qed.

Lemma pad_loop_other (padding resync : Q) (refs : list nat)
    (σ : gmap nat segment) (x : nat) :
  x ∉ refs -> pad_loop padding resync σ refs !!! x = σ !!! x.
Proof.
  revert σ. induction refs as [|r l IH]; intros σ Hx; [done|].
  apply not_elem_of_cons in Hx as [Hne Hx].
  unfold pad_loop in *. cbn [foldl]. rewrite IH by done.
  by apply update_lookup_ne.
Qed.

Lemma pad_loop_values (padding resync : Q) (refs : list nat)
    (σ : gmap nat segment) :
  NoDup refs ->
  values (pad_loop padding resync σ refs) refs
  = map (pad_one padding resync) (values σ refs).
Proof.
  revert σ. induction refs as [|r l IH]; intros σ Hnd; [done|].
  apply NoDup_cons in Hnd as [Hr Hl].
  change (pad_loop padding resync σ (r :: l))
    with (pad_loop padding resync (update r (pad_one padding resync) σ) l).
  cbn [values map]. fold (values (pad_loop padding resync
                                    (update r (pad_one padding resync) σ) l) l).
  fold (values σ l).
  rewrite pad_loop_other, update_lookup by done.
  by rewrite IH, values_update.
Qed.

Lemma sync_step_obj_unfold (σ : gmap nat segment) (done_ : list nat)
    (cur r : nat) :
  sync_step_obj (σ, (done_, cur)) r =
    if negb (String.eqb (file (σ !!! r)) (file (σ !!! cur))) then
      (σ, (done_ ++ [cur], r))
    else if Qle_bool (start (σ !!! r)) (end_ (σ !!! cur)) then
      (update cur (set_end (end_ (σ !!! r))) σ, (done_, cur))
    else (σ, (done_ ++ [cur], r)).
Proof. done. Qed.

Lemma sync_step_unfold (init : list segment) (cur s : segment) :
  sync_step (init, cur) s =
    if negb (String.eqb (file s) (file cur)) then (init ++ [cur], s)
    else if Qle_bool (start s) (end_ cur) then (init, set_end (end_ s) cur)
    else (init ++ [cur], s).
Proof. done. Qed.

Lemma sync_loop_values (rest : list nat) (σ : gmap nat segment)
    (done_ : list nat) (cur : nat) :
  NoDup (done_ ++ cur :: rest) ->
  values (foldl sync_step_obj (σ, (done_, cur)) rest).1
    ((foldl sync_step_obj (σ, (done_, cur)) rest).2.1
       ++ [(foldl sync_step_obj (σ, (done_, cur)) rest).2.2])
  = out_to_list
      (foldl sync_step (values σ done_, σ !!! cur) (values σ rest)).
Proof.
  revert σ done_ cur. induction rest as [|r l IH]; intros σ done_ cur Hnd.
  - cbn [foldl fst snd]. unfold out_to_list. cbn [fst snd]. apply values_app.
  - cbn [foldl values map]. fold (values σ l).
    rewrite sync_step_obj_unfold, sync_step_unfold.
    pose proof Hnd as (Hd & Hdis & Hc)%NoDup_app.
    apply NoDup_cons in Hc as [[Hcr Hcl]%not_elem_of_cons Hrl].
    apply NoDup_cons in Hrl as [_ Hrl].
    assert (Hcur : (cur ∉ done_) /\ (cur ∉ l)).
    { split; [|done]. intros Hin. apply (Hdis cur Hin), elem_of_cons. by left. }
    assert (Hl : NoDup (done_ ++ cur :: l)).
    { apply NoDup_app. split_and!; [done| |].
      - intros x Hx [-> | Hx']%elem_of_cons.
        + by destruct Hcur.
        + apply (Hdis x Hx). rewrite !elem_of_cons. auto.
      - by apply NoDup_cons. }
    assert (Ha : NoDup ((done_ ++ [cur]) ++ r :: l)).
    { by rewrite <- app_assoc. }
    destruct (negb (String.eqb (file (σ !!! r)) (file (σ !!! cur)))).
    { rewrite IH by done. by rewrite values_app. }
    destruct (Qle_bool (start (σ !!! r)) (end_ (σ !!! cur))).
    2: { rewrite IH by done. by rewrite values_app. }
    rewrite IH by done. destruct Hcur as [Hcd _].
    by rewrite update_lookup, !values_update.
Qed.

(** X6.  [pad_and_sync] changes the dicts of its argument in place; on a
    list without repeated dicts the values of the dicts returned are the
    ones [pad_and_sync] computes from the values of the dicts given. *)
Theorem pad_and_sync_in_place (σ : gmap nat segment) (refs : list nat)
    (padding resync : Q) :
  NoDup refs ->
  values (pad_and_sync_obj σ refs padding resync).1
    (pad_and_sync_obj σ refs padding resync).2
  = pad_and_sync (values σ refs) padding resync.
Proof.
  intros Hnd. destruct refs as [|r0 rest]; [done|].
  unfold pad_and_sync_obj, pad_and_sync. cbn [fst snd].
  rewrite (sync_loop_values rest _ [] r0) by done.
  rewrite <- pad_loop_values by done.
  done.
Qed.

Lemma pad_and_sync_in_place_example :
  values
    (pad_and_sync_obj
       {[ 1 := plain_segment "a.mp4" 0 3 "hello";
          2 := plain_segment "a.mp4" 2 5 "world" ]} [1; 2] (1 # 2) 0).1
    (pad_and_sync_obj
       {[ 1 := plain_segment "a.mp4" 0 3 "hello";
          2 := plain_segment "a.mp4" 2 5 "world" ]} [1; 2] (1 # 2) 0).2
  = pad_and_sync
      (values {[ 1 := plain_segment "a.mp4" 0 3 "hello";
                 2 := plain_segment "a.mp4" 2 5 "world" ]} [1; 2])
      (1 # 2) 0.
Proof.
  apply (pad_and_sync_in_place
           {[ 1 := plain_segment "a.mp4" 0 3 "hello";
              2 := plain_segment "a.mp4" 2 5 "world" ]} [1; 2] (1 # 2) 0).
  apply NoDup_cons. split; [|apply NoDup_singleton].
  intros H%list_elem_of_singleton. discriminate.
Defined.

Lemma update_nonneg (r x : nat) (change : segment -> segment)
    (σ : gmap nat segment) :
  nonneg (change (σ !!! r)) -> nonneg (σ !!! x) ->
  nonneg (update r change σ !!! x).
Proof.
  intros Hr Hx. destruct (decide (r = x)) as [<- | Hne].
  - by rewrite update_lookup.
  - by rewrite update_lookup_ne.
Qed.

Lemma pad_loop_keeps_nonneg (padding resync : Q) (refs : list nat)
    (σ : gmap nat segment) (x : nat) :
  nonneg (σ !!! x) -> nonneg (pad_loop padding resync σ refs !!! x).
Proof.
  revert σ. induction refs as [|r l IH]; intros σ Hx; [done|].
  unfold pad_loop in *. cbn [foldl]. apply IH.
  apply update_nonneg; [apply pad_one_nonneg | done].
Qed.

Lemma pad_loop_nonneg (padding resync : Q) (refs : list nat)
    (σ : gmap nat segment) :
  Forall (fun r => nonneg (pad_loop padding resync σ refs !!! r)) refs.
Proof.
  revert σ. induction refs as [|r l IH]; intros σ; [by constructor|].
  change (pad_loop padding resync σ (r :: l))
    with (pad_loop padding resync (update r (pad_one padding resync) σ) l).
  constructor; [|apply IH].
  apply pad_loop_keeps_nonneg. rewrite update_lookup. apply pad_one_nonneg.
Qed.

Lemma sync_loop_nonneg (rest : list nat) (σ : gmap nat segment)
    (done_ : list nat) (cur : nat) :
  Forall (fun r => nonneg (σ !!! r)) (done_ ++ cur :: rest) ->
  Forall (fun r => nonneg ((foldl sync_step_obj (σ, (done_, cur)) rest).1 !!! r))
    ((foldl sync_step_obj (σ, (done_, cur)) rest).2.1
       ++ [(foldl sync_step_obj (σ, (done_, cur)) rest).2.2]).
Proof.
  revert σ done_ cur. induction rest as [|r l IH]; intros σ done_ cur Hall.
  - cbn [foldl fst snd]. exact Hall.
  - cbn [foldl]. rewrite sync_step_obj_unfold.
    assert (Happ : Forall (fun r => nonneg (σ !!! r)) ((done_ ++ [cur]) ++ r :: l)).
    { by rewrite <- app_assoc. }
    destruct (negb (String.eqb (file (σ !!! r)) (file (σ !!! cur))));
      [by apply IH|].
    destruct (Qle_bool (start (σ !!! r)) (end_ (σ !!! cur))); [|by apply IH].
    apply IH.
    apply Forall_app in Hall as [Hd Hc].
    apply Forall_cons in Hc as [Hc Hr]. apply Forall_cons in Hr as [Hr Hl].
    assert (Hnew : nonneg (set_end (end_ (σ !!! r)) (σ !!! cur))).
    { destruct Hc, Hr. by split. }
    apply Forall_app. split; [|constructor].
    + eapply Forall_impl; [exact Hd|]. intros x Hx. by apply update_nonneg.
    + by apply update_nonneg.
    + eapply Forall_impl; [exact Hl|]. intros x Hx. by apply update_nonneg.
Qed.

(** X7.  The clamp of [pad_and_sync] holds on shared dicts too: whatever
    list of dicts is given, also one that holds a dict several times, every
    dict of the list returned has [start >= 0] and [end >= 0] after the
    call. *)
Theorem pad_and_sync_in_place_nonneg (σ : gmap nat segment) (refs : list nat)
    (padding resync : Q) :
  Forall nonneg
    (values (pad_and_sync_obj σ refs padding resync).1
       (pad_and_sync_obj σ refs padding resync).2).
Proof.
  unfold values. apply Forall_map.
  destruct refs as [|r0 rest]; [by constructor|].
  unfold pad_and_sync_obj. cbn [fst snd].
  apply (sync_loop_nonneg rest _ [] r0). apply pad_loop_nonneg.
Qed.

(** A dict that occurs twice in the list is padded twice: on such a list
    the values returned are not those of the list of values. *)
Lemma pad_and_sync_obj_shared_dict :
  values (pad_and_sync_obj {[ 7 := plain_segment "a.mp4" 2 3 "hello" ]}
            [7; 7] 1 0).1
         (pad_and_sync_obj {[ 7 := plain_segment "a.mp4" 2 3 "hello" ]}
            [7; 7] 1 0).2
  = [plain_segment "a.mp4" 0 5 "hello"]
  /\ pad_and_sync [plain_segment "a.mp4" 2 3 "hello";
                   plain_segment "a.mp4" 2 3 "hello"] 1 0
     = [plain_segment "a.mp4" 1 4 "hello"].
Proof. split; vm_compute; reflexivity. Qed.

(** ** sorted_by_start is Python's [sorted] with [key = start]

    The result is a permutation of the list, ascending by [start], and
    segments of equal [start] keep their order. *)

Definition start_le (a b : segment) : Prop := (start a <= start b)%Q.

Lemma insert_by_start_perm (x : segment) (l : list segment) :
  insert_by_start x l ≡ₚ x :: l.
Proof.
  induction l as [|y r IH]; [done|]. cbn [insert_by_start].
  destruct (Qle_bool (start x) (start y)); [done|].
  rewrite IH. apply Permutation_swap.
Qed.

Lemma sorted_by_start_perm (l : list segment) : sorted_by_start l ≡ₚ l.
Proof.
  induction l as [|x r IH]; [done|]. cbn [sorted_by_start].
  by rewrite insert_by_start_perm, IH.
Qed.

Lemma insert_by_start_sorted (x : segment) (l : list segment) :
  StronglySorted start_le l -> StronglySorted start_le (insert_by_start x l).
Proof.
  induction 1 as [|y r Hr IH Hy]; cbn [insert_by_start].
  - repeat constructor.
  - destruct (Qle_bool (start x) (start y)) eqn:E.
    + apply Qle_bool_true in E. constructor; [by constructor|].
      constructor; [done|].
      eapply Forall_impl; [exact Hy|]. unfold start_le. intros z Hz. lra.
    + apply Qle_bool_false in E. constructor; [done|].
      rewrite insert_by_start_perm. constructor; [|done].
      unfold start_le. lra.
Qed.

Lemma sorted_by_start_sorted (l : list segment) :
  StronglySorted start_le (sorted_by_start l).
Proof.
  induction l as [|x r IH]; [constructor|]. by apply insert_by_start_sorted.
Qed.

(** The segments that start at [q], in the order of the list. *)
Definition starting_at (q : Q) (l : list segment) : list segment :=
  List.filter (fun s => Qeq_bool (start s) q) l.

Lemma insert_by_start_stable (q : Q) (x : segment) (l : list segment) :
  starting_at q (insert_by_start x l) = starting_at q (x :: l).
Proof.
  induction l as [|y r IH]; [done|]. cbn [insert_by_start].
  destruct (Qle_bool (start x) (start y)) eqn:E; [done|].
  apply Qle_bool_false in E.
  unfold starting_at in *. cbn [List.filter] in *. rewrite IH.
  destruct (Qeq_bool (start x) q) eqn:Ex; [|done].
  destruct (Qeq_bool (start y) q) eqn:Ey; [|done].
  apply Qeq_bool_iff in Ex, Ey. lra.
Qed.

Lemma sorted_by_start_stable (q : Q) (l : list segment) :
  starting_at q (sorted_by_start l) = starting_at q l.
Proof.
  induction l as [|x r IH]; [done|]. cbn [sorted_by_start].
  rewrite insert_by_start_stable. unfold starting_at in *.
  cbn [List.filter]. by rewrite IH.
Qed.

(** ** remove_overlaps: what holds of the output *)

(** The time [t] lies in the range of some segment of [l]. *)
Definition in_range (t : Q) (s : segment) : Prop :=
  (start s <= t)%Q /\ (t <= end_ s)%Q.

Definition covers (t : Q) (l : list segment) : Prop := Exists (in_range t) l.

(** Each segment ends before the next one starts. *)
Fixpoint apart (l : list segment) : Prop :=
  match l with
  | a :: (b :: _) as r => (end_ a < start b)%Q /\ apart r
  | _ => True
  end.

Definition end_le (a b : segment) : Prop := (end_ a <= end_ b)%Q.

Lemma overlap_run_head (l : list segment) (cur : segment) :
  exists e rest, overlap_run cur l = set_end e cur :: rest.
Proof.
  revert cur. induction l as [|s r IH]; intros cur; cbn [overlap_run].
  - exists (end_ cur), []. by rewrite set_end_same.
  - destruct (Qle_bool (start s) (end_ cur)).
    + destruct (IH (set_end (end_ s) cur)) as (e & rest & ->).
      by exists e, rest.
    + exists (end_ cur), (overlap_run s r). by rewrite set_end_same.
Qed.

Lemma overlap_run_apart (l : list segment) (cur : segment) :
  apart (overlap_run cur l).
Proof.
  revert cur. induction l as [|s r IH]; intros cur; cbn [overlap_run]; [done|].
  destruct (Qle_bool (start s) (end_ cur)) eqn:E; [apply IH|].
  apply Qle_bool_false in E. specialize (IH s).
  destruct (overlap_run_head r s) as (e & rest & Hrun).
  rewrite Hrun in *. split; [done|]. exact IH.
Qed.

Lemma overlap_run_bound (x : segment) (l : list segment) (cur : segment) :
  Forall (start_le x) (cur :: l) -> Forall (start_le x) (overlap_run cur l).
Proof.
  revert cur. induction l as [|s r IH]; intros cur H; cbn [overlap_run]; [done|].
  apply Forall_cons in H as [Hc H]. apply Forall_cons in H as [Hs Hr].
  destruct (Qle_bool (start s) (end_ cur)).
  - apply IH. by constructor.
  - constructor; [done|]. apply IH. by constructor.
Qed.

Lemma overlap_run_sorted (l : list segment) (cur : segment) :
  StronglySorted start_le (cur :: l) ->
  StronglySorted start_le (overlap_run cur l).
Proof.
  revert cur. induction l as [|s r IH]; intros cur Hs; cbn [overlap_run].
  - repeat constructor.
  - apply StronglySorted_inv in Hs as [Hsr Hcur].
    destruct (Qle_bool (start s) (end_ cur)).
    + apply IH. apply StronglySorted_inv in Hsr as [Hr _].
      apply Forall_cons in Hcur as [_ Hcr]. by constructor.
    + constructor; [by apply IH|]. by apply overlap_run_bound.
Qed.

(** X2.  The output of [remove_overlaps] is ascending by [start], and each
    of its segments ends before the next one starts. *)
Theorem remove_overlaps_ascending_apart (segments : list segment) :
  StronglySorted start_le (remove_overlaps segments)
  /\ apart (remove_overlaps segments).
Proof.
  rewrite remove_overlaps_sorted.
  pose proof (sorted_by_start_sorted segments) as Hs.
  destruct (sorted_by_start segments) as [|s0 rest].
  - split; [constructor|done].
  - split; [by apply overlap_run_sorted | apply overlap_run_apart].
Qed.

Lemma covers_cons (t : Q) (s : segment) (l : list segment) :
  covers t (s :: l) <-> in_range t s \/ covers t l.
Proof. apply Exists_cons. Qed.

(** The output covers no time that the input does not cover. *)
Lemma overlap_run_covers_sub (t : Q) (l : list segment) (cur : segment) :
  covers t (overlap_run cur l) -> in_range t cur \/ covers t l.
Proof.
  revert cur. induction l as [|s r IH]; intros cur; cbn [overlap_run].
  - intros [H | H]%covers_cons; [by left | by right].
  - rewrite covers_cons.
    destruct (Qle_bool (start s) (end_ cur)) eqn:E.
    + apply Qle_bool_true in E. intros [[H1 H2] | H]%IH; [|tauto].
      cbn [set_end start end_] in H1, H2.
      destruct (Qlt_le_dec (end_ cur) t) as [Hlt | Hle].
      * right. left. split; [lra | done].
      * left. by split.
    + intros [H | H]%covers_cons; [by left|].
      apply IH in H. tauto.
Qed.

(** When, in the order of the starts, the ends ascend too, the output
    covers all the time the input covers. *)
Lemma overlap_run_covers_sup (t : Q) (l : list segment) (cur : segment) :
  StronglySorted start_le (cur :: l) -> StronglySorted end_le (cur :: l) ->
  in_range t cur \/ covers t l -> covers t (overlap_run cur l).
Proof.
  revert cur. induction l as [|s r IH]; intros cur Hs He; cbn [overlap_run].
  - intros [H | H]; [by apply covers_cons; left | by apply Exists_nil in H].
  - apply StronglySorted_inv in Hs as [Hsr Hcs].
    apply StronglySorted_inv in He as [Her Hce].
    apply Forall_cons in Hcs as [Hcs Hcr].
    apply Forall_cons in Hce as [Hce Hcer].
    unfold start_le, end_le in Hcs, Hce.
    rewrite covers_cons.
    destruct (Qle_bool (start s) (end_ cur)) eqn:E.
    + apply Qle_bool_true in E.
      intros H. apply IH.
      * constructor; [by apply StronglySorted_inv in Hsr as [? _] | done].
      * apply StronglySorted_inv in Her as [Hr Hsr'].
        constructor; [done | done].
      * destruct H as [[H1 H2] | [[H1 H2] | H]]; [left | left | by right].
        -- split; cbn [set_end start end_]; [done | lra].
        -- split; cbn [set_end start end_]; [lra | done].
    + intros [H | H]; apply covers_cons; [by left|].
      right. by apply IH.
Qed.

Lemma covers_perm (t : Q) (l k : list segment) :
  l ≡ₚ k -> covers t l -> covers t k.
Proof.
  intros Hp. unfold covers. rewrite !Exists_exists.
  intros (s & Hin & Hs). exists s. split; [|done]. by rewrite <- Hp.
Qed.

Lemma coversb_covers (t : Q) (l : list segment) :
  coversb t l = true <-> covers t l.
Proof.
  unfold coversb, covers, in_range.
  rewrite existsb_exists, Exists_exists. split.
  - intros (s & Hin & [H1 H2]%andb_true_iff).
    exists s. rewrite list_elem_of_In. by rewrite <- !Qle_bool_true.
  - intros (s & Hin & H1 & H2). exists s.
    rewrite <- list_elem_of_In, andb_true_iff, !Qle_bool_true. done.
Qed.

(** X3.  [remove_overlaps] adds no time: a time in the range of a segment
    of the output is in the range of a segment of the input. *)
Theorem remove_overlaps_adds_no_time (t : Q) (segments : list segment) :
  covers t (remove_overlaps segments) -> covers t segments.
Proof.
  rewrite remove_overlaps_sorted.
  pose proof (sorted_by_start_perm segments) as Hp.
  destruct (sorted_by_start segments) as [|s0 rest].
  - by intros H%Exists_nil.
  - intros H%overlap_run_covers_sub. apply (covers_perm t _ _ Hp).
    by apply covers_cons.
Qed.

Lemma remove_overlaps_adds_no_time_example :
  covers 4 [plain_segment "a.mp4" 0 10 "long"; plain_segment "a.mp4" 2 5 "short"].
Proof.
  apply (remove_overlaps_adds_no_time 4
           [plain_segment "a.mp4" 0 10 "long";
            plain_segment "a.mp4" 2 5 "short"]).
  apply coversb_covers. reflexivity.
Defined.

(** X4.  When the ends of the segments ascend in the (stable) order of
    their starts, [remove_overlaps] keeps the union of the ranges: the time
    covered by the output is the time covered by the input. *)
Theorem remove_overlaps_keeps_union (t : Q) (segments : list segment) :
  StronglySorted end_le (sorted_by_start segments) ->
  covers t (remove_overlaps segments) <-> covers t segments.
Proof.
  intros He. rewrite remove_overlaps_sorted.
  pose proof (sorted_by_start_perm segments) as Hp.
  pose proof (sorted_by_start_sorted segments) as Hs.
  destruct (sorted_by_start segments) as [|s0 rest]; split.
  - by intros H%Exists_nil.
  - intros H. apply (covers_perm t _ _ (symmetry Hp)) in H.
    by apply Exists_nil in H.
  - intros H%overlap_run_covers_sub. apply (covers_perm t _ _ Hp).
    by apply covers_cons.
  - intros H. apply (covers_perm t _ _ (symmetry Hp)) in H.
    apply overlap_run_covers_sup; [done | done |]. by apply covers_cons.
Qed.

Lemma remove_overlaps_keeps_union_example :
  covers 4 (remove_overlaps
              [plain_segment "a.mp4" 2 5 "world";
               plain_segment "a.mp4" 0 3 "hello"])
  <-> covers 4 [plain_segment "a.mp4" 2 5 "world";
                plain_segment "a.mp4" 0 3 "hello"].
Proof.
  apply (remove_overlaps_keeps_union 4
           [plain_segment "a.mp4" 2 5 "world";
            plain_segment "a.mp4" 0 3 "hello"]).
  repeat constructor. discriminate.
Defined.


(** ** Fragment mode: the words of a hit *)

(** The sub-terms of a query in fragment mode (line 306). *)
Definition sub_terms (_query : string) : list string :=
  map strip
    (List.filter (fun q => negb (String.eqb (strip q) EmptyString))
       (split_space _query)).

Lemma windows_from_length (k : nat) (ws : list word) :
  Forall (fun fragment => length fragment = k) (windows_from k ws).
Proof.
  induction ws as [|w r IH]; [by constructor|].
  cbn [windows_from].
  destruct (k <=? length (w :: r))%nat eqn:E; [|by constructor].
  apply Nat.leb_le in E. constructor; [|done].
  rewrite length_take. lia.
Qed.

Lemma windows_length (k : nat) (ws : list word) :
  Forall (fun fragment => length fragment = k) (windows k ws).
Proof.
  destruct k; [by constructor|]. apply windows_from_length.
Qed.

Lemma windows_from_slice (k : nat) (ws : list word) :
  Forall (fun fragment =>
            exists i, i + k <= length ws /\ fragment = take k (drop i ws))
    (windows_from k ws).
Proof.
  induction ws as [|w r IH]; [by constructor|].
  cbn [windows_from].
  destruct (k <=? length (w :: r))%nat eqn:E; [|by constructor].
  apply Nat.leb_le in E. constructor.
  - by exists 0.
  - eapply Forall_impl; [exact IH|]. intros fragment (i & Hi & ->).
    exists (S i). cbn [length drop]. split; [lia | done].
Qed.

Lemma windows_slice (k : nat) (ws : list word) :
  Forall (fun fragment =>
            exists i, i + k <= length ws /\ fragment = take k (drop i ws))
    (windows k ws).
Proof.
  destruct k; [by constructor|]. apply windows_from_slice.
Qed.

Section FragmentProperties.

Variable re_search : string -> string -> result bool.
Variable f : string.

(** [s] is the segment of a hit of the sub-terms [queries] in the word
    stream [words]: for some position [i], every sub-term is found in its
    word of the window [words[i : i + len(queries)]], and [s] runs from the
    start of the first word of the window to the end of its last word, with
    the words of the window joined by spaces as content. *)
Definition window_hit (queries : list string) (words : list word)
    (s : segment) : Prop :=
  exists (i : nat) (first last_ : word),
    i + length queries <= length words
    /\ all_match re_search queries (take (length queries) (drop i words))
       = Ok true
    /\ py_index (take (length queries) (drop i words)) 0 = Ok first
    /\ py_index (take (length queries) (drop i words)) (-1) = Ok last_
    /\ s = plain_segment f (w_start first) (w_end last_)
             (join_space
                (map w_word (take (length queries) (drop i words)))).

Lemma fragment_hit_window (P : segment -> Prop) (queries : list string)
    (words : list word) (segments segments' : list segment)
    (fragment : list word) :
  (forall s, window_hit queries words s -> P s) ->
  (exists i, i + length queries <= length words
             /\ fragment = take (length queries) (drop i words)) ->
  fragment_hit re_search f queries segments fragment = Ok segments' ->
  Forall P segments -> Forall P segments'.
Proof.
  intros HP (i & Hi & ->). unfold fragment_hit.
  destruct (all_match re_search queries _) as [[|]|e] eqn:Em; cbn;
    [|congruence|done].
  destruct (py_index _ 0) as [first|e] eqn:E0; cbn; [|done].
  destruct (py_index _ (-1)) as [last_|e] eqn:E1; cbn; [|done].
  intros [= <-] Hall. apply Forall_app. split; [done|].
  constructor; [|done]. apply HP. by exists i, first, last_.
Qed.

Lemma for_each_invariant {A S : Type} (I : S -> Prop) (Q : A -> Prop)
    (body : S -> A -> result S) (l : list A) (s s' : S) :
  (forall s x s', Q x -> body s x = Ok s' -> I s -> I s') ->
  Forall Q l -> for_each body l s = Ok s' -> I s -> I s'.
Proof.
  intros Hbody Hl. revert s. induction Hl as [|x r Hx Hr IH]; intros s.
  - cbn. by intros [= <-].
  - cbn [for_each]. destruct (body s x) as [s1|e] eqn:E; cbn; [|done].
    intros H Hs. apply (IH s1 H). by apply (Hbody s x s1).
Qed.

(** X5.  In fragment mode every segment of a file is a hit of one of the
    queries in a window of the word stream of the file (the words of all
    its lines, in order): the window has as many consecutive words as the
    query has sub-terms, every sub-term is found in its word, the segment
    starts with the first word of the window and ends with its last word,
    and its content is the words of the window joined by single spaces. *)
Theorem search_fragment_windows (query : list string) (t : transcript)
    (segments : list segment) :
  search_fragment re_search query f t = Ok (Some segments) ->
  exists words,
    collect_words t = Ok words
    /\ Forall (fun s => exists q,
                 In q query /\ window_hit (sub_terms q) words s)
         segments.
Proof.
  unfold search_fragment.
  destruct (py_index t 0) as [first|e]; cbn; [|done].
  destruct (l_words first); [|done].
  destruct (collect_words t) as [words|e]; cbn; [|done].
  destruct (for_each (fragment_query re_search f words) query [])
    as [segs|e] eqn:E; cbn; [|done].
  intros [= <-]. exists words. split; [done|].
  eapply (for_each_invariant
            (Forall (fun s => exists q, In q query
                       /\ window_hit (sub_terms q) words s))
            (fun q => In q query)); [| |exact E|by constructor].
  - intros segs0 q segs1 Hq Hrun. unfold fragment_query in Hrun.
    fold (sub_terms q) in Hrun.
    eapply (for_each_invariant _
              (fun fragment : list word =>
                 exists i, i + length (sub_terms q) <= length words
                           /\ fragment
                              = take (length (sub_terms q)) (drop i words)));
      [| |exact Hrun].
    + intros s0 fragment s1 Hw.
      apply (fragment_hit_window _ _ words); [|done].
      intros s Hs. by exists q.
    + apply windows_slice.
  - apply Forall_forall. intros q Hq. by apply list_elem_of_In.
Qed.

End FragmentProperties.

Lemma search_fragment_windows_example :
  exists words,
    collect_words word_lines = Ok words
    /\ Forall (fun s => exists q,
                 In q ["cat and"]
                 /\ window_hit literal_search "a.mp4" (sub_terms q) words s)
         [plain_segment "a.mp4" 3 5 "cat and"].
Proof.
  apply (search_fragment_windows literal_search "a.mp4" ["cat and"]
           word_lines).
  reflexivity.
Defined.

(** * The rest of videogrep.py *)

(** ** get_ngrams (videogrep.py, lines 88-114) *)

(** The first elements of the rows; [None] when a row is exhausted. *)
Fixpoint heads {A : Type} (rows : list (list A)) : option (list A) :=
  match rows with
  | [] => Some []
  | r :: rs =>
      match r, heads rs with
      | x :: _, Some hs => Some (x :: hs)
      | _, _ => None
      end
  end.

(** The [zip] of a first row and the other rows: it yields tuples until
    one of the rows is exhausted. *)
Fixpoint zip_rows {A : Type} (first : list A) (others : list (list A))
  : list (list A) :=
  match first with
  | [] => []
  | x :: first' =>
      match heads others with
      | Some hs => (x :: hs) :: zip_rows first' (map tail others)
      | None => []
      end
  end.

(** [zip] applied to a list of rows, as in line 113 and line 307; with no
    row at all the call is [zip()], which yields nothing. *)
Definition py_zip {A : Type} (rows : list (list A)) : list (list A) :=
  match rows with
  | [] => []
  | first :: others => zip_rows first others
  end.

(** [[words[i:] for i in range(n)]] *)
Definition suffixes {A : Type} (n : nat) (words : list A) : list (list A) :=
  map (fun i => drop i words) (seq 0 n).

Section Ngrams.

(** The loader, as in [search]; [get_ngrams] calls it without [prefer]. *)
Variable parse_transcript : string -> option string -> option transcript.

(** [re.split(pattern, content)] for the pattern of line 111, which cuts at
    punctuation and at white space. *)
Variable re_split : string -> list string.

(** The words one line adds (lines 108-111). *)
Definition line_words (l : line) : list string :=
  match l_words l with
  | Some ws => map w_word ws
  | None => re_split (l_content l)
  end.

(** The loop over the files (lines 103-111). *)
Fixpoint gather_words (files : list string) : list string :=
  match files with
  | [] => []
  | f :: r =>
      match parse_transcript f None with
      | None => gather_words r
      | Some t => flat_map line_words t ++ gather_words r
      end
  end.

Definition get_ngrams (files : list string) (n : nat) : list (list string) :=
  py_zip (suffixes n (gather_words files)).

End Ngrams.

(** *** The zip of the suffixes is the list of the sliding windows *)

Lemma heads_suffixes {A : Type} (l : list A) (a m : nat) :
  heads (map (fun i => drop i l) (seq a m)) =
    if ((m =? 0) || (a + m <=? length l))%nat then Some (take m (drop a l))
    else None.
Proof.
  revert a. induction m as [|m IH]; intros a; [done|].
  cbn [seq map heads orb Nat.eqb]. rewrite IH.
  destruct (l !! a) as [x|] eqn:Ex.
  - pose proof (lookup_lt_Some _ _ _ Ex) as Hlt.
    rewrite (drop_S _ _ _ Ex). cbn [take].
    destruct (m =? 0)%nat eqn:Em.
    + apply Nat.eqb_eq in Em as ->. cbn [orb].
      destruct (a + 1 <=? length l)%nat eqn:E; [done|].
      apply Nat.leb_gt in E. lia.
    + cbn [orb].
      destruct (S a + m <=? length l)%nat eqn:E1,
               (a + S m <=? length l)%nat eqn:E2; try done.
      * apply Nat.leb_le in E1. apply Nat.leb_gt in E2. lia.
      * apply Nat.leb_gt in E1. apply Nat.leb_le in E2. lia.
  - pose proof (lookup_ge_None_1 _ _ Ex) as Hge.
    rewrite (drop_ge l a) by done.
    destruct (a + S m <=? length l)%nat eqn:E; [|done].
    apply Nat.leb_le in E. lia.
Qed.

Lemma zip_rows_suffixes {A : Type} (l : list A) (m : nat) :
  forall i,
    zip_rows l (map (fun i => drop i l) (seq 1 m)) !! i =
      if (i + S m <=? length l)%nat then Some (take (S m) (drop i l)) else None.
Proof.
  induction l as [|x l' IH]; intros i.
  { cbn [zip_rows length]. rewrite lookup_nil.
    destruct (i + S m <=? 0)%nat eqn:E; [|done]. apply Nat.leb_le in E. lia. }
  cbn [zip_rows]. rewrite heads_suffixes.
  assert (Htails : map tail (map (fun i => drop i (x :: l')) (seq 1 m))
                   = map (fun i => drop i l') (seq 1 m)).
  { rewrite map_map. apply map_ext_in. intros j Hj%in_seq.
    destruct j as [|j]; [lia|]. cbn [drop].
    replace (S j) with (j + 1) by lia. rewrite <- drop_drop.
    by destruct (drop j l'). }
  rewrite Htails.
  assert (Hc : ((m =? 0) || (1 + m <=? length (x :: l')))%nat
               = (S m <=? length (x :: l'))%nat) by by destruct m.
  rewrite Hc. clear Hc Htails.
  destruct (Nat.leb_spec (S m) (length (x :: l'))) as [Hle | Hgt].
  - destruct i as [|i]; cbn [lookup list_lookup].
    + destruct (Nat.leb_spec (0 + S m) (length (x :: l'))); [done | lia].
    + rewrite IH. cbn [length drop] in *.
      destruct (Nat.leb_spec (i + S m) (length l')),
               (Nat.leb_spec (S i + S m) (S (length l'))); try done; lia.
  - rewrite lookup_nil.
    destruct (Nat.leb_spec (i + S m) (length (x :: l'))); [lia | done].
Qed.

(** The zip of the [n] suffixes of a list, [n >= 1]: its [i]-th tuple is
    [words[i : i + n]], and there are [len - n + 1] tuples. *)
Lemma py_zip_suffixes {A : Type} (n : nat) (words : list A) (i : nat) :
  1 <= n ->
  py_zip (suffixes n words) !! i =
    if (i + n <=? length words)%nat then Some (take n (drop i words))
    else None.
Proof.
  intros Hn. destruct n as [|m]; [lia|].
  unfold py_zip, suffixes. cbn [seq map drop].
  apply zip_rows_suffixes.
Qed.

(** X9.  The windows that fragment mode scans are the value of the
    expression of line 307, the zip of the suffixes [words[i:]] for
    [i < len(query_words)]: fragment mode tests every run of that many
    consecutive words of a line, in order, and nothing else. *)
Theorem windows_zip (k : nat) (ws : list word) :
  windows k ws = py_zip (suffixes k ws).
Proof.
  destruct k as [|m]; [done|].
  apply list_eq. intros i. rewrite py_zip_suffixes by lia.
  cbn [windows]. revert i. induction ws as [|w r IH]; intros i.
  { cbn [windows_from length]. rewrite lookup_nil.
    destruct (Nat.leb_spec (i + S m) 0); [lia | done]. }
  cbn [windows_from].
  destruct (Nat.leb_spec (S m) (length (w :: r))) as [Hle | Hgt].
  - destruct i as [|i]; cbn [lookup list_lookup].
    + destruct (Nat.leb_spec (0 + S m) (length (w :: r))); [done | lia].
    + rewrite IH. cbn [length drop] in *.
      destruct (Nat.leb_spec (i + S m) (length r)),
               (Nat.leb_spec (S i + S m) (S (length r))); try done; lia.
  - rewrite lookup_nil.
    destruct (Nat.leb_spec (i + S m) (length (w :: r))); [lia | done].
Qed.

Lemma py_zip_suffixes_length {A : Type} (n : nat) (words : list A) :
  1 <= n -> length (py_zip (suffixes n words)) = length words + 1 - n.
Proof.
  intros Hn. pose proof (py_zip_suffixes n words) as Hl.
  set (L := py_zip (suffixes n words)) in *.
  destruct (Nat.lt_trichotomy (length L) (length words + 1 - n))
    as [Hlt | [Heq | Hgt]]; [|done|].
  - specialize (Hl (length L) Hn). rewrite (lookup_ge_None_2 L) in Hl by done.
    destruct (Nat.leb_spec (length L + n) (length words)); [done | lia].
  - specialize (Hl (length words + 1 - n) Hn).
    destruct (lookup_lt_is_Some_2 L (length words + 1 - n) Hgt) as [x Hx].
    rewrite Hx in Hl.
    destruct (Nat.leb_spec (length words + 1 - n + n) (length words));
      [lia | done].
Qed.

(** X8.  For [n >= 1], [get_ngrams] yields the sliding windows of the words
    of all the files taken as one sequence: there are [len(words) - n + 1]
    of them (none when there are fewer than [n] words), and the [i]-th is
    [words[i : i + n]].  The windows run across the ends of lines and of
    files. *)
Theorem get_ngrams_sliding_windows
    (parse_transcript : string -> option string -> option transcript)
    (re_split : string -> list string) (files : list string) (n : nat) :
  1 <= n ->
  let words := gather_words parse_transcript re_split files in
  length (get_ngrams parse_transcript re_split files n) = length words + 1 - n
  /\ forall i, i + n <= length words ->
       get_ngrams parse_transcript re_split files n !! i
       = Some (take n (drop i words)).
Proof.
  intros Hn words. split.
  - by apply py_zip_suffixes_length.
  - intros i Hi. unfold get_ngrams. fold words.
    rewrite py_zip_suffixes by done.
    destruct (Nat.leb_spec (i + n) (length words)); [done | lia].
Qed.

Lemma get_ngrams_sliding_windows_example :
  let words := ["a"; "cat"; "sat"; "cat"; "and"; "cat"] in
  length (get_ngrams (one_file "a.mp4" word_lines) (fun _ => [])
            ["b.mp4"; "a.mp4"] 2) = length words + 1 - 2
  /\ forall i, i + 2 <= length words ->
       get_ngrams (one_file "a.mp4" word_lines) (fun _ => [])
         ["b.mp4"; "a.mp4"] 2 !! i
       = Some (take 2 (drop i words)).
Proof.
  apply (get_ngrams_sliding_windows (one_file "a.mp4" word_lines)
           (fun _ => []) ["b.mp4"; "a.mp4"] 2).
  lia.
Defined.

(** ** videogrep (videogrep.py, lines 549-633) *)

Definition BATCH_SIZE : nat := 20.

(** [s.endswith(suffix)]: the reversed string starts with the reversed
    suffix. *)
Definition ends_with (suffix s : string) : bool :=
  prefixb (String.rev suffix) (String.rev s).

(** [l[0:k]] for a Python integer [k]: a negative [k] counts from the end. *)
Definition py_slice_to {A : Type} (l : list A) (k : Z) : list A :=
  if (0 <=? k)%Z then take (Z.to_nat k) l
  else take (length l - Z.to_nat (- k)) l.

(** The call that [videogrep] ends with when it exports or renders. *)
Inductive call : Type :=
| export_individual_clips_call (composition : list segment)
    (outputfile : string) (pause : Q)
| export_m3u_call (composition : list segment) (outputfile : string) (pause : Q)
| create_supercut_in_batches_call (composition : list segment)
    (outputfile : string) (pause : Q)
| create_supercut_call (composition : list segment)
    (outputfile : string) (pause : Q).

Definition composition_of (c : call) : list segment :=
  match c with
  | export_individual_clips_call composition _ _
  | export_m3u_call composition _ _
  | create_supercut_in_batches_call composition _ _
  | create_supercut_call composition _ _ => composition
  end.

(** How a call of [videogrep] ends. *)
Inductive ending : Type :=
| Returns (v : bool)
| Calls (c : call)
| SearchRaises (e : exn)
| TypeError.

Section Videogrep.

Variable parse_transcript : string -> option string -> option transcript.
Variable re_search : string -> string -> result bool.

(** [open(word_file).read().splitlines()] *)
Variable read_lines : string -> list string.

(** [str(x)] of a float, as [print] shows it. *)
Variable str_float : Q -> string.

(** The word list [search] reads (lines 253-255): [if word_file:] is false
    for [None] and for the empty string. *)
Definition word_content_of (word_file : option string) : list string :=
  match word_file with
  | Some p => if String.eqb p EmptyString then [] else read_lines p
  | None => []
  end.

(** The line printed when nothing is found (lines 585-589). *)
Definition no_results (query : list string) (word_file : option string)
  : string :=
  let query := join_space query in
  "No results found for " +:+
    (if String.eqb query EmptyString then
       "input file " +:+ default "None" word_file
     else query).

(** One line of the demo (line 605). *)
Definition demo_line (s : segment) : string :=
  file s +:+ " " +:+ str_float (start s) +:+ " " +:+ str_float (end_ s)
    +:+ " " +:+ content s.

(** Lines 592-601: padding, random order, maximum of clips. *)
Definition compose (segments : list segment) (padding resync : Q)
    (random_order : bool) (maxclips : Z) (w : world)
  : list segment * world :=
  let segments := pad_and_sync segments padding resync in
  let '(segments, w) :=
    if random_order then random_shuffle segments w else (segments, w) in
  let segments :=
    if negb (maxclips =? 0)%Z then py_slice_to segments maxclips
    else segments in
  (segments, w).

(** The body of the last [else] (line 633). *)
Definition last_else (segments : list segment) (output : string) (pause : Q)
  : call :=
  create_supercut_call segments output pause.

(** Lines 603-633: the demo, or the export chosen by the flags and by the
    name of the output.  [export_mpv_edl] and [export_xml] are defined with
    two parameters and called with three: the call raises [TypeError]. *)
Definition deliver (segments : list segment) (output : string)
    (export_clips demo : bool) (pause : Q) (w : world) : ending * world :=
  if demo then
    (Returns true, foldl (fun w s => print (demo_line s) w) w segments)
  else if export_clips then
    (Calls (export_individual_clips_call segments output pause), w)
  else if ends_with ".m3u" output then
    (Calls (export_m3u_call segments output pause), w)
  else if ends_with ".mpv.edl" output then (TypeError, w)
  else if ends_with ".xml" output then (TypeError, w)
  else if (BATCH_SIZE <? length segments)%nat then
    (Calls (create_supercut_in_batches_call segments output pause), w)
  else (Calls (last_else segments output pause), w).

Definition videogrep (files query : list string) (search_type output : string)
    (resync padding : Q) (maxclips : Z)
    (export_clips random_order demo : bool) (pause : Q)
    (word_file : option string) (context_aware : bool)
    (transcript_type : option string) (w : world) : ending * world :=
  match search parse_transcript re_search query search_type transcript_type
          (word_content_of word_file) context_aware files w with
  | (Raise e, w) => (SearchRaises e, w)
  | (Ok segments, w) =>
      if (length segments =? 0)%nat then
        (Returns false, print (no_results query word_file) w)
      else
        let '(segments, w) :=
          compose segments padding resync random_order maxclips w in
        deliver segments output export_clips demo pause w
  end.

End Videogrep.

(** *** What the shuffle and the slice keep *)

Lemma swap_perm {A : Type} (i j : nat) (x : list A) : swap i j x ≡ₚ x.
Proof.
  unfold swap. destruct (x !! i) as [a|] eqn:Ei; [|done].
  destruct (x !! j) as [b|] eqn:Ej; [|done].
  by apply Permutation_insert_swap.
Qed.

Lemma shuffle_from_perm {A : Type} (i : nat) (x : list A) (g : rng) :
  (shuffle_from i x g).1 ≡ₚ x.
Proof.
  revert x g. induction i as [|i IH]; intros x g; [done|].
  cbn [shuffle_from]. destruct (randbelow (S i + 1) g) as [j g'].
  rewrite IH. apply swap_perm.
Qed.

Lemma random_shuffle_perm {A : Type} (x : list A) (w : world) :
  (random_shuffle x w).1 ≡ₚ x.
Proof.
  unfold random_shuffle, shuffle.
  pose proof (shuffle_from_perm (length x - 1) x (random w)) as H.
  by destruct (shuffle_from (length x - 1) x (random w)).
Qed.

Lemma py_slice_to_length {A : Type} (l : list A) (k : Z) :
  length (py_slice_to l k) =
    if (0 <=? k)%Z then Nat.min (Z.to_nat k) (length l)
    else length l - Z.to_nat (- k).
Proof.
  unfold py_slice_to. destruct (0 <=? k)%Z; rewrite length_take; lia.
Qed.

Lemma py_slice_to_prefix {A : Type} (l : list A) (k : Z) :
  py_slice_to l k `prefix_of` l.
Proof. unfold py_slice_to. destruct (0 <=? k)%Z; apply prefix_take. Qed.

Lemma pad_and_sync_not_nil (segments : list segment) (padding resync : Q) :
  segments <> [] -> pad_and_sync segments padding resync <> [].
Proof.
  destruct segments as [|s0 rest]; [done|]. intros _.
  unfold pad_and_sync. cbn [map]. rewrite file_aware_merge_cons.
  by destruct (sync_run_head (map (pad_one padding resync) rest)
                 (pad_one padding resync s0)) as (e & r & ->).
Qed.

Lemma foldl_print (lines : list string) (w : world) :
  foldl (fun w msg => print msg w) w lines
  = World (random w) (stdout w ++ lines).
Proof.
  revert w. induction lines as [|msg r IH]; intros w; cbn [foldl].
  - rewrite app_nil_r. by destruct w.
  - rewrite IH. cbn [print random stdout]. by rewrite <- app_assoc.
Qed.

Lemma ends_with_edl_not_m3u (s : string) :
  ends_with ".mpv.edl" s = true -> ends_with ".m3u" s = false.
Proof.
  unfold ends_with. change (String.rev ".mpv.edl") with "lde.vpm.".
  change (String.rev ".m3u") with "u3m.".
  destruct (String.rev s) as [|c r]; [done|]. cbn [prefixb].
  destruct (Ascii.eqb "l" c) eqn:E; [|done].
  apply Ascii.eqb_eq in E as <-. done.
Qed.

Lemma ends_with_xml_not_m3u (s : string) :
  ends_with ".xml" s = true -> ends_with ".m3u" s = false.
Proof.
  unfold ends_with. change (String.rev ".xml") with "lmx.".
  change (String.rev ".m3u") with "u3m.".
  destruct (String.rev s) as [|c r]; [done|]. cbn [prefixb].
  destruct (Ascii.eqb "l" c) eqn:E; [|done].
  apply Ascii.eqb_eq in E as <-. done.
Qed.

Section VideogrepProperties.

Variable parse_transcript : string -> option string -> option transcript.
Variable re_search : string -> string -> result bool.
Variable read_lines : string -> list string.
Variable str_float : Q -> string.

Variables (files query : list string) (search_type output : string).
Variables (resync padding : Q) (maxclips : Z).
Variables (export_clips random_order demo : bool) (pause : Q).
Variables (word_file : option string) (context_aware : bool).
Variable transcript_type : option string.

Local Abbreviation the_videogrep :=
  (videogrep parse_transcript re_search read_lines str_float files query
     search_type output resync padding maxclips export_clips random_order
     demo pause word_file context_aware transcript_type).

Local Abbreviation searched :=
  (search parse_transcript re_search query search_type transcript_type
     (word_content_of read_lines word_file) context_aware files).

(** The list that is cut to [maxclips]: the padded segments, shuffled when
    [random_order] is set. *)
Lemma compose_value (segments : list segment) (w : world) :
  exists l,
    l ≡ₚ pad_and_sync segments padding resync
    /\ (random_order = false -> l = pad_and_sync segments padding resync)
    /\ (compose segments padding resync random_order maxclips w).1
       = if (maxclips =? 0)%Z then l else py_slice_to l maxclips.
Proof.
  unfold compose. destruct random_order.
  - pose proof (random_shuffle_perm (pad_and_sync segments padding resync) w)
      as Hp.
    destruct (random_shuffle (pad_and_sync segments padding resync) w)
      as [l w1]. exists l. split_and!; [done|done|].
    by destruct (maxclips =? 0)%Z.
  - exists (pad_and_sync segments padding resync). split_and!; [done|done|].
    by destruct (maxclips =? 0)%Z.
Qed.

Lemma videogrep_calls (w w' : world) (c : call) :
  the_videogrep w = (Calls c, w') ->
  exists segments w1,
    searched w = (Ok segments, w1) /\ segments <> []
    /\ composition_of c
       = (compose segments padding resync random_order maxclips w1).1.
Proof.
  unfold videogrep.
  destruct (searched w) as [[segments|e] w1]; [|done].
  destruct (length segments =? 0)%nat eqn:El; [done|].
  apply Nat.eqb_neq in El.
  destruct (compose segments padding resync random_order maxclips w1)
    as [comp w2] eqn:Ec.
  intros H. exists segments, w1. split_and!; [done|by intros ->|].
  unfold deliver, last_else in H. rewrite Ec. cbn [fst].
  destruct demo; [done|]. destruct export_clips; [by simplify_eq|].
  destruct (ends_with ".m3u" output); [by simplify_eq|].
  destruct (ends_with ".mpv.edl" output); [done|].
  destruct (ends_with ".xml" output); [done|].
  destruct (BATCH_SIZE <? length comp)%nat; by simplify_eq.
Qed.

(** X10.  When [videogrep] ends with an export or a render call, the
    composition it hands over is the list of the segments found, padded,
    shifted and merged by [pad_and_sync], in that order or, with
    [random_order], in some other order, and then cut by [maxclips]: the
    whole list when [maxclips] is 0, its slice [[0:maxclips]] otherwise. *)
Theorem videogrep_composition (w w' : world) (c : call) :
  the_videogrep w = (Calls c, w') ->
  exists segments l,
    (searched w).1 = Ok segments /\ segments <> []
    /\ l ≡ₚ pad_and_sync segments padding resync
    /\ (random_order = false -> l = pad_and_sync segments padding resync)
    /\ composition_of c
       = if (maxclips =? 0)%Z then l else py_slice_to l maxclips.
Proof.
  intros (segments & w1 & Hs & Hne & ->)%videogrep_calls.
  destruct (compose_value segments w1) as (l & Hp & Ho & Hc).
  exists segments, l. rewrite Hs. by split_and!.
Qed.

(** X11.  Every composition that [videogrep] hands to an exporter or to the
    renderer has [start >= 0] and [end >= 0] in all its segments, has at
    most [maxclips] segments when [maxclips] is positive, and is not empty
    when [maxclips] is not negative. *)
Theorem videogrep_composition_bounds (w w' : world) (c : call) :
  the_videogrep w = (Calls c, w') ->
  Forall (fun s => (0 <= start s)%Q /\ (0 <= end_ s)%Q) (composition_of c)
  /\ ((0 < maxclips)%Z ->
      (Z.of_nat (length (composition_of c)) <= maxclips)%Z)
  /\ ((0 <= maxclips)%Z -> composition_of c <> []).
Proof.
  intros (segments & w1 & Hs & Hne & ->)%videogrep_calls.
  destruct (compose_value segments w1) as (l & Hp & _ & ->).
  assert (Hl : Forall nonneg l).
  { rewrite Hp. unfold pad_and_sync.
    apply file_aware_merge_nonneg, map_pad_one_nonneg. }
  assert (Hnil : l <> []).
  { intros ->. apply Permutation_nil_l in Hp.
    by apply (pad_and_sync_not_nil segments padding resync). }
  split_and!.
  - destruct (maxclips =? 0)%Z; [done|].
    destruct (py_slice_to_prefix l maxclips) as [k Hk].
    rewrite Hk in Hl. by apply Forall_app in Hl as [? _].
  - intros Hpos. destruct (Z.eqb_spec maxclips 0) as [?|_]; [lia|].
    rewrite py_slice_to_length.
    destruct (Z.leb_spec 0 maxclips); lia.
  - intros Hpos Hc. apply (f_equal length) in Hc. revert Hc.
    destruct (Z.eqb_spec maxclips 0) as [?|Hz]; [by destruct l|].
    rewrite py_slice_to_length.
    destruct (Z.leb_spec 0 maxclips); [|lia].
    destruct l; [done|]. cbn [length]. lia.
Qed.

(** X12.  A negative [maxclips] does not mean "no limit": the slice
    [[0:maxclips]] keeps the list of the padded and merged segments (in
    their order, or shuffled with [random_order]) without its last
    [-maxclips] segments, and nothing is left when there are no more than
    that. *)
Theorem videogrep_negative_maxclips (w w' : world) (c : call) :
  (maxclips < 0)%Z ->
  the_videogrep w = (Calls c, w') ->
  exists segments l,
    (searched w).1 = Ok segments
    /\ l ≡ₚ pad_and_sync segments padding resync
    /\ (random_order = false -> l = pad_and_sync segments padding resync)
    /\ composition_of c = take (length l - Z.to_nat (- maxclips)) l.
Proof.
  intros Hneg (segments & w1 & Hs & Hne & ->)%videogrep_calls.
  destruct (compose_value segments w1) as (l & Hp & Ho & ->).
  exists segments, l. rewrite Hs. split_and!; [done..|].
  destruct (Z.eqb_spec maxclips 0) as [?|_]; [lia|].
  unfold py_slice_to. destruct (Z.leb_spec 0 maxclips); [lia | done].
Qed.

Lemma compose_stdout (segments : list segment) (w : world) :
  stdout (compose segments padding resync random_order maxclips w).2
  = stdout w.
Proof.
  unfold compose. destruct random_order; [|done].
  unfold random_shuffle.
  by destruct (shuffle (pad_and_sync segments padding resync) (random w)).
Qed.

(** X13.  With [demo] set and something found, [videogrep] prints one line
    for every segment of the composition, in order, returns [True], and
    makes no export or render call, whatever [export_clips] and the name of
    the output are. *)
Theorem videogrep_demo (w w1 : world) (segments : list segment) :
  demo = true ->
  searched w = (Ok segments, w1) -> segments <> [] ->
  the_videogrep w
  = (Returns true,
     World (random (compose segments padding resync random_order
                      maxclips w1).2)
       (stdout w1
        ++ map (demo_line str_float)
             (compose segments padding resync random_order maxclips w1).1)).
Proof.
  intros Hdemo Hs Hne. unfold videogrep. rewrite Hs.
  destruct (Nat.eqb_spec (length segments) 0) as [Hl|_].
  { by destruct segments. }
  pose proof (compose_stdout segments w1) as Hout.
  destruct (compose segments padding resync random_order maxclips w1)
    as [comp w2]. cbn [fst snd] in *.
  unfold deliver. rewrite Hdemo. f_equal.
  rewrite <- Hout. clear. revert w2.
  induction comp as [|s r IH]; intros w2; cbn [foldl map].
  - rewrite app_nil_r. by destruct w2.
  - rewrite IH. cbn [print random stdout]. by rewrite <- app_assoc.
Qed.

(** X14.  An output name that ends in [.mpv.edl] or in [.xml] cannot be
    exported: when something is found, and neither [demo] nor
    [export_clips] is set, [videogrep] raises [TypeError], because it calls
    [export_mpv_edl] and [export_xml] with three arguments and they take
    two. *)
Theorem videogrep_edl_xml_type_error (w : world) (segments : list segment) :
  demo = false -> export_clips = false ->
  ends_with ".mpv.edl" output = true \/ ends_with ".xml" output = true ->
  (searched w).1 = Ok segments -> segments <> [] ->
  (the_videogrep w).1 = TypeError.
Proof.
  intros Hdemo Hclips Hout Hs Hne. unfold videogrep.
  destruct (searched w) as [r w1]. cbn [fst] in Hs. rewrite Hs.
  destruct (Nat.eqb_spec (length segments) 0) as [Hl|_].
  { by destruct segments. }
  destruct (compose segments padding resync random_order maxclips w1)
    as [comp w2].
  unfold deliver. rewrite Hdemo, Hclips.
  destruct Hout as [Hout | Hout].
  - by rewrite (ends_with_edl_not_m3u _ Hout), Hout.
  - rewrite (ends_with_xml_not_m3u _ Hout), Hout.
    by destruct (ends_with ".mpv.edl" output).
Qed.

End VideogrepProperties.

(** *** Sample runs of [videogrep] *)

Definition sample_videogrep (query : list string) (output : string)
    (maxclips : Z) (export_clips demo : bool) : ending * world :=
  videogrep (one_file "a.mp4" three_lines) literal_search
    (fun _ => []) (fun _ => "t") ["a.mp4"] query "sentence" output 0 0
    maxclips export_clips false demo 0 None false None (World [] []).

Definition sample_search (query : list string)
  : result (list segment) * world :=
  search (one_file "a.mp4" three_lines) literal_search query "sentence" None
    (word_content_of (fun _ => []) None) false ["a.mp4"] (World [] []).

Definition sample_call : call :=
  export_m3u_call [hit line0; hit line2] "out.m3u" 0.

Lemma videogrep_composition_example :
  exists segments l,
    (sample_search ["hello"; "see"]).1 = Ok segments /\ segments <> []
    /\ l ≡ₚ pad_and_sync segments 0 0
    /\ (false = false -> l = pad_and_sync segments 0 0)
    /\ composition_of sample_call
       = if (5 =? 0)%Z then l else py_slice_to l 5.
Proof.
  apply (videogrep_composition (one_file "a.mp4" three_lines) literal_search
           (fun _ => []) (fun _ => "t") ["a.mp4"] ["hello"; "see"] "sentence"
           "out.m3u" 0 0 5 false false false 0 None false None
           (World [] []) (World [] []) sample_call).
  reflexivity.
Defined.

Lemma videogrep_composition_bounds_example :
  Forall (fun s => (0 <= start s)%Q /\ (0 <= end_ s)%Q)
    (composition_of sample_call)
  /\ ((0 < 5)%Z -> (Z.of_nat (length (composition_of sample_call)) <= 5)%Z)
  /\ ((0 <= 5)%Z -> composition_of sample_call <> []).
Proof.
  apply (videogrep_composition_bounds (one_file "a.mp4" three_lines)
           literal_search (fun _ => []) (fun _ => "t") ["a.mp4"]
           ["hello"; "see"] "sentence" "out.m3u" 0 0 5 false false false 0
           None false None (World [] []) (World [] []) sample_call).
  reflexivity.
Defined.

Lemma videogrep_negative_maxclips_example :
  exists segments l,
    (sample_search ["hello"; "see"]).1 = Ok segments
    /\ l ≡ₚ pad_and_sync segments 0 0
    /\ (false = false -> l = pad_and_sync segments 0 0)
    /\ composition_of (export_m3u_call [hit line0] "out.m3u" 0)
       = take (length l - Z.to_nat (- (-1))) l.
Proof.
  apply (videogrep_negative_maxclips (one_file "a.mp4" three_lines)
           literal_search (fun _ => []) (fun _ => "t") ["a.mp4"]
           ["hello"; "see"] "sentence" "out.m3u" 0 0 (-1) false false false 0
           None false None (World [] []) (World [] [])
           (export_m3u_call [hit line0] "out.m3u" 0)).
  - reflexivity.
  - reflexivity.
Defined.

Lemma videogrep_demo_example :
  sample_videogrep ["hello"; "see"] "out.mp4" 0 true true
  = (Returns true,
     World [] ["a.mp4 t t hello world"; "a.mp4 t t see you"]).
Proof.
  apply (videogrep_demo (one_file "a.mp4" three_lines) literal_search
           (fun _ => []) (fun _ => "t") ["a.mp4"] ["hello"; "see"] "sentence"
           "out.mp4" 0 0 0 true false true 0 None false None
           (World [] []) (World [] []) [hit line0; hit line2]).
  - reflexivity.
  - reflexivity.
  - discriminate.
Defined.

Lemma videogrep_edl_xml_type_error_example :
  (sample_videogrep ["hello"] "cut.mpv.edl" 0 false false).1 = TypeError.
Proof.
  apply (videogrep_edl_xml_type_error (one_file "a.mp4" three_lines)
           literal_search (fun _ => []) (fun _ => "t") ["a.mp4"] ["hello"]
           "sentence" "cut.mpv.edl" 0 0 0 false false false 0 None false None
           (World [] []) [hit line0]).
  - reflexivity.
  - reflexivity.
  - left. reflexivity.
  - reflexivity.
  - discriminate.
Defined.

(** ** The renderers (videogrep.py, lines 364-488 and 538-543)

    moviepy and the operating system are outside the source.  A clip is
    kept as the expression that builds it.  Every call into moviepy or into
    the operating system is an [action]; a renderer runs in a state that
    holds the actions done so far and the lines printed.  The environment
    is a parameter, [raises]: from the actions done so far it tells whether
    the next action raises, and what.  An action that raises is not done,
    and its exception goes up as in Python.  [gc.collect()], the codecs and
    the name of the temporary audio file are left out. *)

Inductive clip : Type :=
| subclip (f : string) (t_start t_end : Q)
| ColorClip (f : string) (duration : Q)
| VideoFileClip (f : string).

(** What is written to a file: one clip, or the concatenation of clips. *)
Inductive video : Type :=
| Clip (k : clip)
| concatenate_videoclips (clips : list clip).

(** [open_videos] stands for lines 375 and 460, which open each file once,
    in the order of a set; [make] for a call that builds a clip or a
    concatenation. *)
Inductive action : Type :=
| open_videos (files : list string)
| make (v : video)
| write_videofile (v : video) (filename : string)
| os_listdir (outputfile : string)
| os_remove (filename : string).

(** The exceptions of the renderers: those of [search], the [ValueError] of
    [list.index], and what the environment raises. *)
Inductive py_error : Type :=
| Builtin (e : exn)
| ValueError
| Other (name : string).

Definition studio : Type := (list action * world)%type.

Definition M (A : Type) : Type := studio -> (py_error + A) * studio.

#[global] Instance M_ret : MRet M := fun A a st => (inr a, st).

#[global] Instance M_bind : MBind M := fun A B k m st =>
  match m st with
  | (inr a, st') => k a st'
  | (inl e, st') => (inl e, st')
  end.

Definition throw {A : Type} (e : py_error) : M A := fun st => (inl e, st).

Definition lift {A : Type} (r : result A) : M A :=
  match r with
  | Ok a => mret a
  | Raise e => throw (Builtin e)
  end.

Definition say (msg : string) : M unit :=
  fun st => (inr tt, (st.1, print msg st.2)).

#[global] Instance position_t_eq_dec : EqDecision position_t.
Proof. solve_decision. Defined.

(** [a == b] on two segments: the same keys with equal values. *)
Definition segment_eqb (a b : segment) : bool :=
  String.eqb (file a) (file b)
  && Qeq_bool (start a) (start b)
  && Qeq_bool (end_ a) (end_ b)
  && String.eqb (content a) (content b)
  && bool_decide (content_aware a = content_aware b)
  && bool_decide (position a = position b).

(** [l.index(x)]: the first position that holds a value equal to [x]. *)
Fixpoint list_index (x : segment) (l : list segment) : option nat :=
  match l with
  | [] => None
  | y :: r => if segment_eqb y x then Some 0 else S <$> list_index x r
  end.

(** [l[i:j]] for [0 <= i]. *)
Definition py_slice {A : Type} (l : list A) (i j : nat) : list A :=
  take (j - i) (drop i l).

(** [s.zfill(width)] on the digits of a natural number. *)
Fixpoint zeros (n : nat) : string :=
  match n with
  | O => EmptyString
  | S n => String "0" (zeros n)
  end.

Definition zfill (width : nat) (s : string) : string :=
  zeros (width - String.length s) +:+ s.

(** The name of the file of a batch (line 421). *)
Definition tmp_name (outputfile : string) (start_index : nat) : string :=
  outputfile +:+ ".tmp" +:+ pretty start_index +:+ ".mp4".

Section Renderers.

(** The environment: whether an action raises after the actions done. *)
Variable raises : list action -> action -> option py_error.

(** [VideoFileClip(f).duration] *)
Variable duration : string -> Q.

(** [os.path.splitext] *)
Variable splitext : string -> string * string.

(** What [os.listdir(os.path.dirname(os.path.abspath(outputfile)))]
    returns after the actions done. *)
Variable listdir_of : list action -> string -> list string.

(** A call into moviepy or the operating system. *)
Definition invoke (a : action) : M unit :=
  fun st =>
    match raises st.1 a with
    | Some e => (inl e, st)
    | None => (inr tt, (st.1 ++ [a], st.2))
    end.

(** A [for] loop whose body is one call. *)
Fixpoint invoke_each {A : Type} (a : A -> action) (l : list A) : M unit :=
  match l with
  | [] => mret tt
  | x :: r => invoke (a x);; invoke_each a r
  end.

(** Lines 383-386 and 465-468, on one segment. *)
Definition clamp (c : segment) : segment :=
  let c := if negb (Qle_bool 0 (start c)) then set_start 0 c else c in
  let c := if negb (Qle_bool (end_ c) (duration (file c)))
           then set_end (duration (file c)) c else c in
  c.

(** The clip that [videofileclips[c["file"]].subclip(c["start"], c["end"])]
    asks for.  The call itself is the action [make (Clip (cut c))]: the
    environment may raise at it, as moviepy does for a start after the end
    of the file. *)
Definition cut (c : segment) : clip := subclip (file c) (start c) (end_ c).

(** ["content_aware" in c and c["position"] == "before"] *)
Definition is_before (c : segment) : result bool :=
  match content_aware c with
  | None => Ok false
  | Some _ =>
      match position c with
      | Some p => Ok (bool_decide (p = before))
      | None => Raise KeyError
      end
  end.

(** Lines 374-375 and 459-460: each file of the set is opened once; no
    file, no call. *)
Definition open_files (files : list string) : M unit :=
  match files with
  | [] => mret tt
  | _ :: _ => invoke (open_videos files)
  end.

(** Lines 374-378 and 459-462: the files are opened, and the clip of the
    pause is made with the size of the first file. *)
Definition open_composition (composition : list segment) (pause : Q)
  : M clip :=
  open_files (map file composition);;
  c0 ← lift (py_index composition 0);
  let empty_clip := ColorClip (file c0) pause in
  invoke (make (Clip empty_clip));;
  mret empty_clip.

(** The loop of [create_supercut] (lines 382-393).  The segments are
    clamped in place: when the loop is at a segment, [composition] holds the
    clamped segments [seen], the segment itself, and the segments [rest]
    still to come. *)
Fixpoint cut_loop (empty_clip : clip) (seen rest : list segment)
    (cut_clips : list clip) : M (list clip) :=
  match rest with
  | [] => mret cut_clips
  | c :: rest' =>
      let c := clamp c in
      let composition := seen ++ c :: rest' in
      invoke (make (Clip (cut c)));;
      let cut_clips := cut_clips ++ [cut c] in
      before_ ← lift (is_before c);
      if before_ : bool then cut_loop empty_clip (seen ++ [c]) rest' cut_clips
      else
        match list_index c composition with
        | None => throw ValueError
        | Some j =>
            if (j =? length composition - 1)%nat then
              cut_loop empty_clip (seen ++ [c]) rest' cut_clips
            else
              cut_loop empty_clip (seen ++ [c]) rest'
                (cut_clips ++ [empty_clip])
        end
  end.

Definition create_supercut (composition : list segment) (outputfile : string)
    (pause : Q) : M unit :=
  say "[+] Creating clips.";;
  empty_clip ← open_composition composition pause;
  cut_clips ← cut_loop empty_clip [] composition [];
  say "[+] Concatenating clips.";;
  let final_clip := concatenate_videoclips cut_clips in
  invoke (make final_clip);;
  say "[+] Writing ouput file.";;
  invoke (write_videofile final_clip outputfile).

(** [os.listdir(d)] for the directory [d] of [outputfile]. *)
Definition listdir (outputfile : string) : M (list string) :=
  fun st =>
    match raises st.1 (os_listdir outputfile) with
    | Some e => (inl e, st)
    | None =>
        (inr (listdir_of st.1 outputfile),
         (st.1 ++ [os_listdir outputfile], st.2))
    end.

(** [cleanup_log_files] (lines 538-543) *)
Definition cleanup_log_files (outputfile : string) : M unit :=
  files ← listdir outputfile;
  let logfiles := List.filter (ends_with "ogg.log") files in
  invoke_each os_remove logfiles.

(** The [while] loop of [create_supercut_in_batches] (lines 420-431); an
    exception of [create_supercut] is caught and the batch is passed
    over. *)
Fixpoint batch_loop (fuel : nat) (composition : list segment)
    (outputfile : string) (pause : Q) (start_index end_index : nat)
    (batch_comp : list string) (st : studio)
  : option (list string * studio) :=
  if (start_index <? length composition)%nat then
    match fuel with
    | O => None
    | S fuel =>
        let filename := tmp_name outputfile start_index in
        match create_supercut (py_slice composition start_index end_index)
                filename pause st with
        | (inr _, st) =>
            batch_loop fuel composition outputfile pause
              (start_index + BATCH_SIZE) (end_index + BATCH_SIZE)
              (batch_comp ++ [filename]) st
        | (inl _, st) =>
            batch_loop fuel composition outputfile pause
              (start_index + BATCH_SIZE) (end_index + BATCH_SIZE)
              batch_comp st
        end
    end
  else Some (batch_comp, st).

(** Lines 433-447. *)
Definition join_batches (batch_comp : list string) (outputfile : string)
  : M unit :=
  invoke_each (fun filename => make (Clip (VideoFileClip filename)))
    batch_comp;;
  let clips := map VideoFileClip batch_comp in
  let video := concatenate_videoclips clips in
  invoke (make video);;
  invoke (write_videofile video outputfile);;
  invoke_each os_remove batch_comp;;
  cleanup_log_files outputfile.

Definition create_supercut_in_batches (composition : list segment)
    (outputfile : string) (pause : Q) (st : studio)
  : option ((py_error + unit) * studio) :=
  '(batch_comp, st) ←
    batch_loop (length composition) composition outputfile pause
      0 BATCH_SIZE [] st;
  Some (join_batches batch_comp outputfile st).

(** Lines 471-476. *)
Definition with_pauses (empty_clip : clip) (cut_clips : list clip)
  : list clip :=
  mjoin (imap (fun i clip =>
                 if (0 <? i)%nat then [empty_clip; clip] else [clip])
           cut_clips).

(** The name of the [i]-th file (line 481). *)
Definition clip_name (outputfile : string) (i : nat) : string :=
  let '(basename, ext) := splitext outputfile in
  basename +:+ "_" +:+ zfill 5 (pretty i) +:+ ext.

(** Lines 480-488: [write_videofile] in the order of the list, the file
    numbered by the position. *)
Fixpoint write_each (outputfile : string) (i : nat) (clips : list clip)
  : M unit :=
  match clips with
  | [] => mret tt
  | clip :: r =>
      invoke (write_videofile (Clip clip) (clip_name outputfile i));;
      write_each outputfile (S i) r
  end.

Definition export_individual_clips (composition : list segment)
    (outputfile : string) (pause : Q) : M unit :=
  empty_clip ← open_composition composition pause;
  invoke_each (fun c => make (Clip (cut (clamp c)))) composition;;
  let cut_clips := map (fun c => cut (clamp c)) composition in
  let cut_clips_with_pause := with_pauses empty_clip cut_clips in
  say "[+] Writing ouput files.";;
  write_each outputfile 0 cut_clips_with_pause.

End Renderers.

(** *** Straight-line runs *)

(** A step of a script: a call, or a line printed. *)
Inductive step : Type :=
| Do (a : action)
| Say (msg : string).

Definition actions_of (script : list step) : list action :=
  omap (fun s => match s with Do a => Some a | Say _ => None end) script.

Definition lines_of (script : list step) : list string :=
  omap (fun s => match s with Say msg => Some msg | Do _ => None end) script.

Lemma actions_of_app (s1 s2 : list step) :
  actions_of (s1 ++ s2) = actions_of s1 ++ actions_of s2.
Proof. apply omap_app. Qed.

Lemma lines_of_app (s1 s2 : list step) :
  lines_of (s1 ++ s2) = lines_of s1 ++ lines_of s2.
Proof. apply omap_app. Qed.

Section Perform.

Variable raises : list action -> action -> option py_error.

(** The run of a script: it stops at the first call that raises. *)
Fixpoint perform (script : list step) : M unit :=
  match script with
  | [] => mret tt
  | Do a :: r => invoke raises a;; perform r
  | Say msg :: r => say msg;; perform r
  end.

Lemma bind_say {B : Type} (msg : string) (k : unit -> M B) (st : studio) :
  (say msg ≫= k) st = k tt (st.1, print msg st.2).
Proof. done. Qed.

Lemma bind_invoke {B : Type} (a : action) (k : unit -> M B) (st : studio) :
  (invoke raises a ≫= k) st
  = match raises st.1 a with
    | Some e => (inl e, st)
    | None => k tt (st.1 ++ [a], st.2)
    end.
Proof. unfold mbind, M_bind, invoke. by destruct (raises st.1 a). Qed.

Lemma bind_ret {A B : Type} (a : A) (k : A -> M B) (st : studio) :
  (mret a ≫= k) st = k a st.
Proof. done. Qed.

Lemma bind_bind {A B C : Type} (m : M A) (k : A -> M B) (k' : B -> M C)
    (st : studio) :
  ((m ≫= k) ≫= k') st = (m ≫= (fun a => k a ≫= k')) st.
Proof.
  unfold mbind, M_bind. by destruct (m st) as [[e|a] st'].
Qed.

Lemma bind_match {A B : Type} (m : M A) (k : A -> M B) (st : studio) :
  (m ≫= k) st
  = match m st with
    | (inr a, st') => k a st'
    | (inl e, st') => (inl e, st')
    end.
Proof. done. Qed.

Lemma invoke_value (a : action) (st : studio) :
  invoke raises a st
  = match raises st.1 a with
    | Some e => (inl e, st)
    | None => (inr tt, (st.1 ++ [a], st.2))
    end.
Proof. done. Qed.

Lemma perform_do (a : action) (r : list step) (st : studio) :
  perform (Do a :: r) st
  = match raises st.1 a with
    | Some e => (inl e, st)
    | None => perform r (st.1 ++ [a], st.2)
    end.
Proof. cbn [perform]. apply bind_invoke. Qed.

Lemma perform_say (msg : string) (r : list step) (st : studio) :
  perform (Say msg :: r) st = perform r (st.1, print msg st.2).
Proof. done. Qed.

Lemma perform_app (s1 s2 : list step) (st : studio) :
  perform (s1 ++ s2) st = (perform s1;; perform s2) st.
Proof.
  revert st. induction s1 as [|[a|msg] r IH]; intros st.
  - done.
  - cbn [app perform]. unfold mbind, M_bind in *. unfold invoke.
    destruct (raises st.1 a); [done|]. apply IH.
  - cbn [app perform]. unfold mbind, M_bind in *. unfold say. apply IH.
Qed.

Lemma invoke_each_perform {A : Type} (a : A -> action) (l : list A)
    (st : studio) :
  invoke_each raises a l st = perform (map (fun x => Do (a x)) l) st.
Proof.
  revert st. induction l as [|x r IH]; intros st; [done|].
  cbn [invoke_each map perform]. unfold mbind, M_bind, invoke.
  destruct (raises st.1 (a x)); [done|]. apply IH.
Qed.

(** A script of which no call raises runs to its end. *)
Lemma perform_quiet (script : list step) (st : studio) :
  (forall h a, In a (actions_of script) -> raises h a = None) ->
  perform script st
  = (inr tt, (st.1 ++ actions_of script,
              World (random st.2) (stdout st.2 ++ lines_of script))).
Proof.
  revert st. induction script as [|[a|msg] r IH]; intros [h w] Hq.
  - cbn. rewrite !app_nil_r. by destruct w.
  - cbn [perform]. unfold mbind, M_bind, invoke. cbn [fst snd].
    rewrite Hq by by left. rewrite IH by (intros h' a' Ha; apply Hq; by right).
    cbn [fst snd actions_of lines_of omap]. by rewrite <- app_assoc.
  - cbn [perform]. unfold mbind, M_bind, say. cbn [fst snd].
    rewrite IH by (intros h' a' Ha; apply Hq; exact Ha).
    cbn [fst snd actions_of lines_of omap print random stdout].
    by rewrite <- app_assoc.
Qed.

(** What a run has done is the start of its script. *)
Lemma perform_prefix (script : list step) (st : studio) :
  exists new,
    (perform script st).2.1 = st.1 ++ new
    /\ new `prefix_of` actions_of script.
Proof.
  revert st. induction script as [|[a|msg] r IH]; intros [h w].
  - exists []. cbn. by rewrite app_nil_r.
  - cbn [perform]. unfold mbind, M_bind, invoke. cbn [fst snd].
    destruct (raises h a).
    + exists []. cbn. rewrite app_nil_r. split; [done|]. apply prefix_nil.
    + destruct (IH (h ++ [a], w)) as (new & Hn & Hp).
      exists (a :: new). split.
      * rewrite Hn. cbn [fst]. by rewrite <- app_assoc.
      * cbn [actions_of omap]. by apply prefix_cons.
  - cbn [perform]. unfold mbind, M_bind, say. cbn [fst snd].
    destruct (IH (h, print msg w)) as (new & Hn & Hp).
    exists new. by split.
Qed.

(** A run that returns has done all the calls of its script. *)
Lemma perform_done (script : list step) (st : studio) :
  (perform script st).1 = inr tt ->
  (perform script st).2.1 = st.1 ++ actions_of script.
Proof.
  revert st. induction script as [|[a|msg] r IH]; intros [h w].
  - cbn. by rewrite app_nil_r.
  - rewrite perform_do. cbn [fst snd]. destruct (raises h a); [done|].
    intros H. rewrite (IH _ H). cbn [fst actions_of omap].
    by rewrite <- app_assoc.
  - rewrite perform_say. cbn [fst snd]. intros H. by rewrite (IH _ H).
Qed.

Lemma perform_result (script : list step) (st st' : studio) :
  perform script st = (inr tt, st') ->
  st' = (st.1 ++ actions_of script,
         World (random st.2) (stdout st.2 ++ lines_of script)).
Proof.
  revert st. induction script as [|[a|msg] r IH]; intros [h w].
  - cbn. intros [= <-]. rewrite !app_nil_r. by destruct w.
  - rewrite perform_do. cbn [fst snd]. destruct (raises h a); [done|].
    intros ->%IH. cbn [fst snd actions_of lines_of omap].
    by rewrite <- app_assoc.
  - rewrite perform_say. cbn [fst snd]. intros ->%IH.
    cbn [fst snd actions_of lines_of omap print random stdout].
    by rewrite <- app_assoc.
Qed.

(** A run does not get past a call that raises whenever it is made. *)
Lemma perform_stuck (pre post : list step) (a : action) (st : studio) :
  (forall h, raises h a <> None) ->
  exists e new,
    (perform (pre ++ Do a :: post) st).1 = inl e
    /\ (perform (pre ++ Do a :: post) st).2.1 = st.1 ++ new
    /\ new `prefix_of` actions_of pre.
Proof.
  intros Ha. revert st. induction pre as [|[b|msg] r IH]; intros [h w].
  - cbn [app perform]. unfold mbind, M_bind, invoke. cbn [fst snd].
    destruct (raises h a) as [e|] eqn:E; [|by destruct (Ha h)].
    exists e, []. cbn. by rewrite app_nil_r.
  - cbn [app perform]. unfold mbind, M_bind, invoke. cbn [fst snd].
    destruct (raises h b) as [e|].
    + exists e, []. cbn. rewrite app_nil_r. split_and!; [done..|].
      apply prefix_nil.
    + destruct (IH (h ++ [b], w)) as (e & new & He & Hn & Hp).
      exists e, (b :: new). split_and!; [done| |].
      * rewrite Hn. cbn [fst]. by rewrite <- app_assoc.
      * cbn [actions_of omap]. by apply prefix_cons.
  - cbn [app perform]. unfold mbind, M_bind, say. cbn [fst snd].
    destruct (IH (h, print msg w)) as (e & new & He & Hn & Hp).
    by exists e, new.
Qed.

End Perform.

(** *** The script of create_supercut *)

Section RenderersProperties.

Variable raises : list action -> action -> option py_error.
Variable duration : string -> Q.

Local Abbreviation the_clamp := (clamp duration).
Local Abbreviation the_cut_loop := (cut_loop raises duration).
Local Abbreviation run := (perform raises).

Lemma segment_eqb_refl (c : segment) : segment_eqb c c = true.
Proof.
  unfold segment_eqb. rewrite !String.eqb_refl.
  rewrite !(proj2 (Qeq_bool_iff _ _)) by reflexivity.
  by rewrite !bool_decide_eq_true_2.
Qed.

Lemma list_index_first (x : segment) (seen rest : list segment) :
  exists j,
    list_index x (seen ++ x :: rest) = Some j /\ j <= length seen
    /\ (j = length seen <->
        existsb (fun y => segment_eqb y x) seen = false).
Proof.
  induction seen as [|y seen IH]; cbn [app list_index existsb length].
  - rewrite segment_eqb_refl. exists 0. by split_and!.
  - destruct (segment_eqb y x); cbn [orb].
    + exists 0. split_and!; [done | lia | split; [lia | done]].
    + destruct IH as (j & -> & Hle & Hiff). exists (S j).
      split_and!; [done | lia |]. rewrite <- Hiff. lia.
Qed.

Lemma clamp_keys (c : segment) :
  content_aware (the_clamp c) = content_aware c
  /\ position (the_clamp c) = position c
  /\ file (the_clamp c) = file c
  /\ content (the_clamp c) = content c.
Proof.
  unfold clamp.
  destruct (negb (Qle_bool 0 (start c)));
    by destruct (negb (Qle_bool _ _)).
Qed.

(** A segment with the keys [create_supercut] reads: one that has
    ["content_aware"] also has ["position"]. *)
Definition keyed (c : segment) : Prop :=
  content_aware c = None \/ position c <> None.

(** A segment that [content_aware_segments] put before a hit. *)
Definition goes_before (c : segment) : bool :=
  match content_aware c, position c with
  | Some _, Some before => true
  | _, _ => false
  end.

Lemma is_before_keyed (c : segment) :
  keyed c -> is_before (the_clamp c) = Ok (goes_before c).
Proof.
  destruct (clamp_keys c) as (Ha & Hp & _).
  unfold is_before, goes_before, keyed. rewrite Ha, Hp.
  destruct (content_aware c); [|done].
  destruct (position c) as [[]|]; [done | done |]. by intros [|].
Qed.

(** The clips the loop appends when it has clamped [seen] and is to go
    through [rest]. *)
Fixpoint pieces (empty_clip : clip) (seen rest : list segment) : list clip :=
  match rest with
  | [] => []
  | c :: rest' =>
      let c' := the_clamp c in
      cut c'
      :: (if goes_before c
             || (bool_decide (rest' = [])
                 && negb (existsb (fun y => segment_eqb y c') seen))
          then [] else [empty_clip])
      ++ pieces empty_clip (seen ++ [c']) rest'
  end.

(** The call that cuts a segment. *)
Definition cut_step (c : segment) : step :=
  Do (make (Clip (cut (the_clamp c)))).

Lemma cut_loop_keyed (empty_clip : clip) (seen rest : list segment)
    (cut_clips : list clip) (st : studio) :
  Forall keyed rest ->
  the_cut_loop empty_clip seen rest cut_clips st
  = match run (map cut_step rest) st with
    | (inr _, st') =>
        (inr (cut_clips ++ pieces empty_clip seen rest), st')
    | (inl e, st') => (inl e, st')
    end.
Proof.
  revert seen cut_clips st.
  induction rest as [|c rest' IH]; intros seen cut_clips st Hk.
  { cbn. by rewrite app_nil_r. }
  apply Forall_cons in Hk as [Hc Hk].
  cbn [cut_loop pieces map perform]. unfold cut_step at 1.
  unfold mbind, M_bind, invoke.
  destruct (raises st.1 (make (Clip (cut (the_clamp c))))); [done|].
  rewrite (is_before_keyed c Hc). cbn [lift]. unfold mret, M_ret.
  destruct (goes_before c); cbn [orb].
  { rewrite IH by done.
    destruct (run (map cut_step rest') _) as [[e|[]] st']; [done|].
    by rewrite <- app_assoc. }
  destruct (list_index_first (the_clamp c) seen rest')
    as (j & -> & Hle & Hiff).
  rewrite length_app. cbn [length].
  destruct (Nat.eqb_spec j (length seen + S (length rest') - 1)) as [Hj|Hj].
  - assert (rest' = []) as -> by (destruct rest'; [done | cbn in *; lia]).
    cbn [length] in Hj.
    assert (Hs : j = length seen) by lia.
    apply Hiff in Hs. rewrite Hs. by cbn.
  - rewrite IH by done.
    destruct (run (map cut_step rest') _) as [[e|[]] st']; [done|].
    rewrite <- !app_assoc. do 3 f_equal.
    destruct rest' as [|c1 r1]; [|done].
    cbn [length] in Hj.
    destruct (existsb (fun y => segment_eqb y (the_clamp c)) seen) eqn:E;
      [done|].
    exfalso. apply Hj. assert (j = length seen) by by apply Hiff. lia.
Qed.

Variables (outputfile : string) (pause : Q).

(** The clip of the pause for a composition. *)
Definition pause_clip (composition : list segment) : clip :=
  ColorClip (match composition with
             | c0 :: _ => file c0
             | [] => EmptyString
             end) pause.

(** What [create_supercut] does when it makes the video [cut_clips] of a
    composition. *)
Definition supercut_script (composition : list segment)
    (cut_clips : list clip) : list step :=
  [Say "[+] Creating clips.";
   Do (open_videos (map file composition));
   Do (make (Clip (pause_clip composition)))]
  ++ map cut_step composition
  ++ [Say "[+] Concatenating clips.";
      Do (make (concatenate_videoclips cut_clips));
      Say "[+] Writing ouput file.";
      Do (write_videofile (concatenate_videoclips cut_clips) outputfile)].

Lemma create_supercut_keyed (c0 : segment) (r : list segment)
    (st : studio) :
  Forall keyed (c0 :: r) ->
  create_supercut raises duration (c0 :: r) outputfile pause st
  = run (supercut_script (c0 :: r)
           (pieces (pause_clip (c0 :: r)) [] (c0 :: r))) st.
Proof.
  intros Hk. unfold supercut_script, create_supercut.
  change (pause_clip (c0 :: r)) with (ColorClip (file c0) pause).
  remember (c0 :: r) as composition eqn:Ec.
  cbn [app]. rewrite perform_say, bind_say.
  unfold open_composition, open_files.
  rewrite !bind_bind.
  assert (Hm : map file composition <> []) by by rewrite Ec.
  destruct (map file composition) as [|f0 fs] eqn:Ef; [done|].
  rewrite <- Ef. rewrite bind_invoke, perform_do. cbn [fst snd].
  destruct (raises st.1 (open_videos (map file composition))); [done|].
  rewrite bind_bind. rewrite Ec at 1. rewrite py_index_cons_0.
  cbn [lift]. rewrite bind_ret, bind_bind, bind_invoke, perform_do.
  cbn [fst snd].
  destruct (raises _ (make (Clip (ColorClip (file c0) pause)))); [done|].
  rewrite bind_ret. rewrite perform_app.
  rewrite (bind_match (the_cut_loop _ _ _ _)), (bind_match (run _)).
  rewrite cut_loop_keyed by done.
  destruct (run (map cut_step composition) _) as [[e|[]] st']; [done|].
  rewrite bind_say, perform_say, bind_invoke, perform_do.
  destruct (raises _ (make _)); [done|].
  rewrite bind_say, perform_say, invoke_value, perform_do.
  by destruct (raises _ (write_videofile _ _)).
Qed.

Lemma pieces_snoc (empty_clip : clip) (seen init : list segment)
    (last : segment) :
  pieces empty_clip seen (init ++ [last])
  = flat_map (fun c => cut (the_clamp c)
                       :: if goes_before c then [] else [empty_clip])
      init
    ++ cut (the_clamp last)
       :: (if goes_before last
              || negb (existsb (fun y => segment_eqb y (the_clamp last))
                         (seen ++ map the_clamp init))
           then [] else [empty_clip]).
Proof.
  revert seen. induction init as [|c init IH]; intros seen.
  - cbn [app pieces flat_map map]. rewrite !app_nil_r.
    by rewrite bool_decide_eq_true_2 by done.
  - cbn [app pieces flat_map map].
    rewrite bool_decide_eq_false_2 by by destruct init.
    cbn [andb]. rewrite orb_false_r, IH.
    by rewrite <- !app_assoc.
Qed.

Lemma plain_keyed (l : list segment) :
  Forall (fun c => content_aware c = None) l -> Forall keyed l.
Proof. intros H. eapply Forall_impl; [done|]. intros c Hc. by left. Qed.

Lemma plain_not_before (l : list segment) :
  Forall (fun c => content_aware c = None) l ->
  Forall (fun c => goes_before c = false) l.
Proof.
  intros H. eapply Forall_impl; [done|]. intros c Hc.
  unfold goes_before. by rewrite Hc.
Qed.

Lemma existsb_clamp_false (init : list segment) (last : segment) :
  Forall (fun c => segment_eqb (the_clamp c) (the_clamp last) = false) init ->
  existsb (fun y => segment_eqb y (the_clamp last)) (map the_clamp init)
  = false.
Proof.
  induction 1 as [|c init Hc _ IH]; [done|].
  cbn [map existsb]. by rewrite Hc, IH.
Qed.

Lemma existsb_clamp_true (init : list segment) (last : segment) :
  Exists (fun c => segment_eqb (the_clamp c) (the_clamp last) = true) init ->
  existsb (fun y => segment_eqb y (the_clamp last)) (map the_clamp init)
  = true.
Proof.
  induction 1 as [c init Hc | c init _ IH]; cbn [map existsb].
  - by rewrite Hc.
  - rewrite IH. apply orb_true_r.
Qed.

Lemma create_supercut_keyed_ne (composition : list segment) (st : studio) :
  composition <> [] -> Forall keyed composition ->
  create_supercut raises duration composition outputfile pause st
  = run (supercut_script composition
           (pieces (pause_clip composition) [] composition)) st.
Proof.
  intros Hne Hk. destruct composition as [|c0 r]; [done|].
  by apply create_supercut_keyed.
Qed.

Lemma create_supercut_snoc (init : list segment) (last : segment)
    (st : studio) :
  Forall keyed (init ++ [last]) ->
  create_supercut raises duration (init ++ [last]) outputfile pause st
  = run (supercut_script (init ++ [last])
           (pieces (pause_clip (init ++ [last])) [] (init ++ [last]))) st.
Proof.
  intros Hk. destruct (init ++ [last]) as [|c0 r] eqn:E.
  { by destruct init. }
  by apply create_supercut_keyed.
Qed.

(** X15.  Whatever the environment does, [create_supercut] on a composition
    of which the last segment differs from the others is the run of one
    script, stopped at the first call that raises: the files are opened and
    the clip of the pause is made, every segment is cut in order after the
    clamp, the cuts are concatenated in order, each followed by the pause
    except the segments that go before a hit and except the last one, and
    the concatenation is written to the output. *)
Theorem create_supercut_cut_list
    (init : list segment) (last : segment) (st : studio) :
  Forall keyed (init ++ [last]) ->
  Forall (fun c => segment_eqb (the_clamp c) (the_clamp last) = false) init ->
  create_supercut raises duration (init ++ [last]) outputfile pause st
  = run (supercut_script (init ++ [last])
           (flat_map (fun c => cut (the_clamp c)
                               :: if goes_before c then []
                                  else [pause_clip (init ++ [last])])
              init
            ++ [cut (the_clamp last)])) st.
Proof.
  intros Hk Hd. rewrite create_supercut_snoc by done.
  rewrite pieces_snoc. cbn [app].
  rewrite existsb_clamp_false by done. cbn [negb].
  by rewrite orb_true_r.
Qed.

(** X16.  [composition.index(c)] finds the first segment equal to [c]: when
    the last segment is equal to an earlier one (after the clamp), the test
    for the end of the list fails, and the video that [create_supercut]
    concatenates and writes has the pause after every cut, also after the
    last one. *)
Theorem create_supercut_repeated_last
    (init : list segment) (last : segment) (st : studio) :
  Forall (fun c => content_aware c = None) (init ++ [last]) ->
  Exists (fun c => segment_eqb (the_clamp c) (the_clamp last) = true) init ->
  create_supercut raises duration (init ++ [last]) outputfile pause st
  = run (supercut_script (init ++ [last])
           (flat_map (fun c => [cut (the_clamp c);
                                pause_clip (init ++ [last])])
              (init ++ [last]))) st.
Proof.
  intros Hp Hd. rewrite create_supercut_snoc by by apply plain_keyed.
  rewrite pieces_snoc. cbn [app].
  rewrite existsb_clamp_true by done. cbn [negb].
  apply plain_not_before in Hp.
  apply Forall_app in Hp as [Hi Hl]. apply Forall_inv in Hl.
  rewrite Hl. cbn [orb]. rewrite flat_map_app. cbn [flat_map app].
  assert (Hf : flat_map (fun c => cut (the_clamp c)
                                  :: if goes_before c then []
                                     else [pause_clip (init ++ [last])]) init
               = flat_map (fun c => [cut (the_clamp c);
                                     pause_clip (init ++ [last])]) init).
  { generalize (pause_clip (init ++ [last])). intros e. clear -Hi.
    induction Hi as [|c init Hc _ IH]; [done|].
    cbn [flat_map app]. by rewrite Hc, IH. }
  by rewrite Hf.
Qed.

(** *** The bounds of the cuts *)

(** Every call a computation adds to the calls done satisfies [P]. *)
Definition adds {A : Type} (P : action -> Prop) (m : M A) : Prop :=
  forall st, exists new, (m st).2.1 = st.1 ++ new /\ Forall P new.

Lemma adds_ret {A : Type} (P : action -> Prop) (a : A) : adds P (mret a).
Proof. intros st. exists []. cbn. by rewrite app_nil_r. Qed.

Lemma adds_throw {A : Type} (P : action -> Prop) (e : py_error) :
  adds P (throw e : M A).
Proof. intros st. exists []. cbn. by rewrite app_nil_r. Qed.

Lemma adds_lift {A : Type} (P : action -> Prop) (r : result A) :
  adds P (lift r).
Proof. destruct r; [apply adds_ret | apply adds_throw]. Qed.

Lemma adds_say (P : action -> Prop) (msg : string) : adds P (say msg).
Proof. intros st. exists []. cbn. by rewrite app_nil_r. Qed.

Lemma adds_invoke (P : action -> Prop) (a : action) :
  P a -> adds P (invoke raises a).
Proof.
  intros Ha st. rewrite invoke_value. destruct (raises st.1 a).
  - exists []. cbn. by rewrite app_nil_r.
  - exists [a]. cbn. split; [done|]. by constructor.
Qed.

Lemma adds_bind {A B : Type} (P : action -> Prop) (m : M A) (k : A -> M B) :
  adds P m -> (forall a, adds P (k a)) -> adds P (m ≫= k).
Proof.
  intros Hm Hk st. rewrite bind_match.
  destruct (Hm st) as (new & Hn & Hp).
  destruct (m st) as [[e|a] st'] eqn:E; cbn [fst snd] in *.
  - by exists new.
  - destruct (Hk a st') as (new' & Hn' & Hp').
    exists (new ++ new'). split.
    + by rewrite Hn', Hn, <- app_assoc.
    + by apply Forall_app.
Qed.

Lemma adds_invoke_each {A : Type} (P : action -> Prop) (a : A -> action)
    (l : list A) :
  Forall (fun x => P (a x)) l -> adds P (invoke_each raises a l).
Proof.
  induction 1 as [|x r Hx _ IH]; [apply adds_ret|].
  cbn [invoke_each]. apply adds_bind; [by apply adds_invoke | done].
Qed.

(** A cut within the bounds that the clamp sets. *)
Definition cut_in_bounds (a : action) : Prop :=
  match a with
  | make (Clip (subclip f t_start t_end)) =>
      (0 <= t_start)%Q /\ (t_end <= duration f)%Q
  | _ => True
  end.

Lemma clamp_bounds (c : segment) :
  (0 <= start (the_clamp c))%Q
  /\ (end_ (the_clamp c) <= duration (file c))%Q.
Proof.
  unfold clamp.
  destruct (Qle_bool 0 (start c)) eqn:Es; cbn [negb].
  - apply Qle_bool_iff in Es.
    destruct (Qle_bool (end_ c) (duration (file c))) eqn:Ee; cbn [negb].
    + apply Qle_bool_iff in Ee. done.
    + split; [done|]. cbn. lra.
  - cbn [set_start file end_ start].
    destruct (Qle_bool (end_ c) (duration (file c))) eqn:Ee; cbn [negb].
    + apply Qle_bool_iff in Ee. cbn. split; [lra | done].
    + cbn. split; lra.
Qed.

Lemma cut_step_in_bounds (c : segment) :
  cut_in_bounds (make (Clip (cut (the_clamp c)))).
Proof.
  destruct (clamp_bounds c) as [Hs He].
  destruct (clamp_keys c) as (_ & _ & Hf & _).
  unfold cut, cut_in_bounds. by rewrite Hf.
Qed.

Lemma cut_loop_adds (empty_clip : clip) (seen rest : list segment)
    (cut_clips : list clip) :
  adds cut_in_bounds (the_cut_loop empty_clip seen rest cut_clips).
Proof.
  revert seen cut_clips. induction rest as [|c rest' IH];
    intros seen cut_clips; [apply adds_ret|].
  cbn [cut_loop]. apply adds_bind.
  { apply adds_invoke, cut_step_in_bounds. }
  intros _. apply adds_bind; [apply adds_lift|].
  intros [|]; [apply IH|].
  destruct (list_index _ _); [|apply adds_throw].
  destruct (_ =? _)%nat; apply IH.
Qed.

Lemma open_composition_adds (composition : list segment) :
  adds cut_in_bounds (open_composition raises composition pause).
Proof.
  unfold open_composition. apply adds_bind.
  { unfold open_files. destruct (map file composition);
      [apply adds_ret | by apply adds_invoke]. }
  intros _. apply adds_bind; [apply adds_lift|].
  intros c0. apply adds_bind; [by apply adds_invoke|].
  intros _. apply adds_ret.
Qed.

(** The cuts among the calls. *)
Definition cuts_of (calls : list action) : list clip :=
  omap (fun a => match a with
                 | make (Clip (subclip f t_start t_end)) =>
                     Some (subclip f t_start t_end)
                 | _ => None
                 end) calls.

Lemma cuts_of_app (l1 l2 : list action) :
  cuts_of (l1 ++ l2) = cuts_of l1 ++ cuts_of l2.
Proof. apply omap_app. Qed.

Lemma cuts_of_cut_steps (l : list segment) :
  cuts_of (actions_of (map cut_step l))
  = map (fun c => cut (the_clamp c)) l.
Proof. induction l as [|c r IH]; [done|]. cbn. by rewrite <- IH. Qed.

(** X17.  Whatever the environment does and whatever the composition is,
    every cut that [create_supercut] asks for starts at 0 or later and ends
    at the duration of its file or earlier (the start is not held below
    the duration).  On a composition with the keys it reads, a call that
    returns has cut every segment once, in the order of the composition. *)
Theorem create_supercut_clamps (composition : list segment) (st : studio) :
  exists new,
    (create_supercut raises duration composition outputfile pause st).2.1
    = st.1 ++ new
    /\ Forall cut_in_bounds new
    /\ (Forall keyed composition ->
        (create_supercut raises duration composition outputfile pause st).1
        = inr tt ->
        cuts_of new = map (fun c => cut (the_clamp c)) composition).
Proof.
  assert (Ha : adds cut_in_bounds
                 (create_supercut raises duration composition outputfile
                    pause)).
  { unfold create_supercut.
    apply adds_bind; [apply adds_say|]. intros _.
    apply adds_bind; [apply open_composition_adds|]. intros e.
    apply adds_bind; [apply cut_loop_adds|]. intros cut_clips.
    apply adds_bind; [apply adds_say|]. intros _.
    apply adds_bind; [by apply adds_invoke|]. intros _.
    apply adds_bind; [apply adds_say|]. intros _. by apply adds_invoke. }
  destruct (Ha st) as (new & Hn & Hb). exists new. split_and!; [done..|].
  intros Hk Hr. destruct composition as [|c0 r].
  { by destruct st. }
  rewrite create_supercut_keyed in Hn, Hr by done.
  rewrite (perform_done _ _ _ Hr) in Hn. apply app_inv_head in Hn as <-.
  unfold supercut_script. rewrite !actions_of_app, !cuts_of_app.
  rewrite cuts_of_cut_steps. cbn [actions_of omap cuts_of app].
  by rewrite app_nil_r.
Qed.

Definition is_write (a : action) : bool :=
  match a with
  | write_videofile _ _ => true
  | _ => false
  end.

Lemma cut_steps_no_write (l : list segment) :
  List.filter is_write (actions_of (map cut_step l)) = [].
Proof. by induction l as [|c r IH]. Qed.

Lemma filter_prefix_nil (new l : list action) :
  new `prefix_of` l -> List.filter is_write l = [] ->
  List.filter is_write new = [].
Proof.
  intros [k ->]. rewrite List.filter_app. by intros [? _]%app_eq_nil.
Qed.

(** X25.  Only the end of a segment is held below the duration of its
    file.  When moviepy refuses to cut from a start after the end of a clip
    (its [subclip] raises for such a start), a composition with one segment
    that starts after the end of its file stops [create_supercut] with an
    exception, and nothing has been written. *)
Theorem create_supercut_late_segment
    (composition : list segment) (c : segment) (st : studio) :
  (forall h f t_start t_end,
      (duration f < t_start)%Q ->
      raises h (make (Clip (subclip f t_start t_end))) <> None) ->
  Forall keyed composition ->
  In c composition ->
  (duration (file c) < start (the_clamp c))%Q ->
  exists e new,
    (create_supercut raises duration composition outputfile pause st).1
    = inl e
    /\ (create_supercut raises duration composition outputfile pause st).2.1
       = st.1 ++ new
    /\ List.filter is_write new = [].
Proof.
  intros Henv Hk Hin Hlate.
  assert (Hne : composition <> []) by by destruct composition.
  rewrite !(create_supercut_keyed_ne composition) by done.
  apply in_split in Hin as (l1 & l2 & Hs).
  assert (Hm : map cut_step composition
               = map cut_step l1
                 ++ Do (make (Clip (cut (the_clamp c)))) :: map cut_step l2).
  { rewrite Hs, map_app. done. }
  unfold supercut_script. rewrite Hm.
  set (pre := [Say "[+] Creating clips.";
               Do (open_videos (map file composition));
               Do (make (Clip (pause_clip composition)))]
              ++ map cut_step l1).
  match goal with
  | |- context [ (map cut_step l1 ++ ?a :: map cut_step l2) ++ ?t ] =>
      set (post := map cut_step l2 ++ t);
      assert (Hscript :
               [Say "[+] Creating clips.";
                Do (open_videos (map file composition));
                Do (make (Clip (pause_clip composition)))]
               ++ (map cut_step l1 ++ a :: map cut_step l2) ++ t
               = pre ++ a :: post)
        by (unfold pre, post; by rewrite <- !app_assoc)
  end.
  rewrite !Hscript.
  destruct (perform_stuck raises pre post
              (make (Clip (cut (the_clamp c)))) st) as (e & new & He & Hn & Hp).
  { intros h. unfold cut. apply Henv.
    destruct (clamp_keys c) as (_ & _ & -> & _). done. }
  exists e, new. split_and!; [done..|].
  apply (filter_prefix_nil _ _ Hp). unfold pre.
  rewrite actions_of_app, List.filter_app, cut_steps_no_write. done.
Qed.

End RenderersProperties.

(** *** The batches of create_supercut_in_batches *)

Lemma with_pauses_cons (empty_clip x : clip) (r : list clip) :
  with_pauses empty_clip (x :: r)
  = x :: flat_map (fun k => [empty_clip; k]) r.
Proof.
  unfold with_pauses. rewrite imap_cons. cbn [mjoin list_join app].
  f_equal. induction r as [|y r IH]; [done|].
  rewrite imap_cons. cbn [mjoin list_join flat_map compose Nat.ltb Nat.leb].
  cbn [app]. do 2 f_equal. rewrite <- IH. f_equal.
Qed.

Lemma with_pauses_snoc (empty_clip : clip) (l : list clip) (x : clip) :
  with_pauses empty_clip (l ++ [x])
  = flat_map (fun k => [k; empty_clip]) l ++ [x].
Proof.
  destruct l as [|y l]; [done|].
  cbn [app]. rewrite with_pauses_cons. cbn [flat_map app]. f_equal.
  induction l as [|z l IH]; [done|].
  cbn [app flat_map]. by rewrite IH.
Qed.

Lemma string_length_app (s1 s2 : string) :
  String.length (s1 +:+ s2) = String.length s1 + String.length s2.
Proof.
  induction s1 as [|a s1 IH]; [done|].
  change (String a s1 +:+ s2) with (String a (s1 +:+ s2)).
  cbn [String.length]. by rewrite IH.
Qed.

Lemma string_app_inj_r (s1 s2 t : string) : s1 +:+ t = s2 +:+ t -> s1 = s2.
Proof.
  revert s2. induction s1 as [|a s1 IH]; intros [|b s2] H.
  - done.
  - apply (f_equal String.length) in H.
    rewrite !string_length_app in H. cbn [String.length] in H. lia.
  - apply (f_equal String.length) in H.
    rewrite !string_length_app in H. cbn [String.length] in H. lia.
  - change (String a (s1 +:+ t) = String b (s2 +:+ t)) in H.
    injection H as -> H. f_equal. by apply IH.
Qed.



(** The [k]-th batch, and the number of batches. *)
Definition batch (composition : list segment) (k : nat) : list segment :=
  py_slice composition (BATCH_SIZE * k) (BATCH_SIZE * k + BATCH_SIZE).

Definition batch_count (composition : list segment) : nat :=
  (length composition + BATCH_SIZE - 1) / BATCH_SIZE.

(** The names of the files of the batches [ks]. *)
Definition tmp_names (outputfile : string) (ks : list nat) : list string :=
  map (fun k => tmp_name outputfile (BATCH_SIZE * k)) ks.

Lemma batch_count_lt (composition : list segment) (k : nat) :
  BATCH_SIZE * k < length composition <-> k < batch_count composition.
Proof.
  unfold batch_count, BATCH_SIZE.
  pose proof (Nat.div_mod_eq (length composition + 20 - 1) 20) as Hd.
  pose proof (Nat.mod_upper_bound (length composition + 20 - 1) 20) as Hm.
  lia.
Qed.

Lemma batch_not_nil (composition : list segment) (k : nat) :
  BATCH_SIZE * k < length composition -> batch composition k <> [].
Proof.
  intros Hlt Hnil. apply (f_equal length) in Hnil. revert Hnil.
  unfold batch, py_slice. rewrite length_take, length_drop.
  unfold BATCH_SIZE in *. cbn [length]. lia.
Qed.

Lemma batch_lookup (composition : list segment) (k i : nat) :
  i < BATCH_SIZE ->
  batch composition k !! i = composition !! (BATCH_SIZE * k + i).
Proof.
  intros Hi. unfold batch, py_slice.
  rewrite lookup_take_lt by lia. by rewrite lookup_drop.
Qed.

Lemma batch_length (composition : list segment) (k : nat) :
  length (batch composition k) <= BATCH_SIZE.
Proof. unfold batch, py_slice. rewrite length_take. lia. Qed.


Section BatchProperties.

Variable raises : list action -> action -> option py_error.
Variable duration : string -> Q.
Variable listdir_of : list action -> string -> list string.
Variables (outputfile : string) (pause : Q).

Local Abbreviation the_clamp := (clamp duration).
Local Abbreviation run := (perform raises).

(** One turn of the loop: the batch is rendered into its file, and the
    file is kept unless the rendering raises. *)
Definition attempt (composition : list segment)
    (acc : list string * studio) (k : nat) : list string * studio :=
  let filename := tmp_name outputfile (BATCH_SIZE * k) in
  match create_supercut raises duration (batch composition k) filename
          pause acc.2 with
  | (inr _, st) => (acc.1 ++ [filename], st)
  | (inl _, st) => (acc.1, st)
  end.

Lemma batch_loop_fold (composition : list segment) (fuel k : nat) :
  forall start_index end_index batch_comp st,
    start_index = BATCH_SIZE * k ->
    end_index = start_index + BATCH_SIZE ->
    length composition <= BATCH_SIZE * (k + fuel) ->
    batch_loop raises duration fuel composition outputfile pause
      start_index end_index batch_comp st
    = Some (foldl (attempt composition) (batch_comp, st)
              (seq k (batch_count composition - k))).
Proof.
  revert k. induction fuel as [|fuel IH];
    intros k start_index end_index batch_comp st -> -> Hfuel.
  - cbn [batch_loop].
    destruct (Nat.ltb_spec (BATCH_SIZE * k) (length composition)); [lia|].
    assert (batch_count composition - k = 0) as ->.
    { pose proof (batch_count_lt composition k). lia. }
    done.
  - cbn [batch_loop].
    destruct (Nat.ltb_spec (BATCH_SIZE * k) (length composition))
      as [Hlt | Hge].
    + assert (Hk : k < batch_count composition) by by apply batch_count_lt.
      replace (batch_count composition - k)
        with (S (batch_count composition - S k)) by lia.
      cbn [seq foldl]. unfold attempt at 2. cbn [fst snd].
      fold (batch composition k).
      destruct (create_supercut raises duration (batch composition k) _ _ st)
        as [[e|[]] st1].
      * apply (IH (S k)); unfold BATCH_SIZE in *; lia.
      * apply (IH (S k)); unfold BATCH_SIZE in *; lia.
    + assert (batch_count composition - k = 0) as ->.
      { pose proof (batch_count_lt composition k). lia. }
      done.
Qed.


(** The calls of lines 433-445, before the log files are looked for. *)
Definition join_calls (batch_comp : list string) : list step :=
  map (fun filename => Do (make (Clip (VideoFileClip filename)))) batch_comp
  ++ [Do (make (concatenate_videoclips (map VideoFileClip batch_comp)));
      Do (write_videofile
            (concatenate_videoclips (map VideoFileClip batch_comp))
            outputfile)]
  ++ map (fun filename => Do (os_remove filename)) batch_comp.

(** What [join_batches] does after the calls [h]. *)
Definition join_script (h : list action) (batch_comp : list string)
  : list step :=
  join_calls batch_comp
  ++ Do (os_listdir outputfile)
     :: map (fun f => Do (os_remove f))
          (List.filter (ends_with "ogg.log")
             (listdir_of (h ++ actions_of (join_calls batch_comp))
                outputfile)).

Lemma join_batches_perform (batch_comp : list string) (st : studio) :
  join_batches raises listdir_of batch_comp outputfile st
  = run (join_script st.1 batch_comp) st.
Proof.
  unfold join_script. rewrite perform_app.
  assert (Hj : forall k : unit -> M unit,
             (invoke_each raises
                (fun filename => make (Clip (VideoFileClip filename)))
                batch_comp;;
              invoke raises
                (make (concatenate_videoclips
                         (map VideoFileClip batch_comp)));;
              invoke raises
                (write_videofile
                   (concatenate_videoclips (map VideoFileClip batch_comp))
                   outputfile);;
              invoke_each raises os_remove batch_comp;;
              k tt) st
             = (run (join_calls batch_comp) ≫= k) st).
  { intros k. unfold join_calls. rewrite !bind_match.
    rewrite invoke_each_perform, !perform_app, !bind_match.
    destruct (run (map _ batch_comp) st) as [[e|[]] st1]; [done|].
    cbn [app]. rewrite bind_invoke, perform_do.
    destruct (raises _ (make _)); [done|].
    rewrite bind_invoke, perform_do.
    destruct (raises _ (write_videofile _ _)); [done|].
    rewrite bind_match, invoke_each_perform.
    by destruct (run (map _ batch_comp) _) as [[e|[]] st2]. }
  unfold join_batches. rewrite (Hj (fun _ => cleanup_log_files raises
                                               listdir_of outputfile)).
  rewrite !bind_match.
  destruct (run (join_calls batch_comp) st) as [[e|[]] st1] eqn:E; [done|].
  apply perform_result in E. subst st1. cbn [fst snd].
  unfold cleanup_log_files, listdir. rewrite bind_match, perform_do.
  cbn [fst snd]. destruct (raises _ (os_listdir outputfile)); [done|].
  apply invoke_each_perform.
Qed.

(** The script of the [k]-th batch of a composition without context
    segments and without two equal segments. *)
Definition batch_script (composition : list segment) (k : nat)
  : list step :=
  supercut_script duration (tmp_name outputfile (BATCH_SIZE * k)) pause
    (batch composition k)
    (with_pauses (pause_clip pause (batch composition k))
       (map (fun c => cut (the_clamp c)) (batch composition k))).

(** Segments of which no two are equal after the clamp. *)
Definition distinct (composition : list segment) : Prop :=
  forall i j ci cj,
    i < j -> composition !! i = Some ci -> composition !! j = Some cj ->
    segment_eqb (the_clamp ci) (the_clamp cj) = false.

Fixpoint distinctb (composition : list segment) : bool :=
  match composition with
  | [] => true
  | c :: r =>
      forallb (fun c' => negb (segment_eqb (the_clamp c) (the_clamp c'))) r
      && distinctb r
  end.

Lemma distinctb_distinct (composition : list segment) :
  distinctb composition = true -> distinct composition.
Proof.
  induction composition as [|c r IH]; intros H i j ci cj Hlt Hi Hj.
  { by rewrite lookup_nil in Hi. }
  cbn [distinctb] in H. apply andb_true_iff in H as [Hc Hr].
  destruct j as [|j]; [lia|]. cbn [lookup list_lookup] in Hj.
  destruct i as [|i]; cbn [lookup list_lookup] in Hi.
  - simplify_eq. rewrite forallb_forall in Hc.
    apply list_elem_of_lookup_2, list_elem_of_In, Hc in Hj.
    by apply negb_true_iff in Hj.
  - apply (IH Hr i j); [lia | done | done].
Qed.

Lemma pieces_plain_distinct (empty_clip : clip) (init : list segment)
    (last : segment) :
  Forall (fun c => content_aware c = None) (init ++ [last]) ->
  Forall (fun c => segment_eqb (the_clamp c) (the_clamp last) = false) init ->
  pieces duration empty_clip [] (init ++ [last])
  = with_pauses empty_clip
      (map (fun c => cut (the_clamp c)) (init ++ [last])).
Proof.
  intros Hp Hd. rewrite pieces_snoc. cbn [app].
  rewrite existsb_clamp_false by done. cbn [negb]. rewrite orb_true_r.
  rewrite map_app. cbn [map]. rewrite with_pauses_snoc.
  f_equal. apply plain_not_before, Forall_app in Hp as [Hi _].
  clear -Hi. induction Hi as [|c init Hc _ IH]; [done|].
  cbn [flat_map map app]. by rewrite Hc, IH.
Qed.

Lemma create_supercut_batch (composition : list segment) (k : nat)
    (st : studio) :
  Forall (fun c => content_aware c = None) composition ->
  distinct composition ->
  k < batch_count composition ->
  create_supercut raises duration (batch composition k)
    (tmp_name outputfile (BATCH_SIZE * k)) pause st
  = run (batch_script composition k) st.
Proof.
  intros Hp Hd Hk%batch_count_lt. unfold batch_script.
  pose proof (batch_not_nil _ _ Hk) as Hne.
  pose proof (batch_length composition k) as Hlen.
  pose proof (batch_lookup composition k) as Hl.
  destruct (exists_last Hne) as (l & last & Eb). rewrite Eb in *.
  rewrite length_app in Hlen. cbn [length] in Hlen.
  assert (Hpl : Forall (fun c => content_aware c = None) (l ++ [last])).
  { apply Forall_forall. intros c [i Hi]%list_elem_of_lookup_1.
    pose proof (lookup_lt_Some _ _ _ Hi) as Hlt.
    rewrite length_app in Hlt. cbn [length] in Hlt.
    rewrite Hl in Hi by lia.
    rewrite Forall_forall in Hp. by eapply Hp, list_elem_of_lookup_2. }
  rewrite create_supercut_keyed_ne; [|done | by apply plain_keyed].
  rewrite pieces_plain_distinct; [done | done |].
  apply Forall_forall. intros c [i Hi]%list_elem_of_lookup_1.
  pose proof (lookup_lt_Some _ _ _ Hi) as Hlt.
  apply (Hd (BATCH_SIZE * k + i) (BATCH_SIZE * k + length l)); [lia | |].
  - rewrite <- Hl by lia. by apply lookup_app_l_Some.
  - rewrite <- Hl by lia. rewrite lookup_app_r by lia.
    by rewrite Nat.sub_diag.
Qed.

Lemma attempts_quiet (composition : list segment) (ks : list nat)
    (batch_comp : list string) (st : studio) :
  Forall (fun c => content_aware c = None) composition ->
  distinct composition ->
  Forall (fun k => k < batch_count composition) ks ->
  (forall h a,
      In a (actions_of (flat_map (batch_script composition) ks)) ->
      raises h a = None) ->
  foldl (attempt composition) (batch_comp, st) ks
  = (batch_comp ++ tmp_names outputfile ks,
     (st.1 ++ actions_of (flat_map (batch_script composition) ks),
      World (random st.2)
        (stdout st.2
         ++ lines_of (flat_map (batch_script composition) ks)))).
Proof.
  intros Hp Hd Hks. revert batch_comp st.
  induction Hks as [|k ks Hk _ IH]; intros batch_comp [h w] Hq.
  { cbn. rewrite !app_nil_r. by destruct w. }
  cbn [foldl flat_map tmp_names map]. unfold attempt at 2. cbn [fst snd].
  rewrite create_supercut_batch by done.
  cbn [flat_map] in Hq. rewrite actions_of_app in Hq.
  rewrite perform_quiet
    by (intros h' a Ha; apply Hq, in_or_app; by left).
  rewrite IH by (intros h' a Ha; apply Hq, in_or_app; by right).
  cbn [fst snd random stdout]. fold (tmp_names outputfile ks).
  by rewrite actions_of_app, lines_of_app, <- !app_assoc.
Qed.

(** X19.  On segments as [search] builds them without context, no two of
    them equal, and in an environment that raises at none of the calls,
    [create_supercut_in_batches] returns after these calls, in this order:
    each batch is rendered into its file by the script of
    [create_supercut], with the pause between the clips of the batch and
    none between the last clip of a batch and the first clip of the next;
    the files of the batches are opened, concatenated in order and written
    to the output; the files of the batches are removed, and then the log
    files of the directory. *)
Theorem create_supercut_in_batches_seams (composition : list segment)
    (st : studio) :
  let ks := seq 0 (batch_count composition) in
  let batches := flat_map (batch_script composition) ks in
  let script :=
    batches
    ++ join_script (st.1 ++ actions_of batches) (tmp_names outputfile ks) in
  Forall (fun c => content_aware c = None) composition ->
  distinct composition ->
  (forall h a, In a (actions_of script) -> raises h a = None) ->
  create_supercut_in_batches raises duration listdir_of composition
    outputfile pause st
  = Some (inr tt,
          (st.1 ++ actions_of script,
           World (random st.2) (stdout st.2 ++ lines_of script))).
Proof.
  intros ks batches script Hp Hd Hq.
  unfold create_supercut_in_batches.
  rewrite (batch_loop_fold composition (length composition) 0)
    by (done || unfold BATCH_SIZE; lia).
  rewrite Nat.sub_0_r. fold ks.
  unfold script in Hq. rewrite actions_of_app in Hq.
  rewrite attempts_quiet; [|done|done| |].
  - cbn [mbind option_bind app]. f_equal.
    rewrite join_batches_perform. cbn [fst snd].
    fold batches. rewrite perform_quiet
      by (intros h a Ha; apply Hq, in_or_app; by right).
    cbn [fst snd random stdout]. unfold script.
    by rewrite actions_of_app, lines_of_app, <- !app_assoc.
  - apply Forall_forall. intros k Hk%elem_of_seq. lia.
  - intros h a Ha. apply Hq, in_or_app. by left.
Qed.

End BatchProperties.

(** *** The files of export_individual_clips *)

Lemma pauses_lookup (empty_clip : clip) (r : list clip) (i : nat) :
  flat_map (fun k => [empty_clip; k]) r !! (2 * i)
  = (fun _ => empty_clip) <$> r !! i
  /\ flat_map (fun k => [empty_clip; k]) r !! (2 * i + 1) = r !! i.
Proof.
  revert i. induction r as [|x r IH]; intros i; [done|].
  cbn [flat_map app]. destruct i as [|i]; [done|].
  replace (2 * S i) with (S (S (2 * i))) by lia.
  replace (S (S (2 * i)) + 1) with (S (S (2 * i + 1))) by lia.
  cbn [lookup list_lookup]. apply IH.
Qed.

Lemma with_pauses_lookup (empty_clip : clip) (l : list clip) (i : nat) :
  with_pauses empty_clip l !! (2 * i) = l !! i
  /\ with_pauses empty_clip l !! (2 * i + 1)
     = (fun _ => empty_clip) <$> l !! (i + 1).
Proof.
  destruct l as [|x r]; [done|]. rewrite with_pauses_cons.
  destruct (pauses_lookup empty_clip r i) as [He _]. split.
  - destruct i as [|i]; [done|].
    replace (2 * S i) with (S (2 * i + 1)) by lia.
    cbn [lookup list_lookup]. apply pauses_lookup.
  - replace (2 * i + 1) with (S (2 * i)) by lia.
    replace (i + 1) with (S i) by lia. by cbn [lookup list_lookup].
Qed.

Lemma with_pauses_length (empty_clip : clip) (l : list clip) :
  length (with_pauses empty_clip l) = 2 * length l - 1.
Proof.
  destruct l as [|x r]; [done|]. rewrite with_pauses_cons.
  cbn [length]. induction r as [|y r IH]; [done|].
  cbn [flat_map app length] in *. lia.
Qed.

(** The decimal value of a string of digits. *)
Definition digit (c : ascii) : N := (N_of_ascii c - 48)%N.

Fixpoint read_digits (s : string) (acc : N) : N :=
  match s with
  | EmptyString => acc
  | String c s' => read_digits s' (10 * acc + digit c)%N
  end.

Lemma digit_pretty_N_char (d : N) :
  (d < 10)%N -> digit (pretty_N_char d) = d.
Proof.
  intros Hd.
  assert (d = 0 \/ d = 1 \/ d = 2 \/ d = 3 \/ d = 4 \/ d = 5 \/ d = 6
          \/ d = 7 \/ d = 8 \/ d = 9)%N as H by lia.
  by repeat (destruct H as [->|H]); [..|subst d].
Qed.

Lemma read_digits_pretty_N_go (x : N) :
  forall s, read_digits (pretty_N_go x s) 0 = read_digits s x.
Proof.
  induction (N.lt_wf_0 x) as [x _ IH]. intros s.
  assert (x = 0 \/ 0 < x)%N as [->|Hx] by lia; [done|].
  rewrite pretty_N_go_step by done.
  rewrite IH by by apply N.div_lt.
  cbn [read_digits]. rewrite digit_pretty_N_char by by apply N.mod_lt.
  f_equal. rewrite (N.div_mod x 10) at 3 by done. lia.
Qed.

Lemma read_digits_zfill (width i : nat) :
  read_digits (zfill width (pretty i)) 0 = N.of_nat i.
Proof.
  unfold zfill. generalize (width - String.length (pretty i)). intros n.
  induction n as [|n IH].
  - cbn [zeros]. change ("" +:+ pretty i) with (pretty i).
    unfold pretty, pretty_nat, pretty, pretty_N.
    destruct (decide (N.of_nat i = 0%N)) as [->|_]; [done|].
    by rewrite read_digits_pretty_N_go.
  - cbn [zeros].
    change (String "0" (zeros n) +:+ pretty i)
      with (String "0" (zeros n +:+ pretty i)).
    by cbn [read_digits].
Qed.

Section ExportProperties.

Variable raises : list action -> action -> option py_error.
Variable duration : string -> Q.
Variable splitext : string -> string * string.
Variables (outputfile : string) (pause : Q).

Local Abbreviation the_clamp := (clamp duration).
Local Abbreviation run := (perform raises).
Local Abbreviation the_clip_name := (clip_name splitext outputfile).

Lemma clip_name_inj (i j : nat) : the_clip_name i = the_clip_name j -> i = j.
Proof.
  unfold clip_name. destruct (splitext outputfile) as [basename ext].
  intros H. apply String.app_inj, String.app_inj, string_app_inj_r in H.
  apply (f_equal (fun s => read_digits s 0)) in H.
  rewrite !read_digits_zfill in H. lia.
Qed.

(** The writes of [export_individual_clips], in order. *)
Definition export_writes (composition : list segment) : list step :=
  imap (fun i clip => Do (write_videofile (Clip clip) (the_clip_name i)))
    (with_pauses (pause_clip pause composition)
       (map (fun c => cut (the_clamp c)) composition)).

Definition export_script (composition : list segment) : list step :=
  [Do (open_videos (map file composition));
   Do (make (Clip (pause_clip pause composition)))]
  ++ map (cut_step duration) composition
  ++ Say "[+] Writing ouput files." :: export_writes composition.

Lemma write_each_perform (clips : list clip) (i : nat) (st : studio) :
  write_each raises splitext outputfile i clips st
  = run (imap (fun j clip =>
                 Do (write_videofile (Clip clip) (the_clip_name (i + j))))
           clips) st.
Proof.
  revert i st. induction clips as [|clip r IH]; intros i st; [done|].
  cbn [write_each]. rewrite imap_cons, perform_do, bind_invoke.
  rewrite Nat.add_0_r.
  destruct (raises st.1 _); [done|]. rewrite IH.
  f_equal. apply imap_ext. intros j x _. cbn. do 3 f_equal. lia.
Qed.

Lemma export_individual_clips_script (c0 : segment) (r : list segment)
    (st : studio) :
  export_individual_clips raises duration splitext (c0 :: r) outputfile
    pause st
  = run (export_script (c0 :: r)) st.
Proof.
  unfold export_script, export_individual_clips, export_writes.
  change (pause_clip pause (c0 :: r)) with (ColorClip (file c0) pause).
  remember (c0 :: r) as composition eqn:Ec.
  cbn [app]. unfold open_composition, open_files.
  rewrite !bind_bind.
  assert (Hm : map file composition <> []) by by rewrite Ec.
  destruct (map file composition) as [|f0 fs] eqn:Ef; [done|].
  rewrite <- Ef. rewrite bind_invoke, perform_do. cbn [fst snd].
  destruct (raises st.1 (open_videos (map file composition))); [done|].
  rewrite bind_bind. rewrite Ec at 1. rewrite py_index_cons_0.
  cbn [lift]. rewrite bind_ret, bind_bind, bind_invoke, perform_do.
  cbn [fst snd].
  destruct (raises _ (make (Clip (ColorClip (file c0) pause)))); [done|].
  rewrite bind_ret, perform_app, !bind_match.
  rewrite invoke_each_perform. fold (cut_step duration).
  destruct (run (map (cut_step duration) composition) _)
    as [[e|[]] st1]; [done|].
  rewrite bind_say, perform_say. apply write_each_perform.
Qed.

(** X20.  Whatever the environment does, [export_individual_clips] on a
    composition of [n >= 1] segments is the run of one script, stopped at
    the first call that raises: the files are opened, the clip of the
    pause is made, every segment is cut after the clamp, and then the
    script asks for [2n - 1] writes in order, under different names: the
    cut of the [k]-th segment as file number [2k], and the clip of the
    pause, on its own, as every file of odd number. *)
Theorem export_individual_clips_files (composition : list segment) :
  composition <> [] ->
  (forall st,
      export_individual_clips raises duration splitext composition
        outputfile pause st
      = run (export_script composition) st)
  /\ length (export_writes composition) = 2 * length composition - 1
  /\ (forall k c, composition !! k = Some c ->
        export_writes composition !! (2 * k)
        = Some (Do (write_videofile (Clip (cut (the_clamp c)))
                      (the_clip_name (2 * k)))))
  /\ (forall k, k + 1 < length composition ->
        export_writes composition !! (2 * k + 1)
        = Some (Do (write_videofile (Clip (pause_clip pause composition))
                      (the_clip_name (2 * k + 1)))))
  /\ (forall i j, i <> j -> the_clip_name i <> the_clip_name j).
Proof.
  intros Hne. split_and!.
  - intros st. destruct composition as [|c0 r]; [done|].
    apply export_individual_clips_script.
  - unfold export_writes.
    by rewrite length_imap, with_pauses_length, length_map.
  - intros k c Hk. unfold export_writes. rewrite list_lookup_imap.
    destruct (with_pauses_lookup (pause_clip pause composition)
                (map (fun c => cut (the_clamp c)) composition) k) as [-> _].
    by rewrite list_lookup_fmap, Hk.
  - intros k Hk. unfold export_writes. rewrite list_lookup_imap.
    destruct (with_pauses_lookup (pause_clip pause composition)
                (map (fun c => cut (the_clamp c)) composition) k) as [_ ->].
    rewrite list_lookup_fmap.
    destruct (lookup_lt_is_Some_2 composition (k + 1) Hk) as [c ->]. done.
  - intros i j Hij Hn. by apply Hij, clip_name_inj.
Qed.

Lemma prefix_snoc_cases {A : Type} (new l : list A) (x : A) :
  new `prefix_of` l ++ [x] -> new `prefix_of` l \/ new = l ++ [x].
Proof.
  intros [k Hk]. destruct k as [|y k] using rev_ind.
  - right. by rewrite app_nil_r in Hk.
  - left. rewrite app_assoc in Hk. apply app_inj_tail in Hk as [-> _].
    by exists k.
Qed.

(** X26.  The clip of the pause is written to files of its own.  When
    moviepy cannot write that clip on its own (its [write_videofile]
    raises for a [ColorClip], which has no frame rate), a composition of
    two segments or more stops [export_individual_clips] with an
    exception, and the only file it can have written by then is the cut of
    the first segment, as file number 0. *)
Theorem export_individual_clips_pause_file
    (c0 c1 : segment) (r : list segment) (st : studio) :
  (forall h filename,
      raises h (write_videofile (Clip (ColorClip (file c0) pause)) filename)
      <> None) ->
  exists e new,
    (export_individual_clips raises duration splitext (c0 :: c1 :: r)
       outputfile pause st).1 = inl e
    /\ (export_individual_clips raises duration splitext (c0 :: c1 :: r)
         outputfile pause st).2.1 = st.1 ++ new
    /\ (List.filter is_write new = []
        \/ List.filter is_write new
           = [write_videofile (Clip (cut (the_clamp c0))) (the_clip_name 0)]).
Proof.
  intros Henv. rewrite export_individual_clips_script.
  set (composition := c0 :: c1 :: r).
  set (w0 := write_videofile (Clip (cut (the_clamp c0))) (the_clip_name 0)).
  set (a := write_videofile (Clip (ColorClip (file c0) pause))
              (the_clip_name 1)).
  assert (Hw : exists post,
             export_writes composition = Do w0 :: Do a :: post).
  { unfold export_writes, composition.
    change (pause_clip pause (c0 :: c1 :: r))
      with (ColorClip (file c0) pause).
    cbn [map]. rewrite with_pauses_cons. cbn [flat_map app].
    rewrite !imap_cons. eexists. reflexivity. }
  destruct Hw as [post Hw].
  set (pre := [Do (open_videos (map file composition));
               Do (make (Clip (pause_clip pause composition)))]
              ++ map (cut_step duration) composition
              ++ [Say "[+] Writing ouput files."]).
  assert (Hscript : export_script composition
                    = (pre ++ [Do w0]) ++ Do a :: post).
  { unfold export_script, pre. rewrite Hw. by rewrite <- !app_assoc. }
  rewrite !Hscript.
  destruct (perform_stuck raises (pre ++ [Do w0]) post a st)
    as (e & new & He & Hn & Hp); [intros h; apply Henv|].
  exists e, new. split_and!; [done..|].
  rewrite actions_of_app in Hp. cbn [actions_of omap] in Hp.
  assert (Hpre : List.filter is_write (actions_of pre) = []).
  { unfold pre. rewrite !actions_of_app, !List.filter_app.
    by rewrite cut_steps_no_write. }
  apply prefix_snoc_cases in Hp as [Hp | ->].
  - left. by apply (filter_prefix_nil _ _ Hp).
  - right. rewrite List.filter_app, Hpre. done.
Qed.

End ExportProperties.

(** *** Sample runs of the renderers *)

(** An environment in which nothing raises. *)
Definition calm : list action -> action -> option py_error :=
  fun _ _ => None.

(** An environment that raises in three places where moviepy does:
    [subclip] for a start after the end of the clip, [write_videofile] for
    a [ColorClip] on its own, and [concatenate_videoclips] for no clip. *)
Definition moviepy_raises (duration : string -> Q)
  : list action -> action -> option py_error :=
  fun _ a =>
    match a with
    | make (Clip (subclip f t_start _)) =>
        if Qle_bool t_start (duration f) then None else Some ValueError
    | write_videofile (Clip (ColorClip _ _)) _ =>
        Some (Other "AttributeError")
    | make (concatenate_videoclips []) => Some ValueError
    | _ => None
    end.

Definition five_seconds : string -> Q := fun _ => 5%Q.

Definition one_minute : string -> Q := fun _ => 60%Q.

Definition dot_split (s : string) : string * string := (s, ".mp4").

Definition numbered_lines : list segment :=
  map (fun i => plain_segment "a.mp4" (inject_Z (Z.of_nat i))
                  (inject_Z (Z.of_nat i) + 1) "la")
    (seq 0 21).

Definition late_line : segment := plain_segment "a.mp4" 7 9 "late".

Lemma create_supercut_cut_list_example :
  create_supercut calm five_seconds ([hit line0] ++ [hit line2]) "out.mp4" 1
    ([], World [] [])
  = perform calm
      (supercut_script five_seconds "out.mp4" 1 ([hit line0] ++ [hit line2])
         (flat_map (fun c => cut (clamp five_seconds c)
                             :: if goes_before c then []
                                else [pause_clip 1
                                        ([hit line0] ++ [hit line2])])
            [hit line0]
          ++ [cut (clamp five_seconds (hit line2))]))
      ([], World [] []).
Proof.
  apply (create_supercut_cut_list calm five_seconds "out.mp4" 1
           [hit line0] (hit line2) ([], World [] [])).
  - repeat constructor.
  - repeat constructor.
Defined.

Lemma create_supercut_repeated_last_example :
  create_supercut calm five_seconds ([hit line0] ++ [hit line0]) "out.mp4" 1
    ([], World [] [])
  = perform calm
      (supercut_script five_seconds "out.mp4" 1 ([hit line0] ++ [hit line0])
         (flat_map (fun c => [cut (clamp five_seconds c);
                              pause_clip 1 ([hit line0] ++ [hit line0])])
            ([hit line0] ++ [hit line0])))
      ([], World [] []).
Proof.
  apply (create_supercut_repeated_last calm five_seconds "out.mp4" 1
           [hit line0] (hit line0) ([], World [] [])).
  - repeat constructor.
  - left. reflexivity.
Defined.

Lemma create_supercut_late_segment_example :
  exists e new,
    (create_supercut (moviepy_raises five_seconds) five_seconds
       [hit line0; late_line] "out.mp4" 1 ([], World [] [])).1 = inl e
    /\ (create_supercut (moviepy_raises five_seconds) five_seconds
         [hit line0; late_line] "out.mp4" 1 ([], World [] [])).2.1
       = [] ++ new
    /\ List.filter is_write new = [].
Proof.
  apply (create_supercut_late_segment (moviepy_raises five_seconds)
           five_seconds "out.mp4" 1 [hit line0; late_line] late_line
           ([], World [] [])).
  - intros h f t_start t_end Hlt. cbn.
    destruct (Qle_bool t_start (five_seconds f)) eqn:E; [|done].
    apply Qle_bool_iff in E. lra.
  - repeat constructor.
  - right. left. reflexivity.
  - reflexivity.
Defined.

Lemma create_supercut_in_batches_seams_example :
  let ks := seq 0 (batch_count numbered_lines) in
  let batches :=
    flat_map (batch_script one_minute "out.mp4" 1 numbered_lines) ks in
  let script :=
    batches
    ++ join_script (fun _ _ => ["out.ogg.log"; "notes.txt"]) "out.mp4"
         ([] ++ actions_of batches) (tmp_names "out.mp4" ks) in
  create_supercut_in_batches calm one_minute
    (fun _ _ => ["out.ogg.log"; "notes.txt"]) numbered_lines "out.mp4" 1
    ([], World [] [])
  = Some (inr tt,
          ([] ++ actions_of script,
           World [] ([] ++ lines_of script))).
Proof.
  apply (create_supercut_in_batches_seams calm one_minute
           (fun _ _ => ["out.ogg.log"; "notes.txt"]) "out.mp4" 1
           numbered_lines ([], World [] [])).
  - repeat constructor.
  - apply distinctb_distinct. vm_compute. reflexivity.
  - reflexivity.
Defined.

Lemma export_individual_clips_files_example :
  (forall st,
      export_individual_clips calm five_seconds dot_split
        [hit line0; hit line2] "out" 1 st
      = perform calm
          (export_script five_seconds dot_split "out" 1
             [hit line0; hit line2]) st)
  /\ length (export_writes five_seconds dot_split "out" 1
               [hit line0; hit line2])
     = 2 * length [hit line0; hit line2] - 1
  /\ (forall k c, [hit line0; hit line2] !! k = Some c ->
        export_writes five_seconds dot_split "out" 1 [hit line0; hit line2]
          !! (2 * k)
        = Some (Do (write_videofile (Clip (cut (clamp five_seconds c)))
                      (clip_name dot_split "out" (2 * k)))))
  /\ (forall k, k + 1 < length [hit line0; hit line2] ->
        export_writes five_seconds dot_split "out" 1 [hit line0; hit line2]
          !! (2 * k + 1)
        = Some (Do (write_videofile
                      (Clip (pause_clip 1 [hit line0; hit line2]))
                      (clip_name dot_split "out" (2 * k + 1)))))
  /\ (forall i j, i <> j ->
        clip_name dot_split "out" i <> clip_name dot_split "out" j).
Proof.
  apply (export_individual_clips_files calm five_seconds dot_split "out" 1
           [hit line0; hit line2]).
  discriminate.
Defined.

Lemma export_individual_clips_pause_file_example :
  exists e new,
    (export_individual_clips (moviepy_raises five_seconds) five_seconds
       dot_split [hit line0; hit line2] "out" 1 ([], World [] [])).1 = inl e
    /\ (export_individual_clips (moviepy_raises five_seconds) five_seconds
         dot_split [hit line0; hit line2] "out" 1 ([], World [] [])).2.1
       = [] ++ new
    /\ (List.filter is_write new = []
        \/ List.filter is_write new
           = [write_videofile (Clip (cut (clamp five_seconds (hit line0))))
                (clip_name dot_split "out" 0)]).
Proof.
  apply (export_individual_clips_pause_file (moviepy_raises five_seconds)
           five_seconds dot_split "out" 1 (hit line0) (hit line2) []
           ([], World [] [])).
  intros h filename. discriminate.
Defined.

(** *** videogrep and export_individual_clips *)

(** X21.  With [export_clips] set and a negative [maxclips] that leaves no
    segment, [videogrep] does not report that nothing is left: it calls
    [export_individual_clips] on the empty composition, and the call raises
    [IndexError] on [composition[0]]. *)
Theorem videogrep_export_clips_nothing_left
    (parse_transcript : string -> option string -> option transcript)
    (re_search : string -> string -> result bool)
    (read_lines : string -> list string) (str_float : Q -> string)
    (raises : list action -> action -> option py_error)
    (duration : string -> Q) (splitext : string -> string * string)
    (files query : list string) (search_type output : string)
    (resync padding : Q) (maxclips : Z) (random_order : bool) (pause : Q)
    (word_file : option string) (context_aware : bool)
    (transcript_type : option string) (w w1 : world)
    (segments : list segment) (h : list action) :
  search parse_transcript re_search query search_type transcript_type
    (word_content_of read_lines word_file) context_aware files w
  = (Ok segments, w1) ->
  segments <> [] ->
  (maxclips < 0)%Z ->
  length (pad_and_sync segments padding resync) <= Z.to_nat (- maxclips) ->
  exists w',
    videogrep parse_transcript re_search read_lines str_float files query
      search_type output resync padding maxclips true random_order false
      pause word_file context_aware transcript_type w
    = (Calls (export_individual_clips_call [] output pause), w')
    /\ (export_individual_clips raises duration splitext [] output pause
          (h, w')).1
       = inl (Builtin IndexError).
Proof.
  intros Hs Hne Hneg Hlen. unfold videogrep. rewrite Hs.
  destruct (Nat.eqb_spec (length segments) 0) as [Hl|_].
  { by destruct segments. }
  destruct (compose_value resync padding maxclips random_order segments w1)
    as (l & Hp & _ & Hc).
  destruct (compose segments padding resync random_order maxclips w1)
    as [comp w2]. cbn [fst] in Hc. subst comp.
  exists w2. split; [|done].
  unfold deliver. do 3 f_equal.
  destruct (Z.eqb_spec maxclips 0) as [?|_]; [lia|].
  apply length_zero_iff_nil. rewrite py_slice_to_length.
  destruct (Z.leb_spec 0 maxclips); [lia|]. rewrite Hp. lia.
Qed.

Lemma videogrep_export_clips_nothing_left_example :
  exists w',
    videogrep (one_file "a.mp4" three_lines) literal_search (fun _ => [])
      (fun _ => "t") ["a.mp4"] ["hello"; "see"] "sentence" "out.mp4" 0 0
      (-2) true false false 0 None false None (World [] [])
    = (Calls (export_individual_clips_call [] "out.mp4" 0), w')
    /\ (export_individual_clips calm five_seconds dot_split [] "out.mp4" 0
          ([], w')).1
       = inl (Builtin IndexError).
Proof.
  apply (videogrep_export_clips_nothing_left (one_file "a.mp4" three_lines)
           literal_search (fun _ => []) (fun _ => "t") calm five_seconds
           dot_split ["a.mp4"] ["hello"; "see"] "sentence" "out.mp4" 0 0 (-2)
           false 0 None false None (World [] []) (World [] [])
           [hit line0; hit line2] []).
  - reflexivity.
  - discriminate.
  - lia.
  - vm_compute. lia.
Defined.

(** ** find_transcript (videogrep.py, lines 19-53) *)

Definition SUB_EXTS : list string := [".json"; ".vtt"; ".srt"; ".transcript"].

(** [s.replace(".", "")] *)
Fixpoint remove_dots (s : string) : string :=
  match s with
  | EmptyString => EmptyString
  | String c s' =>
      if Ascii.eqb c "." then remove_dots s' else String c (remove_dots s')
  end.

(** [if subfile:] is false for [None] and for the empty string. *)
Definition truthy (subfile : option string) : bool :=
  match subfile with
  | Some s => negb (String.eqb s EmptyString)
  | None => false
  end.

Section FindTranscript.

Variable re_search : string -> string -> result bool.

(** [re.escape(os.path.splitext(videoname)[0])] *)
Variable escaped_root : string -> string.

(** The files of the directory of the video, in the order of [iterdir]. *)
Variable all_files : list string.

(** The pattern of lines 38-42. *)
Definition pattern_of (videoname ext : string) : string :=
  escaped_root videoname +:+ "\..*?\.?" +:+ remove_dots ext.

(** The inner loop (lines 46-49): the first file the pattern is found in. *)
Fixpoint first_found (pattern : string) (files : list string)
  : result (option string) :=
  match files with
  | [] => Ok None
  | f :: r =>
      hit ← re_search pattern f;
      if hit : bool then Ok (Some f) else first_found pattern r
  end.

(** The outer loop (lines 37-51). *)
Fixpoint ext_loop (videoname : string) (exts : list string)
    (subfile : option string) (w : world) : result (option string) * world :=
  match exts with
  | [] => (Ok subfile, w)
  | ext :: r =>
      let pattern := pattern_of videoname ext in
      let w := print ("Looking for " +:+ pattern) w in
      match first_found pattern all_files with
      | Raise e => (Raise e, w)
      | Ok found =>
          let subfile := match found with
                         | Some f => Some f
                         | None => subfile
                         end in
          if truthy subfile then (Ok subfile, w)
          else ext_loop videoname r subfile w
      end
  end.

Definition find_transcript (videoname : string) (prefer : option string)
    (w : world) : result (option string) * world :=
  let _sub_exts := match prefer with
                   | Some p => p :: SUB_EXTS
                   | None => SUB_EXTS
                   end in
  ext_loop videoname _sub_exts None w.

End FindTranscript.

(** *** The result of find_transcript *)

Section FindTranscriptProperties.

Variable re_search : string -> string -> result bool.
Variable escaped_root : string -> string.
Variable all_files : list string.
Variables (videoname : string) (prefer : option string).

(** [re.search] raises on no pattern of the call, and [found] tells where
    it finds one. *)
Variable found : string -> string -> bool.

Local Abbreviation the_pattern_of := (pattern_of escaped_root videoname).

Local Abbreviation the_exts :=
  (match prefer with
   | Some p => p :: SUB_EXTS
   | None => SUB_EXTS
   end).

Hypothesis re_search_found :
  forall ext f, In ext the_exts -> In f all_files ->
    re_search (the_pattern_of ext) f = Ok (found (the_pattern_of ext) f).

(** [iterdir] yields no empty path. *)
Hypothesis all_files_named : Forall (fun f => f <> EmptyString) all_files.

(** The files an extension selects, in the order of the directory. *)
Definition candidates (ext : string) : list string :=
  List.filter (found (the_pattern_of ext)) all_files.

Lemma first_found_head (pattern : string) (files : list string) :
  (forall f, In f files -> re_search pattern f = Ok (found pattern f)) ->
  first_found re_search pattern files
  = Ok (head (List.filter (found pattern) files)).
Proof.
  induction files as [|f r IH]; intros H; [done|].
  cbn [first_found List.filter]. rewrite H by by left.
  cbn [mbind result_bind]. destruct (found pattern f); [done|].
  apply IH. intros g Hg. apply H. by right.
Qed.

Lemma head_filter_named (pattern : string) :
  truthy (head (List.filter (found pattern) all_files))
  = bool_decide (List.filter (found pattern) all_files <> []).
Proof.
  destruct (List.filter (found pattern) all_files) as [|f r] eqn:E; [done|].
  cbn [head truthy]. rewrite bool_decide_eq_true_2 by done.
  assert (Hin : In f all_files).
  { apply (filter_In (found pattern) f all_files). rewrite E. by left. }
  rewrite Forall_forall in all_files_named.
  apply list_elem_of_In, all_files_named in Hin.
  by apply negb_true_iff, String.eqb_neq.
Qed.

(** The extensions the loop goes through: those before the first one that
    selects a file, and that one. *)
Fixpoint tried (exts : list string) : list string :=
  match exts with
  | [] => []
  | ext :: r =>
      ext :: match candidates ext with
             | [] => tried r
             | _ :: _ => []
             end
  end.

Lemma ext_loop_value (exts : list string) (w : world) :
  (forall ext, In ext exts -> In ext the_exts) ->
  ext_loop re_search escaped_root all_files videoname exts None w
  = (Ok (head (flat_map candidates exts)),
     World (random w)
       (stdout w
        ++ map (fun ext => "Looking for " +:+ the_pattern_of ext)
             (tried exts))).
Proof.
  revert w. induction exts as [|ext r IH]; intros w Hin.
  { cbn. rewrite app_nil_r. by destruct w. }
  cbn [ext_loop flat_map tried].
  rewrite first_found_head
    by (intros f Hf; apply re_search_found; [apply Hin; by left | done]).
  fold (candidates ext).
  pose proof (head_filter_named (the_pattern_of ext)) as Ht.
  fold (candidates ext) in Ht.
  destruct (candidates ext) as [|f fs] eqn:Ec.
  - cbn [head truthy app]. rewrite IH by (intros e He; apply Hin; by right).
    f_equal. cbn [print random stdout map]. by rewrite <- app_assoc.
  - cbn [head app] in *. rewrite Ht, bool_decide_eq_true_2 by done.
    done.
Qed.

(** X22.  [find_transcript] tries the preferred extension first and then
    [.json], [.vtt], [.srt] and [.transcript], in this order; it returns the
    first file of the directory that the first extension with any file
    selects, and [None] when no extension selects a file.  It prints one
    line for each extension tried and none for the extensions after the
    one that succeeds. *)
Theorem find_transcript_first_match (w : world) :
  find_transcript re_search escaped_root all_files videoname prefer w
  = (Ok (head (flat_map candidates the_exts)),
     World (random w)
       (stdout w
        ++ map (fun ext => "Looking for " +:+ the_pattern_of ext)
             (tried the_exts))).
Proof. unfold find_transcript. by apply ext_loop_value. Qed.

End FindTranscriptProperties.

(** A matcher for the examples: it looks at the end of the file name for
    what follows the last [?] of the pattern. *)
Fixpoint after_mark (s : string) : string :=
  match s with
  | EmptyString => EmptyString
  | String _ s' => if containsb "?" s' then after_mark s' else s'
  end.

Definition tail_found (pattern f : string) : bool :=
  ends_with (after_mark pattern) f.

Definition tail_search (pattern f : string) : result bool :=
  Ok (tail_found pattern f).

Lemma find_transcript_first_match_example :
  find_transcript tail_search (fun _ => "a") ["a.srt"; "a.json"; "b.json"]
    "a.mp4" None (World [] [])
  = (Ok (Some "a.json"), World [] ["Looking for a\..*?\.?json"]).
Proof.
  apply (find_transcript_first_match tail_search (fun _ => "a")
           ["a.srt"; "a.json"; "b.json"] "a.mp4" None tail_found).
  - reflexivity.
  - repeat constructor; discriminate.
Defined.

(** * The command line (cli.py, lines 174-225) *)

Definition media_extensions : list string :=
  [".mp4"; ".mkv"; ".webm"; ".mov"; ".mp3"; ".wav"].

(** [any(f.endswith(ext) for ext in media_extensions)] *)
Definition is_media (f : string) : bool :=
  existsb (fun ext => ends_with ext f) media_extensions.

(** [l.remove(x)]: the list without the first [x]; [None] stands for the
    [ValueError] of a list without [x]. *)
Fixpoint list_remove (x : string) (l : list string) : option (list string) :=
  match l with
  | [] => None
  | y :: r => if String.eqb y x then Some r else (y ::.) <$> list_remove x r
  end.

Section Transcribe.

(** What lines 189-192 do to the disk for one media file: the transcript
    is made unless it exists. *)
Variable disk : Type.
Variable transcribe_once : string -> disk -> disk.

(** The loop of lines 181-192 over the copy [inputfile[:]]. *)
Fixpoint transcribe_loop (copy inputfile : list string) (d : disk)
  : option (list string * disk) :=
  match copy with
  | [] => Some (inputfile, d)
  | f :: r =>
      if negb (is_media f) then
        inputfile ← list_remove f inputfile;
        transcribe_loop r inputfile d
      else transcribe_loop r inputfile (transcribe_once f d)
  end.

Definition transcribe_all (inputfile : list string) (d : disk)
  : option (list string * disk) :=
  transcribe_loop inputfile inputfile d.

Lemma list_remove_media (kept : list string) (f : string) (r : list string) :
  Forall (fun g => is_media g = true) kept -> is_media f = false ->
  list_remove f (kept ++ f :: r) = Some (kept ++ r).
Proof.
  intros Hk Hf. induction Hk as [|g kept Hg _ IH]; cbn [app list_remove].
  - by rewrite String.eqb_refl.
  - destruct (String.eqb_spec g f) as [->|_]; [congruence|].
    by rewrite IH.
Qed.

Lemma transcribe_loop_value (copy kept : list string) (d : disk) :
  Forall (fun g => is_media g = true) kept ->
  transcribe_loop copy (kept ++ copy) d
  = Some (kept ++ List.filter is_media copy,
          foldl (fun d f => transcribe_once f d) d
            (List.filter is_media copy)).
Proof.
  revert kept d. induction copy as [|f r IH]; intros kept d Hk; [done|].
  cbn [transcribe_loop List.filter]. destruct (is_media f) eqn:Ef; cbn [negb].
  - replace (kept ++ f :: r) with ((kept ++ [f]) ++ r)
      by by rewrite <- app_assoc.
    rewrite IH by (apply Forall_app; split; [done | by constructor]).
    by rewrite <- app_assoc.
  - rewrite list_remove_media by done. cbn [mbind option_bind]. by apply IH.
Qed.

(** X23.  The loop that removes from [args.inputfile] while it goes through
    a copy of it never fails on [remove], and leaves exactly the media
    files, all their occurrences, in their order; each of them is
    transcribed once for each occurrence, in that order. *)
Theorem transcribe_all_keeps_media (inputfile : list string) (d : disk) :
  transcribe_all inputfile d
  = Some (List.filter is_media inputfile,
          foldl (fun d f => transcribe_once f d) d
            (List.filter is_media inputfile)).
Proof. apply (transcribe_loop_value inputfile []). constructor. Qed.

End Transcribe.

(** *** The call of videogrep for one input file (cli.py, lines 209-225) *)

Section Main.

Variable parse_transcript : string -> option string -> option transcript.
Variable re_search : string -> string -> result bool.
Variable read_lines : string -> list string.
Variable str_float : Q -> string.

(** [os.path.join] *)
Variable path_join : string -> string -> string.

(** The arguments, as [argparse] leaves them in [args]. *)
Variables (search : option (list string)) (searchtype outfolder : string).
Variables (maxclips : Z) (padding sync pause : Q).
Variables (demo randomize export_clips context_aware : bool).
Variable inputwordfile : option string.

(** [args.search] is [None] when no search term is given, and [search]
    takes what is neither a list nor a string for the empty list. *)
Definition main_videogrep (f : string) (w : world) : ending * world :=
  videogrep parse_transcript re_search read_lines str_float
    [f] (default [] search) searchtype
    (path_join outfolder ("output_" +:+ f))
    sync padding maxclips export_clips randomize demo pause inputwordfile
    context_aware None w.

End Main.

Lemma string_app_assoc (a b c : string) : (a +:+ b) +:+ c = a +:+ (b +:+ c).
Proof.
  induction a as [|x a IH]; [done|].
  change (String x ((a +:+ b) +:+ c) = String x (a +:+ (b +:+ c))).
  by rewrite IH.
Qed.

Lemma string_rev_app_acc (s acc : string) :
  String.rev_app s acc = String.rev s +:+ acc.
Proof.
  unfold String.rev. revert acc. induction s as [|x s IH]; intros acc; [done|].
  cbn [String.rev_app]. rewrite IH, (IH (String x "")).
  by rewrite string_app_assoc.
Qed.

Lemma string_rev_app (a b : string) :
  String.rev (a +:+ b) = String.rev b +:+ String.rev a.
Proof.
  induction a as [|x a IH].
  - change ("" +:+ b) with b. unfold String.rev at 3. cbn [String.rev_app].
    generalize (String.rev b). intros s. induction s as [|y s IHs]; [done|].
    change (String y s = String y (s +:+ "")). by rewrite <- IHs.
  - change (String x a +:+ b) with (String x (a +:+ b)).
    unfold String.rev at 1 3. cbn [String.rev_app].
    rewrite !string_rev_app_acc, IH. by rewrite string_app_assoc.
Qed.

Lemma ends_with_app (suffix p f : string) (c d : ascii) (r s : string) :
  String.rev suffix = String c r -> String.rev f = String d s -> c <> d ->
  ends_with suffix (p +:+ f) = false.
Proof.
  intros Hs Hf Hcd. unfold ends_with. rewrite string_rev_app, Hs, Hf.
  change (String d s +:+ String.rev p) with (String d (s +:+ String.rev p)).
  cbn [prefixb]. by rewrite (proj2 (Ascii.eqb_neq c d)).
Qed.

Lemma ends_with_last (suffix f : string) (c : ascii) (r : string) :
  String.rev suffix = String c r -> ends_with suffix f = true ->
  exists s, String.rev f = String c s.
Proof.
  unfold ends_with. intros ->. destruct (String.rev f) as [|d s]; [done|].
  cbn [prefixb]. destruct (Ascii.eqb_spec c d) as [->|_]; [|done].
  by exists s.
Qed.

Lemma is_media_last (f : string) :
  is_media f = true ->
  exists d s, String.rev f = String d s
              /\ (d = "4" \/ d = "v" \/ d = "m" \/ d = "3")%char.
Proof.
  unfold is_media, media_extensions. cbn [existsb].
  rewrite !orb_true_iff.
  intros [H|[H|[H|[H|[H|[H|H]]]]]]; [..|done];
    (eapply ends_with_last in H as [s Hs]; [|reflexivity]);
    eexists _, s; (split; [exact Hs|]); auto.
Qed.

Lemma media_not_playlist (p f : string) :
  is_media f = true ->
  ends_with ".m3u" (p +:+ f) = false
  /\ ends_with ".mpv.edl" (p +:+ f) = false
  /\ ends_with ".xml" (p +:+ f) = false.
Proof.
  intros (d & s & Hf & Hd)%is_media_last.
  split_and!; (eapply ends_with_app; [reflexivity | exact Hf |]);
    by destruct Hd as [->|[->|[->| ->]]].
Qed.

(** X24.  The command line names the output of a media file
    [output_<file>] in the output folder, so that the name ends like the
    media file: from the command line the playlist exports of [videogrep]
    are never taken, neither [export_m3u] nor the calls that raise
    [TypeError]. *)
Theorem main_videogrep_no_playlist
    (parse_transcript : string -> option string -> option transcript)
    (re_search : string -> string -> result bool)
    (read_lines : string -> list string) (str_float : Q -> string)
    (path_join : string -> string -> string)
    (terms : option (list string)) (searchtype outfolder : string)
    (maxclips : Z) (padding sync pause : Q)
    (demo randomize export_clips context_aware : bool)
    (inputwordfile : option string) (f : string) (w : world) :
  (forall a b, exists p, path_join a b = p +:+ b) ->
  is_media f = true ->
  let r := (main_videogrep parse_transcript re_search read_lines str_float
              path_join terms searchtype outfolder maxclips padding sync
              pause demo randomize export_clips context_aware inputwordfile
              f w).1 in
  r <> TypeError
  /\ forall composition outputfile pause',
       r <> Calls (export_m3u_call composition outputfile pause').
Proof.
  intros Hjoin Hf r. subst r. unfold main_videogrep, videogrep.
  destruct (Hjoin outfolder ("output_" +:+ f)) as [p ->].
  rewrite <- string_app_assoc.
  destruct (media_not_playlist (p +:+ "output_") f Hf) as (Hm & He & Hx).
  destruct (search _ _ _ _ _ _ _ _ _) as [[segments|e] w1];
    [|by split].
  destruct (length segments =? 0)%nat; [by split|].
  destruct (compose _ _ _ _ _ _) as [comp w2].
  unfold deliver. rewrite Hm, He, Hx.
  destruct demo; [by split|]. destruct export_clips; [by split|].
  by destruct (BATCH_SIZE <? length comp)%nat.
Qed.

Lemma main_videogrep_no_playlist_example :
  let r := (main_videogrep (one_file "a.mp4" three_lines) literal_search
              (fun _ => []) (fun _ => "t")
              (fun a b => a +:+ "/" +:+ b) (Some ["hello"]) "sentence"
              "output" 0 0 0 0 false false false false None "a.mp4"
              (World [] [])).1 in
  r <> TypeError
  /\ forall composition outputfile pause',
       r <> Calls (export_m3u_call composition outputfile pause').
Proof.
  apply (main_videogrep_no_playlist (one_file "a.mp4" three_lines)
           literal_search (fun _ => []) (fun _ => "t")
           (fun a b => a +:+ "/" +:+ b) (Some ["hello"]) "sentence"
           "output" 0 0 0 0 false false false false None "a.mp4"
           (World [] [])).
  - intros a b. exists (a +:+ "/"). by rewrite string_app_assoc.
  - reflexivity.
Defined.
